(** * TypeDoc comment and type models: display parts, serialization, clone

    A shallow embedding of [src/lib/models/comments/comment.ts] and
    [src/lib/models/types/indexed-access.ts].

    Two layers are used.  Functions that only read their argument
    ([combineDisplayParts], [displayPartsToMarkdown], [serializeDisplayParts],
    [splitPartsToHeaderAndBody], [toObject], [toString]) are functions on
    values.  Functions that allocate or mutate objects ([clone], the
    constructor with [extractLabelTag], [fromObject] with its deferred
    callbacks) run on an explicit object store, so that aliasing is visible.
    The reading methods of [Comment] ([isEmpty], [hasModifier], [getTag] and
    the like) and [hasAnyLinkedReferenceType] are functions on values too. *)

From Stdlib Require Import ZArith NArith Ascii String Lia.
From stdpp Require Import gmap list strings pretty relations.

Local Open Scope Z_scope.

(** ** JavaScript strings

    A string is its sequence of UTF-16 code units. *)

Module JS.

Definition char16 := N.
Definition jsstring := list char16.

(** An ASCII literal as a JavaScript string. *)
Definition lit (s : string) : jsstring :=
  (fun a => N_of_ascii a) <$> list_ascii_of_string s.

Definition NL : char16 := 10%N.

(** [s.includes("\n")] *)
Definition includes_nl (s : jsstring) : bool := existsb (N.eqb NL) s.

(** [s.indexOf("\n")]: the index of the first line feed, or [-1]. *)
Fixpoint indexOf_nl (s : jsstring) : Z :=
  match s with
  | [] => -1
  | c :: s' =>
      if N.eqb c NL then 0
      else let i := indexOf_nl s' in if i =? -1 then -1 else i + 1
  end.

(** [s.substring(a, b)] for [0 <= a <= b]; [s.substring(a)]. *)
Definition substring (a b : Z) (s : jsstring) : jsstring :=
  take (Z.to_nat b - Z.to_nat a)%nat (drop (Z.to_nat a) s).
Definition substring_from (a : Z) (s : jsstring) : jsstring :=
  drop (Z.to_nat a) s.

(** ECMAScript WhiteSpace and LineTerminator code units, the ones
    [String.prototype.trim] strips. *)
Definition is_ws (c : char16) : bool :=
  let c := Z.of_N c in
  (c =? 9) || (c =? 10) || (c =? 11) || (c =? 12) || (c =? 13) ||
  (c =? 32) || (c =? 160) || (c =? 5760) ||
  ((8192 <=? c) && (c <=? 8202)) ||
  (c =? 8232) || (c =? 8233) || (c =? 8239) || (c =? 8287) ||
  (c =? 12288) || (c =? 65279).

Fixpoint trimStart (s : jsstring) : jsstring :=
  match s with
  | c :: s' => if is_ws c then trimStart s' else s
  | [] => []
  end.
Definition trimEnd (s : jsstring) : jsstring := reverse (trimStart (reverse s)).
Definition trim (s : jsstring) : jsstring := trimEnd (trimStart s).

(** Truthiness of a string: the empty string is falsy. *)
Definition truthy (s : jsstring) : bool :=
  match s with [] => false | _ => true end.

(** [n.toString()] for an integer. *)
Definition Number_toString (n : Z) : jsstring := lit (pretty n).

(** A [Set<string>]: its elements in insertion order, without repetition. *)
Definition Set_add (x : jsstring) (s : list jsstring) : list jsstring :=
  if bool_decide (x ∈ s) then s else s ++ [x].
(** [new Set(iterable)] *)
Definition Set_new (xs : list jsstring) : list jsstring :=
  foldl (fun s x => Set_add x s) [] xs.
(** [Array.from(set)] *)
Definition Array_from (s : list jsstring) : list jsstring := s.

End JS.
Export JS.

(** ** Collaborators

    Classes the two source files use and that live elsewhere in the
    repository: graph nodes ([Reflection]), [ReflectionKind.classString] and
    [ReflectionSymbolId] with its serialized payload. *)

Class Collaborators := {
  Reflection : Type;
  (** [reflection.id] *)
  Reflection_id : Reflection -> Z;
  (** [reflection.kind] *)
  ReflectionKind : Type;
  Reflection_kind : Reflection -> ReflectionKind;
  (** [reflection.getFullName()] *)
  getFullName : Reflection -> jsstring;
  (** [ReflectionKind.classString(kind)] *)
  classString : ReflectionKind -> jsstring;
  ReflectionSymbolId : Type;
  (** [JSONOutput.ReflectionSymbolId] *)
  SymbolIdObject : Type;
  (** [symbolId.toObject(serializer)] *)
  ReflectionSymbolId_toObject : ReflectionSymbolId -> SymbolIdObject;
  (** [new ReflectionSymbolId(json)] *)
  ReflectionSymbolId_new : SymbolIdObject -> ReflectionSymbolId;
  (** The state of a [Type] variant other than indexed access. *)
  OtherType : Type;
  OtherType_toString : OtherType -> jsstring;
}.

(** ** Display parts (values) *)

Section Values.
Context `{Collaborators}.

(** [InlineTagDisplayPart.target]: [Reflection | string | ReflectionSymbolId]. *)
Inductive InlineTarget :=
| TReflection (r : Reflection)
| TString (s : jsstring)
| TSymbolId (s : ReflectionSymbolId).

(** [RelativeLinkDisplayPart.target]: [Reflection | number]. *)
Inductive LinkTarget :=
| LReflection (r : Reflection)
| LNumber (n : Z).

Inductive CommentDisplayPart :=
| Text (text : jsstring)
| Code (text : jsstring)
| InlineTag (tag text : jsstring) (target : option InlineTarget)
    (tsLinkText : option jsstring)
| RelativeLink (text : jsstring) (target : LinkTarget).

(** [part.text], present on every kind. *)
Definition part_text (p : CommentDisplayPart) : jsstring :=
  match p with
  | Text t | Code t | InlineTag _ t _ _ | RelativeLink t _ => t
  end.

(** [body[0].text = t] *)
Definition set_text (t : jsstring) (p : CommentDisplayPart) : CommentDisplayPart :=
  match p with
  | Text _ => Text t
  | Code _ => Code t
  | InlineTag tag _ tg ts => InlineTag tag t tg ts
  | RelativeLink _ tg => RelativeLink t tg
  end.

Definition is_code (p : CommentDisplayPart) : bool :=
  match p with Code _ => true | _ => false end.

Definition str_eqb (a b : jsstring) : bool := bool_decide (a = b).

(** [combineDisplayParts]: one iteration of the loop, then the loop. *)
Definition combine_item (item : CommentDisplayPart) : jsstring :=
  match item with
  | Text t | Code t => t
  | InlineTag tag text _ _ => lit "{" ++ tag ++ lit " " ++ text ++ lit "}"
  | RelativeLink _ target =>
      lit "{rel:" ++
      match target with
      | LNumber n => Number_toString n
      | LReflection r => getFullName r
      end ++ lit "}"
  end.

Definition combineDisplayParts (parts : list CommentDisplayPart) : jsstring :=
  foldl (fun result item => result ++ combine_item item) [] parts.

(** [displayPartsToMarkdown]: what one part pushes on [result]
    ([None]: nothing is pushed). *)
Definition markdown_link (tag text : jsstring) (target : InlineTarget)
    (urlTo : Reflection -> jsstring) (useHtml : bool) : jsstring :=
  let '(url, kindClass) :=
    match target with
    | TString s => (Some s, None)
    | TReflection r => (Some (urlTo r), Some (classString (Reflection_kind r)))
    | TSymbolId _ => (None, None)
    end in
  let url_truthy := match url with Some u => truthy u | None => false end in
  let url_str := default [] url in
  if useHtml then
    let text' :=
      if str_eqb tag (lit "@linkcode")
      then lit "<code>" ++ text ++ lit "</code>" else text in
    if url_truthy then
      lit "<a href=" ++ [34%N] ++ url_str ++ [34%N] ++
      match kindClass with
      | Some k => if truthy k then lit " class=" ++ [34%N] ++ k ++ [34%N] else []
      | None => []
      end ++ lit ">" ++ text' ++ lit "</a>"
    else text
  else
    let text' :=
      if str_eqb tag (lit "@linkcode")
      then lit "`" ++ text ++ lit "`" else text in
    if url_truthy then lit "[" ++ text' ++ lit "](" ++ url_str ++ lit ")"
    else text'.

Definition target_truthy (t : option InlineTarget) : bool :=
  match t with
  | None => false
  | Some (TString s) => truthy s
  | Some _ => true
  end.

Definition markdown_part (urlTo : Reflection -> jsstring) (useHtml : bool)
    (part : CommentDisplayPart) : option jsstring :=
  match part with
  | Text t | Code t => Some t
  | InlineTag tag text target _ =>
      if str_eqb tag (lit "@label") || str_eqb tag (lit "@inheritdoc") then None
      else if str_eqb tag (lit "@link") || str_eqb tag (lit "@linkcode")
              || str_eqb tag (lit "@linkplain") then
        match target with
        | Some tg =>
            if target_truthy target
            then Some (markdown_link tag text tg urlTo useHtml)
            else Some text
        | None => Some text
        end
      else Some (lit "{" ++ tag ++ lit " " ++ text ++ lit "}")
  | RelativeLink _ _ => None
  end.

Definition displayPartsToMarkdown (parts : list CommentDisplayPart)
    (urlTo : Reflection -> jsstring) (useHtml : bool) : jsstring :=
  let result :=
    foldl (fun result part =>
             match markdown_part urlTo useHtml part with
             | Some s => result ++ [s]
             | None => result
             end) [] parts in
  concat result.

(** [cloneDisplayParts]: [parts.map((p) => ({ ...p }))].  On values a
    shallow copy of a part is the part. *)
Definition cloneDisplayParts (parts : list CommentDisplayPart)
  : list CommentDisplayPart :=
  (fun p => p) <$> parts.

(** ** Serialized form ([JSONOutput]) *)

Inductive JSONInlineTarget :=
| JNumber (n : Z)
| JString (s : jsstring)
| JSymbolId (o : SymbolIdObject).

Inductive JSONLinkTarget :=
| JMedia (media : Z)
| JReflection (reflection : Z).

Inductive JSONDisplayPart :=
| JText (text : jsstring)
| JCode (text : jsstring)
| JInlineTag (tag text : jsstring) (target : option JSONInlineTarget)
    (tsLinkText : option jsstring)
| JRelativeLink (text : jsstring) (target : JSONLinkTarget).

(** The callback of [parts?.map] in [serializeDisplayParts]. *)
Definition serializeDisplayPart (part : CommentDisplayPart) : JSONDisplayPart :=
  match part with
  | Text t => JText t
  | Code t => JCode t
  | InlineTag tag text target tsLinkText =>
      let target' :=
        match target with
        | Some (TString s) => Some (JString s)
        | Some (TReflection r) => Some (JNumber (Reflection_id r))
        | Some (TSymbolId s) => Some (JSymbolId (ReflectionSymbolId_toObject s))
        | None => None
        end in
      JInlineTag tag text target' tsLinkText
  | RelativeLink text (LNumber n) => JRelativeLink text (JMedia n)
  | RelativeLink text (LReflection r) =>
      JRelativeLink text (JReflection (Reflection_id r))
  end.

Definition serializeDisplayParts (parts : option (list CommentDisplayPart))
  : option (list JSONDisplayPart) :=
  match parts with
  | Some ps => Some (serializeDisplayPart <$> ps)
  | None => None
  end.

(** ** [splitPartsToHeaderAndBody] *)

(** [array.findIndex(f)]: the first index at which [f] holds, or [-1]. *)
Fixpoint findIndex {A} (f : A -> bool) (l : list A) : Z :=
  match l with
  | [] => -1
  | x :: l' =>
      if f x then 0
      else let i := findIndex f l' in if i =? -1 then -1 else i + 1
  end.

Definition has_newline (part : CommentDisplayPart) : bool :=
  match part with
  | Text t | Code t => includes_nl t
  | InlineTag _ _ _ _ | RelativeLink _ _ => false
  end.

(** [None] stands for a [TypeError] (reading a property of [undefined]). *)
Definition splitPartsToHeaderAndBody (parts : list CommentDisplayPart)
  : option (jsstring * list CommentDisplayPart) :=
  let index := findIndex has_newline parts in
  if index =? -1 then Some (combineDisplayParts parts, [])
  else
    p ← parts !! Z.to_nat index;
    let index := if is_code p then index - 1 else index in
    if index =? -1 then Some ([], cloneDisplayParts parts)
    else
      p ← parts !! Z.to_nat index;
      let header := combineDisplayParts (take (Z.to_nat index) parts) in
      let split := indexOf_nl (part_text p) in
      '(header, body) ←
        (if split =? -1 then
           Some (header ++ part_text p,
                 cloneDisplayParts (drop (Z.to_nat (index + 1)) parts))
         else
           match cloneDisplayParts (drop (Z.to_nat index) parts) with
           | [] => None
           | b :: body' =>
               Some (header ++ substring 0 split (part_text p),
                     set_text (substring_from (split + 1) (part_text b)) b :: body')
           end);
      match body with
      | [] => None
      | b :: body' =>
          Some (trim header, if truthy (part_text b) then body else body')
      end.

(** ** Comments and tags (values) *)

Record CommentTag := {
  tag_tag : jsstring;
  tag_name : option jsstring;
  tag_content : list CommentDisplayPart;
}.

Record Comment := {
  summary : list CommentDisplayPart;
  blockTags : list CommentTag;
  modifierTags : list jsstring;
  label : option jsstring;
  sourcePath : option jsstring;
  discoveryId : option Z;
}.

Record JSONCommentTag := {
  j_tag : jsstring;
  j_name : option jsstring;
  j_content : list JSONDisplayPart;
}.

Record JSONComment := {
  j_summary : list JSONDisplayPart;
  j_blockTags : option (list JSONCommentTag);
  j_modifierTags : option (list jsstring);
  j_label : option jsstring;
}.

Definition CommentTag_toObject (this : CommentTag) : JSONCommentTag :=
  {| j_tag := tag_tag this;
     j_name := tag_name this;
     j_content := serializeDisplayPart <$> tag_content this |}.

(** Modelled from the spec: [Serializer.toObjectsOptional], which is not in
    the sources.  "Optional fields absent at write time are omitted": an
    empty list gives [undefined], any other list the [toObject] of each of
    its elements. *)
Definition toObjectsOptional (tags : list CommentTag)
  : option (list JSONCommentTag) :=
  match tags with
  | [] => None
  | _ => Some (CommentTag_toObject <$> tags)
  end.

Definition Comment_toObject (this : Comment) : JSONComment :=
  {| j_summary := serializeDisplayPart <$> summary this;
     j_blockTags := toObjectsOptional (blockTags this);
     j_modifierTags :=
       if (0 <? Z.of_nat (length (modifierTags this)))
       then Some (Array_from (modifierTags this)) else None;
     j_label := label this |}.

(** ** Types (values)

    A type expression as a tree: an indexed access owns its two children;
    every other variant is a leaf here. *)
Inductive SomeType :=
| Other (v : OtherType)
| IndexedAccessType (objectType indexType : SomeType).

(** [toString()], dispatched on the variant; the second case is
    [IndexedAccessType.toString]. *)
Fixpoint Type_toString (t : SomeType) : jsstring :=
  match t with
  | Other v => OtherType_toString v
  | IndexedAccessType objectType indexType =>
      Type_toString objectType ++ lit "[" ++ Type_toString indexType ++ lit "]"
  end.

End Values.

(** ** The object store

    Objects that are allocated, shared or mutated live in a store: a finite
    map from references to cells.  Link targets (graph nodes and symbol
    identifiers) are not owned by a comment; a part holds them by value. *)

Module Store.
Section Store.
Context `{Collaborators}.

Definition loc := positive.

(** The two empty values a [target] slot can hold outside its declared type. *)
Inductive nullish := JsNull | JsUndefined.

Inductive cell :=
(** a display part that inhabits [CommentDisplayPart] *)
| CPart (p : CommentDisplayPart)
(** a relative-link object whose [target] is [null] or [undefined] *)
| CPlaceholder (text : jsstring) (target : nullish)
(** an array of object references *)
| CArray (items : list loc)
(** a [Set<string>] *)
| CSet (items : list jsstring)
(** a [CommentTag]: [tag], [name], [content] *)
| CTag (tag : jsstring) (name : option jsstring) (content : loc)
(** a [Comment] *)
| CComment (summary blockTags modifierTags : loc)
    (label sourcePath : option jsstring) (discoveryId : option Z)
(** an [IndexedAccessType]: [objectType], [indexType] *)
| CIndexedAccess (objectType indexType : loc)
(** a [Type] of another variant *)
| COtherType (v : OtherType).

(** The argument of [logger.warn]: the i18n message and its argument. *)
Inductive LogMessage :=
| serialized_project_referenced_0_not_part_of_project (arg : jsstring).

(** A deferred callback of [deserializeDisplayParts] is determined by the
    [links] array it closes over. *)
Definition Deferred := list (Z * loc).

Record state := {
  heap : gmap loc cell;
  (** [de.deferred] *)
  deferred : list Deferred;
  (** what [de.logger.warn] received, oldest first *)
  warnings : list LogMessage;
}.

Definition set_heap (f : gmap loc cell -> gmap loc cell) (s : state) : state :=
  {| heap := f (heap s); deferred := deferred s; warnings := warnings s |}.

(** Computations on the store; [None] is a thrown exception (or a cell of
    the wrong class where the source's types promise another). *)
Definition M (A : Type) : Type := state -> option (A * state).

Definition ret {A} (a : A) : M A := fun s => Some (a, s).
Definition bind {A B} (m : M A) (k : A -> M B) : M B :=
  fun s => match m s with Some (a, s') => k a s' | None => None end.
Definition throw {A} : M A := fun _ => None.

Notation "'let*' x ':=' m 'in' k" := (bind m (fun x => k))
  (at level 10, x pattern, m at level 100, k at level 200).

(** [new ...] / an object or array literal *)
Definition alloc (c : cell) : M loc :=
  fun s => let l := fresh (dom (heap s)) in Some (l, set_heap (insert l c) s).
Definition load (l : loc) : M cell :=
  fun s => match heap s !! l with Some c => Some (c, s) | None => None end.
Definition store (l : loc) (c : cell) : M unit :=
  fun s => Some (tt, set_heap (insert l c) s).
Definition get_heap : M (gmap loc cell) := fun s => Some (heap s, s).

Definition load_array (l : loc) : M (list loc) :=
  let* c := load l in
  match c with CArray items => ret items | _ => throw end.

(** [array.map(f)] for an effectful [f] (without the allocation of the
    result array). *)
Fixpoint mapM {A B} (f : A -> M B) (l : list A) : M (list B) :=
  match l with
  | [] => ret []
  | x :: l' =>
      let* y := f x in
      let* ys := mapM f l' in
      ret (y :: ys)
  end.

(** *** [cloneDisplayParts], [CommentTag.clone] *)

(** [{ ...p }] for a display part [p] *)
Definition spread_part (p : loc) : M loc :=
  let* c := load p in
  match c with
  | CPart _ | CPlaceholder _ _ => alloc c
  | _ => throw
  end.

Definition cloneDisplayParts (parts : loc) : M loc :=
  let* items := load_array parts in
  let* items' := mapM spread_part items in
  alloc (CArray items').

Definition name_truthy (name : option jsstring) : bool :=
  match name with Some n => truthy n | None => false end.

Definition CommentTag_clone (this : loc) : M loc :=
  let* c := load this in
  match c with
  | CTag this_tag this_name this_content =>
      let* content := cloneDisplayParts this_content in
      let* tag := alloc (CTag this_tag None content) in
      if name_truthy this_name then
        let* _ := store tag (CTag this_tag this_name content) in
        ret tag
      else ret tag
  | _ => throw
  end.

(** *** The [Comment] constructor and [extractLabelTag] *)

Definition is_label_part (p : CommentDisplayPart) : bool :=
  match p with
  | InlineTag tag _ _ _ => str_eqb tag (lit "@label")
  | _ => false
  end.

(** [part.kind === "inline-tag" && part.tag === "@label"] on the object
    at [l] *)
Definition is_label_at (h : gmap loc cell) (l : loc) : bool :=
  match h !! l with
  | Some (CPart p) => is_label_part p
  | _ => false
  end.

Definition extractLabelTag (comment : loc) : M unit :=
  let* c := load comment in
  match c with
  | CComment s b m _ sp di =>
      let* items := load_array s in
      let* h := get_heap in
      let index := findIndex (is_label_at h) items in
      if index =? -1 then ret tt
      else
        (* comment.summary.splice(index, 1)[0].text *)
        match items !! Z.to_nat index with
        | Some removed =>
            let* _ := store s (CArray (delete (Z.to_nat index) items)) in
            let* r := load removed in
            match r with
            | CPart p => store comment (CComment s b m (Some (part_text p)) sp di)
            | _ => throw
            end
        | None => throw
        end
  | _ => throw
  end.

(** [new Comment(summary, blockTags, modifierTags)].  The two field
    initialisers allocate an array and a set that the constructor body
    replaces at once; they are left out. *)
Definition new_Comment (summary blockTags modifierTags : loc) : M loc :=
  let* this := alloc (CComment summary blockTags modifierTags None None None) in
  let* _ := extractLabelTag this in
  ret this.

Definition load_set (l : loc) : M (list jsstring) :=
  let* c := load l in
  match c with CSet items => ret items | _ => throw end.

Definition Comment_clone (this : loc) : M loc :=
  let* c := load this in
  match c with
  | CComment this_summary this_blockTags this_modifierTags _
      this_sourcePath this_discoveryId =>
      let* summary := cloneDisplayParts this_summary in
      let* tags := load_array this_blockTags in
      let* tags' := mapM CommentTag_clone tags in
      let* blockTags := alloc (CArray tags') in
      let* mods := load_set this_modifierTags in
      let* modifierTags := alloc (CSet (Set_new mods)) in
      let* comment := new_Comment summary blockTags modifierTags in
      let* c' := load comment in
      match c' with
      | CComment s b m l _ _ =>
          let* _ := store comment (CComment s b m l this_sourcePath this_discoveryId) in
          ret comment
      | _ => throw
      end
  | _ => throw
  end.

(** *** Deserialization *)

(** Modelled from the spec: [Deserializer.defer], which is not in the
    sources.  The callback is appended to the session's queue of deferred
    resolution callbacks. *)
Definition defer (cb : Deferred) : M unit :=
  fun s => Some (tt, {| heap := heap s; deferred := deferred s ++ [cb];
                        warnings := warnings s |}).

(** [de.logger.warn(message)] *)
Definition warn (msg : LogMessage) : M unit :=
  fun s => Some (tt, {| heap := heap s; deferred := deferred s;
                        warnings := warnings s ++ [msg] |}).

(** One call of the callback of [parts.map] in [deserializeDisplayParts]:
    the new part and [links] after the call. *)
Definition deserializeDisplayPart (links : list (Z * loc))
    (part : JSONDisplayPart) : M (loc * list (Z * loc)) :=
  match part with
  | JText t => let* l := alloc (CPart (Text t)) in ret (l, links)
  | JCode t => let* l := alloc (CPart (Code t)) in ret (l, links)
  | JInlineTag tag text (Some (JNumber n)) tsLinkText =>
      let* part2 := alloc (CPart (InlineTag tag text None tsLinkText)) in
      ret (part2, links ++ [(n, part2)])
  | JInlineTag tag text (Some (JString s)) tsLinkText =>
      let* l := alloc (CPart (InlineTag tag text (Some (TString s)) tsLinkText)) in
      ret (l, links)
  | JInlineTag tag text None tsLinkText =>
      let* l := alloc (CPart (InlineTag tag text None tsLinkText)) in
      ret (l, links)
  | JInlineTag tag text (Some (JSymbolId o)) tsLinkText =>
      let* l := alloc (CPart (InlineTag tag text
                                (Some (TSymbolId (ReflectionSymbolId_new o)))
                                tsLinkText)) in
      ret (l, links)
  | JRelativeLink text (JMedia media) =>
      let* l := alloc (CPart (RelativeLink text (LNumber media))) in
      ret (l, links)
  | JRelativeLink text (JReflection reflection) =>
      let* part2 := alloc (CPlaceholder text JsNull) in
      ret (part2, links ++ [(reflection, part2)])
  end.

Fixpoint deserialize_map (links : list (Z * loc)) (parts : list JSONDisplayPart)
  : M (list loc * list (Z * loc)) :=
  match parts with
  | [] => ret ([], links)
  | part :: parts' =>
      let* (l, links') := deserializeDisplayPart links part in
      let* (ls, links'') := deserialize_map links' parts' in
      ret (l :: ls, links'')
  end.

Definition deserializeDisplayParts (parts : list JSONDisplayPart) : M loc :=
  let* (items, links) := deserialize_map [] parts in
  let* result := alloc (CArray items) in
  let* _ := (if 0 <? Z.of_nat (length links) then defer links else ret tt) in
  ret result.

(** Modelled from the spec: the graph-node registry, which is not in the
    sources: "look up node by identifier". *)
Definition getReflectionById (project : gmap Z Reflection) (id : Z)
  : option Reflection := project !! id.

(** [part.target = r] on the object in cell [c], for [r] a graph node or
    [undefined]; [links] only holds inline-tag and relative-link parts. *)
Definition set_target (c : cell) (r : option Reflection) : option cell :=
  match c with
  | CPart (InlineTag tag text _ tsLinkText) =>
      Some (CPart (InlineTag tag text (TReflection <$> r) tsLinkText))
  | CPart (RelativeLink text _) | CPlaceholder text _ =>
      Some (match r with
            | Some r => CPart (RelativeLink text (LReflection r))
            | None => CPlaceholder text JsUndefined
            end)
  | _ => None
  end.

(** The body of the callback given to [de.defer]: the loop over [links]. *)
Fixpoint resolve_links (project : gmap Z Reflection) (oldIdToNewId : gmap Z Z)
    (links : Deferred) : M unit :=
  match links with
  | [] => ret tt
  | (oldId, part) :: links' =>
      let target :=
        getReflectionById project (default (-1) (oldIdToNewId !! oldId)) in
      let* c := load part in
      match set_target c target with
      | Some c' =>
          let* _ := store part c' in
          let* _ :=
            (match target with
             | None =>
                 warn (serialized_project_referenced_0_not_part_of_project
                         (Number_toString oldId))
             | Some _ => ret tt
             end) in
          resolve_links project oldIdToNewId links'
      | None => throw
      end
  end.

(** Modelled from the spec: the resolution engine, which is not in the
    sources.  Once the graph is revived it "executes every deferred
    callback exactly once", in the order the callbacks were queued. *)
Fixpoint run_callbacks (project : gmap Z Reflection) (oldIdToNewId : gmap Z Z)
    (cbs : list Deferred) : M unit :=
  match cbs with
  | [] => ret tt
  | cb :: cbs' =>
      let* _ := resolve_links project oldIdToNewId cb in
      run_callbacks project oldIdToNewId cbs'
  end.

Definition runDeferred (project : gmap Z Reflection) (oldIdToNewId : gmap Z Z)
  : M unit :=
  fun s =>
    run_callbacks project oldIdToNewId (deferred s)
      {| heap := heap s; deferred := []; warnings := warnings s |}.

Definition CommentTag_fromObject (this : loc) (obj : JSONCommentTag) : M unit :=
  let* c := load this in
  match c with
  | CTag tag _ _ =>
      let* content := deserializeDisplayParts (j_content obj) in
      store this (CTag tag (j_name obj) content)
  | _ => throw
  end.

(** Modelled from the spec: [Deserializer.fromObject], which is not in the
    sources: it hands the plain object to the receiver's own [fromObject]. *)
Definition de_fromObject (receiver : loc) (obj : JSONCommentTag) : M unit :=
  CommentTag_fromObject receiver obj.

(** The callback of [obj.blockTags?.map] in [Comment.fromObject]. *)
Definition fromObject_tag (tagObj : JSONCommentTag) : M loc :=
  (* new CommentTag(tagObj.tag, []) *)
  let* empty := alloc (CArray []) in
  let* tag := alloc (CTag (j_tag tagObj) None empty) in
  let* _ := de_fromObject tag tagObj in
  ret tag.

Definition Comment_fromObject (this : loc) (obj : JSONComment) : M unit :=
  let* summary := deserializeDisplayParts (j_summary obj) in
  let* tags := mapM fromObject_tag (default [] (j_blockTags obj)) in
  let* blockTags := alloc (CArray tags) in
  let* modifierTags := alloc (CSet (Set_new (default [] (j_modifierTags obj)))) in
  let* c := load this in
  match c with
  | CComment _ _ _ _ sp di =>
      store this (CComment summary blockTags modifierTags (j_label obj) sp di)
  | _ => throw
  end.

(** [new Comment()]: the three default arguments, then the constructor. *)
Definition new_Comment_default : M loc :=
  let* summary := alloc (CArray []) in
  let* blockTags := alloc (CArray []) in
  let* modifierTags := alloc (CSet []) in
  new_Comment summary blockTags modifierTags.

(** Modelled from the spec: the read path for one comment, whose driver is
    not in the sources: "reconstruct, then resolve", that is [fromObject] on
    a new [Comment], then the deferred callbacks. *)
Definition deserialize_Comment (project : gmap Z Reflection)
    (oldIdToNewId : gmap Z Z) (obj : JSONComment) : M loc :=
  let* comment := new_Comment_default in
  let* _ := Comment_fromObject comment obj in
  let* _ := runDeferred project oldIdToNewId in
  ret comment.

(** *** [IndexedAccessType.clone] *)

(** Modelled from the spec: [clone] of the variants of [Type] other than
    indexed access, which are not in the sources.  It "returns a deep,
    independent copy": a new object with the same state. *)
Definition OtherType_clone (v : OtherType) : M loc := alloc (COtherType v).

(** [type.clone()], dispatched on the class of the object at [this]; the
    recursion is bounded by [fuel].  The first case is
    [IndexedAccessType.clone]. *)
Fixpoint Type_clone (fuel : nat) (this : loc) : M loc :=
  match fuel with
  | O => throw
  | S fuel' =>
      let* c := load this in
      match c with
      | CIndexedAccess objectType indexType =>
          let* o := Type_clone fuel' objectType in
          let* i := Type_clone fuel' indexType in
          alloc (CIndexedAccess o i)
      | COtherType v => OtherType_clone v
      | _ => throw
      end
  end.

Definition IndexedAccessType_clone (fuel : nat) (this : loc) : M loc :=
  let* c := load this in
  match c with
  | CIndexedAccess objectType indexType =>
      let* o := Type_clone fuel objectType in
      let* i := Type_clone fuel indexType in
      alloc (CIndexedAccess o i)
  | _ => throw
  end.

(** *** Reading the store back as values *)

Definition view_part (h : gmap loc cell) (l : loc) : option CommentDisplayPart :=
  match h !! l with
  | Some (CPart p) => Some p
  | _ => None
  end.

Fixpoint view_list {A} (f : loc -> option A) (ls : list loc) : option (list A) :=
  match ls with
  | [] => Some []
  | l :: ls' =>
      match f l, view_list f ls' with
      | Some x, Some xs => Some (x :: xs)
      | _, _ => None
      end
  end.

Definition view_parts (h : gmap loc cell) (l : loc)
  : option (list CommentDisplayPart) :=
  match h !! l with
  | Some (CArray items) => view_list (view_part h) items
  | _ => None
  end.

Definition view_tag (h : gmap loc cell) (l : loc) : option CommentTag :=
  match h !! l with
  | Some (CTag tag name content) =>
      match view_parts h content with
      | Some ps => Some {| tag_tag := tag; tag_name := name; tag_content := ps |}
      | None => None
      end
  | _ => None
  end.

Definition view_comment (h : gmap loc cell) (l : loc) : option Comment :=
  match h !! l with
  | Some (CComment s b m lbl sp di) =>
      match view_parts h s, h !! b, h !! m with
      | Some ps, Some (CArray tags), Some (CSet mods) =>
          match view_list (view_tag h) tags with
          | Some ts =>
              Some {| summary := ps; blockTags := ts; modifierTags := mods;
                      label := lbl; sourcePath := sp; discoveryId := di |}
          | None => None
          end
      | _, _, _ => None
      end
  | _ => None
  end.

(** The type expression rooted at [l]. *)
Inductive repr_type (h : gmap loc cell) : loc -> SomeType -> Prop :=
| repr_other l v :
    h !! l = Some (COtherType v) -> repr_type h l (Other v)
| repr_indexed l o i to ti :
    h !! l = Some (CIndexedAccess o i) ->
    repr_type h o to -> repr_type h i ti ->
    repr_type h l (IndexedAccessType to ti).

Fixpoint depth (t : SomeType) : nat :=
  match t with
  | Other _ => 1
  | IndexedAccessType o i => S (Nat.max (depth o) (depth i))
  end.

(** *** Reachability *)

(** The references a cell holds. *)
Definition fields (c : cell) : list loc :=
  match c with
  | CArray items => items
  | CTag _ _ content => [content]
  | CComment s b m _ _ _ => [s; b; m]
  | CIndexedAccess o i => [o; i]
  | CPart _ | CPlaceholder _ _ | CSet _ | COtherType _ => []
  end.

Definition points_to (h : gmap loc cell) (a b : loc) : Prop :=
  exists c, h !! a = Some c /\ b ∈ fields c.

(** [b] is [a] or an object reachable from [a] through fields. *)
Definition reach (h : gmap loc cell) : loc -> loc -> Prop := rtc (points_to h).

End Store.
End Store.

(** ** The other methods of [Comment] (values)

    [hasModifier], [getTag] and the like read the comment; [removeModifier]
    changes one field, written here as a function from the comment before
    to the comment after. *)

Section Methods.
Context `{Collaborators}.

Definition is_text (x : CommentDisplayPart) : bool :=
  match x with Text _ => true | _ => false end.

(** [x.kind !== "text" || x.text !== ""] *)
Definition visible_part (x : CommentDisplayPart) : bool :=
  negb (is_text x) || negb (str_eqb (part_text x) []).

Definition hasVisibleComponent (this : Comment) : bool :=
  existsb visible_part (summary this)
  || (0 <? Z.of_nat (length (blockTags this))).

Definition isEmpty (this : Comment) : bool :=
  negb (hasVisibleComponent this)
  && (Z.of_nat (length (modifierTags this)) =? 0).

(** [set.has(x)] and [set.delete(x)] on a [Set<string>]. *)
Definition Set_has (x : jsstring) (s : list jsstring) : bool :=
  bool_decide (x ∈ s).
Definition Set_delete (x : jsstring) (s : list jsstring) : list jsstring :=
  List.filter (fun y => negb (str_eqb y x)) s.

Definition hasModifier (tagName : jsstring) (this : Comment) : bool :=
  Set_has tagName (modifierTags this).

Definition removeModifier (tagName : jsstring) (this : Comment) : Comment :=
  {| summary := summary this;
     blockTags := blockTags this;
     modifierTags := Set_delete tagName (modifierTags this);
     label := label this;
     sourcePath := sourcePath this;
     discoveryId := discoveryId this |}.

(** [array.find(f)]: the first element on which [f] holds, or [undefined]. *)
Definition getTag (tagName : jsstring) (this : Comment) : option CommentTag :=
  List.find (fun tag => str_eqb (tag_tag tag) tagName) (blockTags this).

Definition getTags (tagName : jsstring) (this : Comment) : list CommentTag :=
  List.filter (fun tag => str_eqb (tag_tag tag) tagName) (blockTags this).

(** [tag.name === identifier]: an absent name equals no string. *)
Definition name_is (identifier : jsstring) (tag : CommentTag) : bool :=
  match tag_name tag with
  | Some n => str_eqb n identifier
  | None => false
  end.

Definition getIdentifiedTag (identifier tagName : jsstring) (this : Comment)
  : option CommentTag :=
  List.find (fun tag => str_eqb (tag_tag tag) tagName && name_is identifier tag)
            (blockTags this).

(** ** The hierarchy helper

    [DeclarationHierarchy] is imported from the models; the helper reads
    three fields of it: the types of one level ([types]), whether the level
    is the target ([isTarget], which may be absent), and the next level
    ([next]): [Level] when [next] is present, [LastLevel] when it is absent.
    A hierarchy is a finite chain of levels. *)
Inductive DeclarationHierarchy :=
| LastLevel (types : list SomeType) (isTarget : option bool)
| Level (types : list SomeType) (isTarget : option bool)
    (next : DeclarationHierarchy).

(** [!h.isTarget] *)
Definition not_target (isTarget : option bool) : bool :=
  match isTarget with Some true => false | _ => true end.

Section Linked.
(** [isLinkedReferenceType] asks [type.visit], which is not in the sources:
    it is a parameter here. *)
Context (isLinkedReferenceType : SomeType -> bool).

(** [hasAnyLinkedReferenceType(h)] for a hierarchy that is present. *)
Fixpoint hasAnyLinkedReferenceType_at (h : DeclarationHierarchy) : bool :=
  match h with
  | LastLevel types isTarget =>
      if not_target isTarget && existsb isLinkedReferenceType types then true
      else false
  | Level types isTarget next =>
      if not_target isTarget && existsb isLinkedReferenceType types then true
      else hasAnyLinkedReferenceType_at next
  end.

Definition hasAnyLinkedReferenceType (h : option DeclarationHierarchy) : bool :=
  match h with
  | None => false
  | Some h => hasAnyLinkedReferenceType_at h
  end.

(** The levels of a hierarchy, the first level first. *)
Fixpoint levels (h : DeclarationHierarchy)
  : list (list SomeType * option bool) :=
  match h with
  | LastLevel types isTarget => [(types, isTarget)]
  | Level types isTarget next => (types, isTarget) :: levels next
  end.

End Linked.

End Methods.

(** ** Sample collaborators

    A concrete instance, used to evaluate the definitions: a graph node is
    its identifier and full name, a symbol identifier is its payload. *)

Definition sample_collaborators : Collaborators := {|
  Reflection := Z * jsstring;
  Reflection_id := fst;
  ReflectionKind := Z;
  Reflection_kind := fun _ => 128;
  getFullName := snd;
  classString := fun _ => lit "tsd-kind-class";
  ReflectionSymbolId := jsstring;
  SymbolIdObject := jsstring;
  ReflectionSymbolId_toObject := fun s => s;
  ReflectionSymbolId_new := fun o => o;
  OtherType := jsstring;
  OtherType_toString := fun v => v;
|}.

(** ** Vocabulary of the statements *)

Section Vocabulary.
Context `{Collaborators}.

(** The URL a link target resolves to, if any. *)
Definition link_url (urlTo : Reflection -> jsstring) (target : InlineTarget)
  : option jsstring :=
  match target with
  | TString s => Some s
  | TReflection r => Some (urlTo r)
  | TSymbolId _ => None
  end.

(** The [class] attribute of an HTML link. *)
Definition class_attr (target : InlineTarget) : jsstring :=
  match target with
  | TReflection r =>
      let k := classString (Reflection_kind r) in
      if truthy k then lit " class=" ++ [34%N] ++ k ++ [34%N] else []
  | _ => []
  end.

Definition rendered (urlTo : Reflection -> jsstring) (useHtml : bool)
    (part : CommentDisplayPart) : jsstring :=
  default [] (markdown_part urlTo useHtml part).

(** A string with no white space at either end. *)
Definition trimmed (s : jsstring) : Prop :=
  (forall c, head s = Some c -> is_ws c = false) /\
  (forall c, last s = Some c -> is_ws c = false).

Definition is_relative_link (p : CommentDisplayPart) : bool :=
  match p with RelativeLink _ _ => true | _ => false end.

(** A text or a code part. *)
Definition is_literal (p : CommentDisplayPart) : bool := is_text p || is_code p.

(** No line feed in the text of the part, whatever its kind. *)
Definition no_newline (p : CommentDisplayPart) : Prop :=
  includes_nl (part_text p) = false.

End Vocabulary.

Section StoreVocabulary.
Context `{Collaborators}.
Import Store.

(** The object [deserializeDisplayParts] creates for a serialized part,
    before any deferred callback runs. *)
Definition initial_cell (part : JSONDisplayPart) : cell :=
  match part with
  | JText t => CPart (Text t)
  | JCode t => CPart (Code t)
  | JInlineTag tag text target ts =>
      CPart (InlineTag tag text
               (match target with
                | Some (JString s) => Some (TString s)
                | Some (JSymbolId o) => Some (TSymbolId (ReflectionSymbolId_new o))
                | Some (JNumber _) | None => None
                end) ts)
  | JRelativeLink text (JMedia n) => CPart (RelativeLink text (LNumber n))
  | JRelativeLink text (JReflection _) => CPlaceholder text JsNull
  end.

(** The graph-node identifier a serialized part refers to, if any. *)
Definition link_id (part : JSONDisplayPart) : option Z :=
  match part with
  | JInlineTag _ _ (Some (JNumber n)) _ => Some n
  | JRelativeLink _ (JReflection id) => Some id
  | _ => None
  end.

(** The [links] array after the objects [items] were created for [parts]. *)
Fixpoint links_of (items : list loc) (parts : list JSONDisplayPart)
  : list (Z * loc) :=
  match items, parts with
  | l :: items', part :: parts' =>
      match link_id part with
      | Some id => (id, l) :: links_of items' parts'
      | None => links_of items' parts'
      end
  | _, _ => []
  end.

(** What [de.defer] receives: nothing when [links] is empty. *)
Definition queue_of (links : list (Z * loc)) : list Deferred :=
  match links with [] => [] | _ => [links] end.

(** The node an old identifier resolves to. *)
Definition resolve_id (project : gmap Z Reflection) (oldIdToNewId : gmap Z Z)
    (oldId : Z) : option Reflection :=
  getReflectionById project (default (-1) (oldIdToNewId !! oldId)).

Definition warning_for (project : gmap Z Reflection) (oldIdToNewId : gmap Z Z)
    (oldId : Z) : list LogMessage :=
  match resolve_id project oldIdToNewId oldId with
  | Some _ => []
  | None =>
      [serialized_project_referenced_0_not_part_of_project
         (Number_toString oldId)]
  end.

(** The warnings a list of links gives rise to, in order. *)
Definition warnings_of (project : gmap Z Reflection) (oldIdToNewId : gmap Z Z)
    (links : list (Z * loc)) : list LogMessage :=
  flat_map (fun link => warning_for project oldIdToNewId link.1) links.

(** One warning for each part of the list whose identifier does not
    resolve, in the order of the parts. *)
Definition dangling_warnings (project : gmap Z Reflection)
    (oldIdToNewId : gmap Z Z) (parts : list JSONDisplayPart)
  : list LogMessage :=
  flat_map (fun part =>
              match link_id part with
              | Some id => warning_for project oldIdToNewId id
              | None => []
              end) parts.

(** All links queued in the session. *)
Definition pending (s : state) : list (Z * loc) := concat (deferred s).

(** An object whose [target] a deferred callback can assign. *)
Definition linkable (c : cell) : Prop := is_Some (set_target c None).

(** The queued links point to distinct, existing part objects. *)
Definition links_inv (s : state) : Prop :=
  NoDup ((pending s).*2) /\
  forall id l, (id, l) ∈ pending s ->
               exists c, heap s !! l = Some c /\ linkable c.

(** [l] holds the object created for [part], queued for resolution exactly
    when [part] refers to a graph node. *)
Definition staged (s : state) (l : loc) (part : JSONDisplayPart) : Prop :=
  heap s !! l = Some (initial_cell part) /\
  forall id, (id, l) ∈ pending s <-> link_id part = Some id.

(** A display-part object. *)
Definition is_part_cell (c : cell) : Prop :=
  match c with
  | CPart _ | CPlaceholder _ _ => True
  | _ => False
  end.

(** [t] holds the tag rebuilt from [jt], its content staged. *)
Definition staged_tag (s : state) (t : loc) (jt : JSONCommentTag) : Prop :=
  exists content citems,
    heap s !! t = Some (CTag (j_tag jt) (j_name jt) content) /\
    heap s !! content = Some (CArray citems) /\
    Forall2 (staged s) citems (j_content jt).

(** [c] holds the comment rebuilt from [obj], its parts staged. *)
Definition staged_comment (s : state) (c : loc) (obj : JSONComment)
    (sp : option jsstring) (di : option Z) : Prop :=
  exists sm b m sitems tags,
    heap s !! c = Some (CComment sm b m (j_label obj) sp di) /\
    heap s !! sm = Some (CArray sitems) /\
    Forall2 (staged s) sitems (j_summary obj) /\
    heap s !! b = Some (CArray tags) /\
    Forall2 (staged_tag s) tags (default [] (j_blockTags obj)) /\
    heap s !! m = Some (CSet (Set_new (default [] (j_modifierTags obj)))).

(** Every queued identifier, respectively every identifier the parts refer
    to, satisfies [Q]. *)
Definition pending_ids_in (Q : Z -> Prop) (s : state) : Prop :=
  forall id l, (id, l) ∈ pending s -> Q id.

Definition part_ids_in (Q : Z -> Prop) (parts : list JSONDisplayPart) : Prop :=
  forall part id, part ∈ parts -> link_id part = Some id -> Q id.

(** The object created for [part] once the callbacks have run. *)
Definition final_cell (project : gmap Z Reflection) (oldIdToNewId : gmap Z Z)
    (part : JSONDisplayPart) : option cell :=
  match link_id part with
  | Some id => set_target (initial_cell part) (resolve_id project oldIdToNewId id)
  | None => Some (initial_cell part)
  end.

(** The store grows: old objects are kept, new links point to new objects. *)
Definition grows (s s' : state) : Prop :=
  heap s ⊆ heap s' /\
  warnings s' = warnings s /\
  exists new,
    deferred s' = deferred s ++ new /\
    NoDup ((concat new).*2) /\
    forall id l, (id, l) ∈ concat new ->
                 (l ∉ dom (heap s)) /\
                 exists c, heap s' !! l = Some c /\ linkable c.

(** The graph nodes a part links to are nodes of the project, registered
    under their own identifier, and the remapping sends that identifier to
    itself. *)
Definition live_node (project : gmap Z Reflection) (oldIdToNewId : gmap Z Z)
    (r : Reflection) : Prop :=
  resolve_id project oldIdToNewId (Reflection_id r) = Some r.

Definition live_part (project : gmap Z Reflection) (oldIdToNewId : gmap Z Z)
    (p : CommentDisplayPart) : Prop :=
  match p with
  | InlineTag _ _ (Some (TReflection r)) _
  | RelativeLink _ (LReflection r) => live_node project oldIdToNewId r
  | _ => True
  end.

Definition live_comment (project : gmap Z Reflection) (oldIdToNewId : gmap Z Z)
    (c : Comment) : Prop :=
  Forall (live_part project oldIdToNewId) (summary c) /\
  Forall (fun t => Forall (live_part project oldIdToNewId) (tag_content t))
         (blockTags c).

(** Symbol identifiers are rebuilt from their payload. *)
Definition symbol_ids_round_trip : Prop :=
  forall s, ReflectionSymbolId_new (ReflectionSymbolId_toObject s) = s.

(** A comment without its two non-serialized fields. *)
Definition serialized_fields (c : Comment) : Comment :=
  {| summary := summary c; blockTags := blockTags c;
     modifierTags := modifierTags c; label := label c;
     sourcePath := None; discoveryId := None |}.

(** Relative to an earlier store [h0], the objects created since only refer
    to objects created since. *)
Definition new_closed (h0 h : gmap loc cell) : Prop :=
  h0 ⊆ h /\
  forall a b, a ∉ dom h0 -> points_to h a b -> b ∉ dom h0.

(** What [CommentTag.clone] copies of a tag: an empty name is dropped. *)
Definition cloned_tag (t : CommentTag) : CommentTag :=
  {| tag_tag := tag_tag t;
     tag_name := if name_truthy (tag_name t) then tag_name t else None;
     tag_content := tag_content t |}.

(** The parts without the first [@label] inline tag, and the text of that
    tag: what the constructor leaves in the summary and puts in [label]. *)
Fixpoint remove_label (ps : list CommentDisplayPart) : list CommentDisplayPart :=
  match ps with
  | [] => []
  | p :: ps' => if is_label_part p then ps' else p :: remove_label ps'
  end.

Definition first_label (ps : list CommentDisplayPart) : option jsstring :=
  part_text <$> List.find is_label_part ps.

(** What [Comment.clone] builds from a comment. *)
Definition cloned_comment (C : Comment) : Comment :=
  {| summary := remove_label (summary C);
     blockTags := cloned_tag <$> blockTags C;
     modifierTags := Set_new (modifierTags C);
     label := first_label (summary C);
     sourcePath := sourcePath C;
     discoveryId := discoveryId C |}.

End StoreVocabulary.

(** ** Sample stores *)

(** A summary array with two [@label] inline tags, an empty array and an
    empty set. *)
Definition two_labels : Store.state (H := sample_collaborators) :=
  {| Store.heap :=
       {[ 1%positive := Store.CPart (InlineTag (lit "@label") (lit "A") None None);
          2%positive := Store.CPart (InlineTag (lit "@label") (lit "B") None None);
          3%positive := Store.CArray [1%positive; 2%positive];
          4%positive := Store.CArray [];
          5%positive := Store.CSet [] ]};
     Store.deferred := [];
     Store.warnings := [] |}.

Definition empty_store : Store.state (H := sample_collaborators) :=
  {| Store.heap := ∅; Store.deferred := []; Store.warnings := [] |}.

(** A store with one new, empty comment. *)
Definition new_comment_store : Store.state (H := sample_collaborators) :=
  {| Store.heap :=
       {[ 1%positive := Store.CArray [];
          2%positive := Store.CArray [];
          3%positive := Store.CSet [];
          4%positive := Store.CComment 1%positive 2%positive 3%positive
                          None None None ]};
     Store.deferred := [];
     Store.warnings := [] |}.

(** A store with a comment (a summary of two parts, no block tag, one
    modifier tag) and the type expression [T[K]]. *)
Definition clone_store : Store.state (H := sample_collaborators) :=
  {| Store.heap :=
       {[ 1%positive := Store.CPart (Text (lit "a"));
          2%positive := Store.CPart (Code (lit "b"));
          3%positive := Store.CArray [1%positive; 2%positive];
          4%positive := Store.CArray [];
          5%positive := Store.CSet [lit "@beta"];
          6%positive := Store.CComment 3%positive 4%positive 5%positive
                          None (Some (lit "a.ts")) (Some 7);
          7%positive := Store.COtherType (H := sample_collaborators) (lit "T");
          8%positive := Store.COtherType (H := sample_collaborators) (lit "K");
          9%positive := Store.CIndexedAccess 7%positive 8%positive ]};
     Store.deferred := [];
     Store.warnings := [] |}.

Definition T_of_K : SomeType (H := sample_collaborators) :=
  IndexedAccessType (Other (H := sample_collaborators) (lit "T"))
                    (Other (H := sample_collaborators) (lit "K")).

Definition clone_store_comment : Comment (H := sample_collaborators) :=
  {| summary := [Text (lit "a"); Code (lit "b")];
     blockTags := [];
     modifierTags := [lit "@beta"];
     label := None;
     sourcePath := Some (lit "a.ts");
     discoveryId := Some 7 |}.

(** A project with one node, and the remapping that keeps its identifier. *)
Definition sample_node : Reflection (Collaborators := sample_collaborators) :=
  (3, lit "Foo").
Definition sample_project : gmap Z (Reflection (Collaborators := sample_collaborators)) :=
  {[ 3 := sample_node ]}.
Definition sample_remap : gmap Z Z := {[ 3 := 3 ]}.

(** A comment with a link and a relative link to the node, one block tag,
    one modifier tag and a label. *)
Definition sample_comment : Comment (H := sample_collaborators) :=
  {| summary :=
       [Text (lit "see ");
        InlineTag (lit "@link") (lit "Foo") (Some (TReflection sample_node)) None;
        RelativeLink (lit "./foo.md") (LReflection sample_node)];
     blockTags :=
       [{| tag_tag := lit "@param"; tag_name := Some (lit "x");
           tag_content := [Text (lit "the x"); Code (lit "x")] |}];
     modifierTags := [lit "@beta"];
     label := Some (lit "L");
     sourcePath := Some (lit "a.ts");
     discoveryId := Some 7 |}.

(** A serialized comment whose summary has a [@label] inline tag and whose
    [label] field is absent. *)
Definition labelled_object : JSONComment (H := sample_collaborators) :=
  {| j_summary := [JText (lit "a"); JInlineTag (lit "@label") (lit "L") None None];
     j_blockTags := None;
     j_modifierTags := None;
     j_label := None |}.

(** A store with a block tag whose name is the empty string. *)
Definition tag_store : Store.state (H := sample_collaborators) :=
  {| Store.heap :=
       {[ 1%positive := Store.CPart (Text (lit "the x"));
          2%positive := Store.CArray [1%positive];
          3%positive := Store.CTag (lit "@param") (Some []) 2%positive ]};
     Store.deferred := [];
     Store.warnings := [] |}.

Definition tag_store_tag : CommentTag (H := sample_collaborators) :=
  {| tag_tag := lit "@param"; tag_name := Some [];
     tag_content := [Text (lit "the x")] |}.

(** A serialized block tag with another tag name and no name. *)
Definition returns_object : JSONCommentTag (H := sample_collaborators) :=
  {| j_tag := lit "@returns"; j_name := None; j_content := [JText (lit "y")] |}.

(** A store with a comment that has a label and no [@label] inline tag in
    its summary. *)
Definition labelled_store : Store.state (H := sample_collaborators) :=
  {| Store.heap :=
       {[ 1%positive := Store.CPart (Text (lit "a"));
          2%positive := Store.CArray [1%positive];
          3%positive := Store.CArray [];
          4%positive := Store.CSet [lit "@beta"];
          5%positive := Store.CComment 2%positive 3%positive 4%positive
                          (Some (lit "L")) None (Some 7) ]};
     Store.deferred := [];
     Store.warnings := [] |}.

Definition labelled_store_comment : Comment (H := sample_collaborators) :=
  {| summary := [Text (lit "a")];
     blockTags := [];
     modifierTags := [lit "@beta"];
     label := Some (lit "L");
     sourcePath := None;
     discoveryId := Some 7 |}.

(** A comment made of two empty text parts. *)
Definition blank_comment : Comment (H := sample_collaborators) :=
  {| summary := [Text []; Text []];
     blockTags := [];
     modifierTags := [lit "@internal"];
     label := None;
     sourcePath := None;
     discoveryId := None |}.

(** * Properties *)

(** ** Markdown rendering *)

Section Markdown.
Context `{Collaborators}.

Lemma markdown_foldl urlTo useHtml parts acc :
  foldl (fun result part =>
           match markdown_part urlTo useHtml part with
           | Some s => result ++ [s]
           | None => result
           end) acc parts
  = acc ++ omap (markdown_part urlTo useHtml) parts.
Proof.
  revert acc. induction parts as [|p parts IH]; intros acc; simpl.
  - by rewrite app_nil_r.
  - rewrite IH. destruct (markdown_part urlTo useHtml p); simpl; [|done].
    by rewrite <- app_assoc.
Qed.

Lemma displayPartsToMarkdown_concat parts urlTo useHtml :
  displayPartsToMarkdown parts urlTo useHtml
  = concat (rendered urlTo useHtml <$> parts).
Proof.
  unfold displayPartsToMarkdown. rewrite markdown_foldl, app_nil_l.
  induction parts as [|p parts IH]; [done|].
  rewrite fmap_cons. cbn [concat]. rewrite <- IH. unfold rendered.
  cbn [omap list_omap].
  by destruct (markdown_part urlTo useHtml p).
Qed.

Lemma displayPartsToMarkdown_middle pre part post urlTo useHtml :
  displayPartsToMarkdown (pre ++ part :: post) urlTo useHtml
  = displayPartsToMarkdown pre urlTo useHtml
    ++ rendered urlTo useHtml part
    ++ displayPartsToMarkdown post urlTo useHtml.
Proof.
  rewrite !displayPartsToMarkdown_concat, fmap_app, concat_app. by simpl.
Qed.

Lemma truthy_target_of_url urlTo tg u :
  link_url urlTo tg = Some u -> truthy u = true ->
  target_truthy (Some tg) = true.
Proof. destruct tg; simpl; intros; simplify_eq; done. Qed.

Lemma rendered_linkcode urlTo useHtml text tg ts u :
  link_url urlTo tg = Some u -> truthy u = true ->
  rendered urlTo useHtml (InlineTag (lit "@linkcode") text (Some tg) ts)
  = if useHtml
    then lit "<a href=" ++ [34%N] ++ u ++ [34%N] ++ class_attr tg ++ lit ">"
         ++ (lit "<code>" ++ text ++ lit "</code>") ++ lit "</a>"
    else lit "[" ++ (lit "`" ++ text ++ lit "`") ++ lit "](" ++ u ++ lit ")".
Proof.
  intros Hu Ht. pose proof (truthy_target_of_url _ _ _ Hu Ht) as Htt.
  unfold rendered, markdown_part.
  replace (str_eqb (lit "@linkcode") (lit "@label")) with false by done.
  replace (str_eqb (lit "@linkcode") (lit "@inheritdoc")) with false by done.
  replace (str_eqb (lit "@linkcode") (lit "@link")) with false by done.
  replace (str_eqb (lit "@linkcode") (lit "@linkcode")) with true by done.
  cbn [orb]. rewrite Htt. cbn [default]. unfold markdown_link.
  replace (str_eqb (lit "@linkcode") (lit "@linkcode")) with true by done.
  destruct tg; simpl in Hu; simplify_eq; rewrite ?Ht; try done.
Qed.

Lemma rendered_link_plain urlTo useHtml tag text tg ts u :
  tag = lit "@link" \/ tag = lit "@linkplain" ->
  link_url urlTo tg = Some u -> truthy u = true ->
  rendered urlTo useHtml (InlineTag tag text (Some tg) ts)
  = if useHtml
    then lit "<a href=" ++ [34%N] ++ u ++ [34%N] ++ class_attr tg ++ lit ">"
         ++ text ++ lit "</a>"
    else lit "[" ++ text ++ lit "](" ++ u ++ lit ")".
Proof.
  intros Htag Hu Ht. pose proof (truthy_target_of_url _ _ _ Hu Ht) as Htt.
  unfold rendered, markdown_part.
  destruct Htag as [-> | ->].
  - replace (str_eqb (lit "@link") (lit "@label")) with false by done.
    replace (str_eqb (lit "@link") (lit "@inheritdoc")) with false by done.
    replace (str_eqb (lit "@link") (lit "@link")) with true by done.
    cbn [orb]. rewrite Htt. cbn [default]. unfold markdown_link.
    replace (str_eqb (lit "@link") (lit "@linkcode")) with false by done.
    destruct tg; simpl in Hu; simplify_eq; rewrite ?Ht; try done.
  - replace (str_eqb (lit "@linkplain") (lit "@label")) with false by done.
    replace (str_eqb (lit "@linkplain") (lit "@inheritdoc")) with false by done.
    replace (str_eqb (lit "@linkplain") (lit "@link")) with false by done.
    replace (str_eqb (lit "@linkplain") (lit "@linkcode")) with false by done.
    replace (str_eqb (lit "@linkplain") (lit "@linkplain")) with true by done.
    cbn [orb]. rewrite Htt. cbn [default]. unfold markdown_link.
    replace (str_eqb (lit "@linkplain") (lit "@linkcode")) with false by done.
    destruct tg; simpl in Hu; simplify_eq; rewrite ?Ht; try done.
Qed.

Lemma rendered_no_target urlTo useHtml tag text ts :
  tag = lit "@link" \/ tag = lit "@linkcode" \/ tag = lit "@linkplain" ->
  rendered urlTo useHtml (InlineTag tag text None ts) = text.
Proof. intros [-> | [-> | ->]]; done. Qed.

Lemma rendered_not_rendered urlTo useHtml tag text target ts :
  tag = lit "@label" \/ tag = lit "@inheritdoc" ->
  rendered urlTo useHtml (InlineTag tag text target ts) = [].
Proof. intros [-> | ->]; done. Qed.

Lemma rendered_unknown urlTo useHtml tag text target ts :
  tag <> lit "@label" -> tag <> lit "@inheritdoc" -> tag <> lit "@link" ->
  tag <> lit "@linkcode" -> tag <> lit "@linkplain" ->
  rendered urlTo useHtml (InlineTag tag text target ts)
  = lit "{" ++ tag ++ lit " " ++ text ++ lit "}".
Proof.
  intros. unfold rendered, markdown_part, str_eqb.
  rewrite !bool_decide_eq_false_2 by done. done.
Qed.

End Markdown.

Section MarkdownClaim.
Context `{Collaborators}.

(** C7.  What [displayPartsToMarkdown] emits for an inline tag, wherever
    the part stands in the list: a [@linkcode] whose target resolves to a
    URL is a link around the text in code formatting, a [@link] or
    [@linkplain] a link around the bare text; a link tag without target is
    its raw text; [@label] and [@inheritdoc] emit nothing; any other tag
    is emitted verbatim as [{@tag text}]. *)
Theorem displayPartsToMarkdown_inline_tag
    (pre post : list CommentDisplayPart) (urlTo : Reflection -> jsstring)
    (useHtml : bool) (tag text : jsstring) (target : option InlineTarget)
    (ts : option jsstring) :
  let renders s :=
    displayPartsToMarkdown (pre ++ InlineTag tag text target ts :: post)
      urlTo useHtml
    = displayPartsToMarkdown pre urlTo useHtml ++ s
      ++ displayPartsToMarkdown post urlTo useHtml in
  (forall tg u,
      target = Some tg -> link_url urlTo tg = Some u -> truthy u = true ->
      (tag = lit "@linkcode" ->
       renders
         (if useHtml
          then lit "<a href=" ++ [34%N] ++ u ++ [34%N] ++ class_attr tg
               ++ lit ">" ++ (lit "<code>" ++ text ++ lit "</code>")
               ++ lit "</a>"
          else lit "[" ++ (lit "`" ++ text ++ lit "`") ++ lit "](" ++ u
               ++ lit ")")) /\
      (tag = lit "@link" \/ tag = lit "@linkplain" ->
       renders
         (if useHtml
          then lit "<a href=" ++ [34%N] ++ u ++ [34%N] ++ class_attr tg
               ++ lit ">" ++ text ++ lit "</a>"
          else lit "[" ++ text ++ lit "](" ++ u ++ lit ")"))) /\
  (target = None ->
   tag = lit "@link" \/ tag = lit "@linkcode" \/ tag = lit "@linkplain" ->
   renders text) /\
  (tag = lit "@label" \/ tag = lit "@inheritdoc" -> renders []) /\
  (tag <> lit "@label" -> tag <> lit "@inheritdoc" -> tag <> lit "@link" ->
   tag <> lit "@linkcode" -> tag <> lit "@linkplain" ->
   renders (lit "{" ++ tag ++ lit " " ++ text ++ lit "}")).
Proof.
  intros renders. subst renders. cbv beta.
  rewrite displayPartsToMarkdown_middle.
  split; [|split; [|split]].
  - intros tg u -> Hu Ht. split.
    + intros ->. by rewrite (rendered_linkcode _ _ _ _ _ u).
    + intros Htag. by rewrite (rendered_link_plain _ _ _ _ _ _ u).
  - intros -> Htag. by rewrite rendered_no_target.
  - intros Htag. by rewrite rendered_not_rendered.
  - intros. by rewrite rendered_unknown.
Qed.

End MarkdownClaim.


(** ** Strings and [findIndex] *)

Section StringFacts.

Lemma trimStart_head s c : head (trimStart s) = Some c -> is_ws c = false.
Proof.
  induction s as [|d s IH]; simpl; [done|].
  destruct (is_ws d) eqn:E; [done|]. simpl. by intros [= <-].
Qed.

Lemma trimStart_snoc l c :
  is_ws c = false -> exists l', trimStart (l ++ [c]) = l' ++ [c].
Proof.
  intros Hc. induction l as [|d l IH]; simpl.
  - rewrite Hc. by exists [].
  - destruct (is_ws d); [done|]. by exists (d :: l).
Qed.

Lemma trimEnd_last s c : last (trimEnd s) = Some c -> is_ws c = false.
Proof.
  unfold trimEnd. rewrite last_reverse. apply trimStart_head.
Qed.

Lemma trimEnd_head_inv s c : head (trimEnd s) = Some c -> head s = Some c.
Proof.
  unfold trimEnd. rewrite head_reverse.
  generalize (reverse_involutive s). generalize (reverse s) as r.
  intros r <-. rewrite head_reverse.
  induction r as [|d r IH]; simpl; [done|].
  destruct (is_ws d).
  - intros Hl. rewrite last_cons. by rewrite (IH Hl).
  - done.
Qed.

Lemma trim_trimmed s : trimmed (trim s).
Proof.
  unfold trim. split; intros c Hc.
  - apply trimEnd_head_inv in Hc. by apply trimStart_head in Hc.
  - by apply trimEnd_last in Hc.
Qed.

Lemma includes_nl_cons c s :
  includes_nl (c :: s) = N.eqb c NL || includes_nl s.
Proof. unfold includes_nl. cbn [existsb]. by rewrite (N.eqb_sym NL c). Qed.

Lemma indexOf_nl_cons c s :
  indexOf_nl (c :: s)
  = if N.eqb c NL then 0
    else if indexOf_nl s =? -1 then -1 else indexOf_nl s + 1.
Proof. done. Qed.

Lemma indexOf_nl_none s : includes_nl s = false -> indexOf_nl s = -1.
Proof.
  induction s as [|c s IH]; [done|].
  rewrite includes_nl_cons, indexOf_nl_cons.
  destruct (N.eqb c NL); [done|]. intros Hs. by rewrite (IH Hs).
Qed.

Lemma indexOf_nl_first a b :
  includes_nl a = false -> indexOf_nl (a ++ NL :: b) = Z.of_nat (length a).
Proof.
  induction a as [|c a IH].
  - intros _. by rewrite app_nil_l, indexOf_nl_cons, N.eqb_refl.
  - rewrite includes_nl_cons, <- app_comm_cons, indexOf_nl_cons.
    destruct (N.eqb c NL); [done|]. intros Ha. rewrite (IH Ha).
    rewrite length_cons.
    destruct (Z.eqb_spec (Z.of_nat (length a)) (-1)); lia.
Qed.

(** A string that includes a line feed splits at its first one. *)
Lemma includes_nl_split s :
  includes_nl s = true ->
  exists a b, s = a ++ NL :: b /\ includes_nl a = false.
Proof.
  induction s as [|c s IH]; [done|]. rewrite includes_nl_cons.
  destruct (N.eqb_spec c NL) as [->|Hne].
  - intros _. by exists [], s.
  - intros Hs. destruct (IH Hs) as (a & b & -> & Ha).
    exists (c :: a), b. split; [done|]. rewrite includes_nl_cons, Ha.
    by destruct (N.eqb_spec c NL).
Qed.

Lemma includes_nl_truthy s : includes_nl s = true -> truthy s = true.
Proof. by destruct s. Qed.

Context {A : Type} (f : A -> bool).

Lemma findIndex_none (l : list A) :
  Forall (fun x => f x = false) l -> findIndex f l = -1.
Proof.
  induction 1 as [|x l Hx _ IH]; simpl; [done|]. by rewrite Hx, IH.
Qed.

Lemma findIndex_first (pre post : list A) x :
  Forall (fun y => f y = false) pre -> f x = true ->
  findIndex f (pre ++ x :: post) = Z.of_nat (length pre).
Proof.
  intros Hpre Hx. induction Hpre as [|y pre Hy _ IH]; simpl.
  - by rewrite Hx.
  - rewrite Hy, IH.
    destruct (Z.eqb_spec (Z.of_nat (length pre)) (-1)); lia.
Qed.

Lemma findIndex_spec (l : list A) :
  (findIndex f l = -1 /\ Forall (fun x => f x = false) l) \/
  (exists pre x post,
      l = pre ++ x :: post /\ Forall (fun y => f y = false) pre /\
      f x = true).
Proof.
  induction l as [|y l IH]; simpl; [by left|].
  destruct (f y) eqn:Hy.
  - right. by exists [], y, l.
  - destruct IH as [[-> Hall] | (pre & x & post & -> & Hpre & Hx)].
    + left. split; [done|]. by constructor.
    + right. exists (y :: pre), x, post. split; [done|]. split; [|done].
      by constructor.
Qed.

End StringFacts.

(** ** Header and body *)

Section Split.
Context `{Collaborators}.

Lemma combine_foldl acc parts :
  foldl (fun result item => result ++ combine_item item) acc parts
  = acc ++ combineDisplayParts parts.
Proof.
  unfold combineDisplayParts. revert acc.
  induction parts as [|p parts IH]; intros acc; simpl.
  - by rewrite app_nil_r.
  - rewrite IH, (IH (combine_item p)). by rewrite app_assoc.
Qed.

Lemma combineDisplayParts_app l1 l2 :
  combineDisplayParts (l1 ++ l2)
  = combineDisplayParts l1 ++ combineDisplayParts l2.
Proof.
  unfold combineDisplayParts at 1. rewrite foldl_app.
  fold (combineDisplayParts l1). by rewrite combine_foldl.
Qed.

Lemma cloneDisplayParts_id parts : cloneDisplayParts parts = parts.
Proof. apply list_fmap_id. Qed.

Lemma no_newline_has_newline p : no_newline p -> has_newline p = false.
Proof. unfold no_newline. by destruct p. Qed.

(** The index arithmetic of the function, on natural numbers. *)
Lemma index_found (n : nat) : (Z.of_nat n =? -1) = false.
Proof. apply Z.eqb_neq. lia. Qed.

(** The first part with a line feed is a code part with a part before it. *)
Lemma split_before_code pre q t post :
  Forall (fun p => has_newline p = false) (pre ++ [q]) ->
  includes_nl t = true ->
  splitPartsToHeaderAndBody ((pre ++ [q]) ++ Code t :: post)
  = let split := indexOf_nl (part_text q) in
    if split =? -1
    then Some (trim (combineDisplayParts pre ++ part_text q), Code t :: post)
    else
      let b := set_text (substring_from (split + 1) (part_text q)) q in
      Some (trim (combineDisplayParts pre ++ substring 0 split (part_text q)),
            if truthy (part_text b) then b :: Code t :: post
            else Code t :: post).
Proof.
  intros Hpre Ht. unfold splitPartsToHeaderAndBody.
  rewrite (findIndex_first _ _ _ _ Hpre) by done.
  rewrite index_found, length_app, length_cons, length_nil.
  replace (Z.to_nat (Z.of_nat (length pre + 1))) with (S (length pre)) by lia.
  rewrite <- (app_assoc pre [q]). cbn [app].
  set (parts := pre ++ q :: Code t :: post).
  assert (Hq : parts !! length pre = Some q) by (by apply list_lookup_middle).
  assert (Hc : parts !! S (length pre) = Some (Code t)).
  { subst parts. rewrite (lookup_app_r pre) by lia.
    by replace (S (length pre) - length pre)%nat with 1%nat by lia. }
  assert (Htake : take (length pre) parts = pre) by apply take_app_length.
  assert (Hd1 : drop (length pre) parts = q :: Code t :: post)
    by apply drop_app_length.
  assert (Hd2 : drop (S (length pre)) parts = Code t :: post).
  { subst parts. rewrite drop_app_ge by lia.
    by replace (S (length pre) - length pre)%nat with 1%nat by lia. }
  rewrite Hc. cbn [mbind option_bind is_code].
  replace (Z.of_nat (length pre + 1) - 1) with (Z.of_nat (length pre)) by lia.
  rewrite index_found, Nat2Z.id, Hq. cbn [mbind option_bind].
  replace (Z.to_nat (Z.of_nat (length pre) + 1)) with (S (length pre)) by lia.
  rewrite !cloneDisplayParts_id, Htake, Hd1, Hd2. cbv zeta.
  destruct (indexOf_nl (part_text q) =? -1); cbn [mbind option_bind].
  - cbn [part_text]. by rewrite (includes_nl_truthy _ Ht).
  - done.
Qed.

(** The first part with a line feed is a code part and stands first. *)
Lemma split_code_first t post :
  includes_nl t = true ->
  splitPartsToHeaderAndBody (Code t :: post) = Some ([], Code t :: post).
Proof.
  intros Ht. unfold splitPartsToHeaderAndBody.
  rewrite (findIndex_first _ [] post (Code t)) by done.
  rewrite !cloneDisplayParts_id. by cbn.
Qed.

(** The first part with a line feed is a text part. *)
Lemma split_at_text pre a b post :
  Forall (fun p => has_newline p = false) pre ->
  includes_nl a = false ->
  splitPartsToHeaderAndBody (pre ++ Text (a ++ NL :: b) :: post)
  = Some (trim (combineDisplayParts pre ++ a),
          if truthy b then Text b :: post else post).
Proof.
  intros Hpre Ha. unfold splitPartsToHeaderAndBody.
  assert (Hnl : has_newline (Text (a ++ NL :: b)) = true).
  { cbn. unfold includes_nl. rewrite existsb_app. cbn.
    apply orb_true_r. }
  rewrite (findIndex_first _ _ _ _ Hpre Hnl).
  rewrite index_found, Nat2Z.id, list_lookup_middle by done.
  cbn [mbind option_bind is_code].
  rewrite index_found, !Nat2Z.id, list_lookup_middle by done.
  cbn [mbind option_bind part_text].
  rewrite take_app_length, (indexOf_nl_first _ _ Ha), index_found.
  rewrite cloneDisplayParts_id, drop_app_length.
  cbn [mbind option_bind part_text set_text].
  unfold substring, substring_from.
  replace (Z.to_nat (Z.of_nat (length a) + 1)) with (S (length a)) by lia.
  rewrite Nat2Z.id. change (Z.to_nat 0) with 0%nat.
  rewrite drop_0, Nat.sub_0_r, take_app_length.
  replace (a ++ NL :: b) with ((a ++ [NL]) ++ b) by by rewrite <- app_assoc.
  replace (S (length a)) with (length (a ++ [NL]))
    by (rewrite length_app; simpl; lia).
  rewrite drop_app_length. by destruct b.
Qed.

End Split.

Section SplitClaims.
Context `{Collaborators}.

(** Whenever a text or code part has a line feed the function returns, and
    its header is either empty or the result of [trim]. *)
Lemma split_with_newline parts :
  Exists (fun p => has_newline p = true) parts ->
  exists header body,
    splitPartsToHeaderAndBody parts = Some (header, body) /\
    (header = [] \/ exists s, header = trim s).
Proof.
  intros Hex.
  destruct (findIndex_spec has_newline parts)
    as [[_ Hall] | (pre & x & post & -> & Hpre & Hx)].
  { exfalso. apply Exists_exists in Hex as (p & Hin & Hp).
    rewrite Forall_forall in Hall. specialize (Hall p Hin). congruence. }
  destruct x as [t | t | |]; try discriminate Hx.
  - destruct (includes_nl_split t Hx) as (a & b & -> & Ha).
    rewrite (split_at_text _ _ _ _ Hpre Ha). eauto 6.
  - destruct pre as [|p0 pre0] using rev_ind.
    + rewrite app_nil_l, (split_code_first _ _ Hx). eauto.
    + rewrite (split_before_code _ _ _ _ Hpre Hx). cbv zeta.
      destruct (_ =? -1); eauto 6.
Qed.

Lemma trimmed_nil : trimmed [].
Proof. by split. Qed.

(** C4.  When the first part whose text has a line feed is a code part,
    the code part is not divided: with no part before it the header is
    empty and the body is the whole sequence; otherwise the header ends
    with the text of the part before it and the body starts with the whole
    code part. *)
Theorem split_code_fence_protection
    (pre : list CommentDisplayPart) (t : jsstring)
    (post : list CommentDisplayPart) :
  Forall no_newline pre ->
  includes_nl t = true ->
  (pre = [] ->
   splitPartsToHeaderAndBody (pre ++ Code t :: post)
   = Some ([], pre ++ Code t :: post)) /\
  (forall pre' q,
      pre = pre' ++ [q] ->
      splitPartsToHeaderAndBody (pre ++ Code t :: post)
      = Some (trim (combineDisplayParts pre' ++ part_text q),
              Code t :: post)).
Proof.
  intros Hpre Ht. split.
  - intros ->. by apply split_code_first.
  - intros pre' q ->.
    assert (Hq : no_newline q).
    { rewrite Forall_app, Forall_singleton in Hpre. tauto. }
    rewrite split_before_code; [|by eapply Forall_impl;
      [exact Hpre | exact no_newline_has_newline] | done].
    cbv zeta. by rewrite (indexOf_nl_none _ Hq).
Qed.

Lemma split_without_newline parts :
  Forall (fun p => has_newline p = false) parts ->
  splitPartsToHeaderAndBody parts = Some (combineDisplayParts parts, []).
Proof.
  intros Hall. unfold splitPartsToHeaderAndBody.
  by rewrite (findIndex_none _ _ Hall).
Qed.

(** C6, as amended.  One text part with one line feed splits at it, and so
    does a text part that is the first part with a line feed: the header is
    the text before the line feed, the body what follows it; a list without
    line feed in its text and code parts gives the combined text as header
    and an empty body; and whenever some text or code part has a line feed
    the function returns a header without white space at either end. *)
Theorem split_header_body :
  splitPartsToHeaderAndBody [Text (lit "Line1" ++ NL :: lit "Line2")]
  = Some (lit "Line1", [Text (lit "Line2")]) /\
  (forall pre a b post,
      Forall (fun p => has_newline p = false) pre ->
      includes_nl a = false ->
      splitPartsToHeaderAndBody (pre ++ Text (a ++ NL :: b) :: post)
      = Some (trim (combineDisplayParts pre ++ a),
              if truthy b then Text b :: post else post)) /\
  (forall parts,
      Forall (fun p => has_newline p = false) parts ->
      splitPartsToHeaderAndBody parts = Some (combineDisplayParts parts, [])) /\
  (forall parts,
      Exists (fun p => has_newline p = true) parts ->
      exists header body,
        splitPartsToHeaderAndBody parts = Some (header, body) /\
        trimmed header).
Proof.
  split; [done|]. split; [apply split_at_text|]. split.
  - apply split_without_newline.
  - intros parts Hex.
    destruct (split_with_newline parts Hex) as (h & b & Hs & [-> | [s ->]]).
    + exists [], b. split; [done|]. apply trimmed_nil.
    + exists (trim s), b. split; [done|]. apply trim_trimmed.
Qed.

(** The function never throws. *)
Lemma split_total parts : is_Some (splitPartsToHeaderAndBody parts).
Proof.
  destruct (findIndex_spec has_newline parts)
    as [[_ Hall] | (pre & x & post & -> & Hpre & Hx)].
  - by rewrite (split_without_newline parts Hall).
  - destruct (split_with_newline (pre ++ x :: post)) as (h & b & -> & _);
      [|done].
    apply Exists_app. right. by constructor.
Qed.

(** C5.  [serializeDisplayParts] keeps the list's length and order and
    writes each target in its wire shape: a graph node as its identifier, a
    string as itself, a symbol identifier as its own payload, a media
    number as [{media: n}] and the node of a relative link as
    [{reflection: id}]. *)
Theorem serializeDisplayParts_targets (parts : list CommentDisplayPart) :
  exists out,
    serializeDisplayParts (Some parts) = Some out /\
    length out = length parts /\
    forall (i : nat) part,
      parts !! i = Some part ->
      exists j,
        out !! i = Some j /\
        (forall tag text r ts,
            part = InlineTag tag text (Some (TReflection r)) ts ->
            j = JInlineTag tag text (Some (JNumber (Reflection_id r))) ts) /\
        (forall tag text s ts,
            part = InlineTag tag text (Some (TString s)) ts ->
            j = JInlineTag tag text (Some (JString s)) ts) /\
        (forall tag text s ts,
            part = InlineTag tag text (Some (TSymbolId s)) ts ->
            j = JInlineTag tag text
                  (Some (JSymbolId (ReflectionSymbolId_toObject s))) ts) /\
        (forall text n,
            part = RelativeLink text (LNumber n) ->
            j = JRelativeLink text (JMedia n)) /\
        (forall text r,
            part = RelativeLink text (LReflection r) ->
            j = JRelativeLink text (JReflection (Reflection_id r))).
Proof.
  exists (serializeDisplayPart <$> parts). split; [done|].
  split; [apply length_fmap|].
  intros i part Hi. exists (serializeDisplayPart part).
  split; [by rewrite list_lookup_fmap, Hi|].
  repeat split; intros; by subst.
Qed.

(** C9.  [toString] of an indexed access is the text of the object type,
    an opening bracket, the text of the index type and a closing bracket;
    it is a function of the two children alone. *)
Theorem IndexedAccessType_toString (O I : SomeType) :
  Type_toString (IndexedAccessType O I)
  = Type_toString O ++ lit "[" ++ Type_toString I ++ lit "]" /\
  (forall O' I',
      Type_toString O' = Type_toString O ->
      Type_toString I' = Type_toString I ->
      Type_toString (IndexedAccessType O' I')
      = Type_toString (IndexedAccessType O I)).
Proof.
  split; [done|]. intros O' I' HO HI. cbn [Type_toString]. by rewrite HO, HI.
Qed.

End SplitClaims.


(** ** The store: basic facts *)

Section StoreFacts.
Context `{Collaborators}.
Import Store.

Lemma bind_eq {A B} (m : M A) (k : A -> M B) s a s1 :
  m s = Some (a, s1) -> bind m k s = k a s1.
Proof. unfold bind. by intros ->. Qed.

Lemma fresh_None (h : gmap loc cell) : h !! fresh (dom h) = None.
Proof. apply not_elem_of_dom, is_fresh. Qed.

Lemma alloc_subseteq (h : gmap loc cell) c : h ⊆ <[fresh (dom h) := c]> h.
Proof. apply insert_subseteq, fresh_None. Qed.

Lemma load_eq s l c : heap s !! l = Some c -> load l s = Some (c, s).
Proof. unfold load. by intros ->. Qed.

Lemma load_array_eq s l items :
  heap s !! l = Some (CArray items) -> load_array l s = Some (items, s).
Proof. intros Hl. unfold load_array. by rewrite (bind_eq _ _ _ _ _ (load_eq _ _ _ Hl)). Qed.

Lemma load_set_eq s l items :
  heap s !! l = Some (CSet items) -> load_set l s = Some (items, s).
Proof. intros Hl. unfold load_set. by rewrite (bind_eq _ _ _ _ _ (load_eq _ _ _ Hl)). Qed.

Lemma view_list_Forall2 {A} (f : loc -> option A) ls xs :
  view_list f ls = Some xs <-> Forall2 (fun l x => f l = Some x) ls xs.
Proof.
  revert xs. induction ls as [|l ls IH]; intros xs; simpl.
  - split; [by intros [= <-]; constructor | by inversion 1].
  - split.
    + destruct (f l) eqn:Hl; [|done].
      destruct (view_list f ls) eqn:Hls; [|done]. intros [= <-].
      constructor; [done|]. by apply IH.
    + inversion 1 as [|? x ? xs' Hl Hls]; subst. apply IH in Hls.
      by rewrite Hl, Hls.
Qed.

Lemma view_part_agree (h h' : gmap loc cell) l :
  h' !! l = h !! l -> view_part h' l = view_part h l.
Proof. unfold view_part. by intros ->. Qed.

Lemma view_list_ext {A} (f g : loc -> option A) ls :
  Forall (fun l => f l = g l) ls -> view_list f ls = view_list g ls.
Proof.
  induction 1 as [|l ls Hl _ IH]; simpl; [done|]. by rewrite Hl, IH.
Qed.

Lemma view_part_Some h l p : view_part h l = Some p -> h !! l = Some (CPart p).
Proof.
  unfold view_part. destruct (h !! l) as [[]|]; try done. by intros [= ->].
Qed.

Lemma view_parts_Some h s ps :
  view_parts h s = Some ps ->
  exists items,
    h !! s = Some (CArray items) /\
    Forall2 (fun l p => h !! l = Some (CPart p)) items ps.
Proof.
  unfold view_parts. destruct (h !! s) as [[]|]; try done.
  intros Hv. eexists; split; [done|].
  apply view_list_Forall2 in Hv.
  eapply Forall2_impl; [exact Hv|]. intros l p. apply view_part_Some.
Qed.

Lemma view_parts_intro h s items ps :
  h !! s = Some (CArray items) ->
  Forall2 (fun l p => h !! l = Some (CPart p)) items ps ->
  view_parts h s = Some ps.
Proof.
  intros Hs Hps. unfold view_parts. rewrite Hs. apply view_list_Forall2.
  eapply Forall2_impl; [exact Hps|]. intros l p Hl. unfold view_part.
  by rewrite Hl.
Qed.

(** [findIndex] over an array of parts finds the first label part. *)
Lemma findIndex_label h ipre il ipost pre p :
  Forall2 (fun l q => h !! l = Some (CPart q)) ipre pre ->
  Forall (fun q => is_label_part q = false) pre ->
  h !! il = Some (CPart p) -> is_label_part p = true ->
  findIndex (is_label_at h) (ipre ++ il :: ipost) = Z.of_nat (length ipre).
Proof.
  intros Hpre Hno Hil Hp. apply findIndex_first.
  - clear Hil Hp. induction Hpre as [|l q ls qs Hl _ IH]; [constructor|].
    inversion Hno; subst. constructor; [|by apply IH].
    unfold is_label_at. by rewrite Hl.
  - unfold is_label_at. by rewrite Hil.
Qed.

Lemma findIndex_no_label h items ps :
  Forall2 (fun l q => h !! l = Some (CPart q)) items ps ->
  Forall (fun q => is_label_part q = false) ps ->
  findIndex (is_label_at h) items = -1.
Proof.
  intros Hps Hno. apply findIndex_none.
  induction Hps as [|l q ls qs Hl _ IH]; [constructor|].
  inversion Hno; subst. constructor; [|by apply IH].
  unfold is_label_at. by rewrite Hl.
Qed.

End StoreFacts.

(** ** The constructor *)

Section Constructor.
Context `{Collaborators}.
Import Store.

Lemma extractLabelTag_found s0 c s b m l0 sp di ipre il ipost pre p :
  heap s0 !! c = Some (CComment s b m l0 sp di) ->
  heap s0 !! s = Some (CArray (ipre ++ il :: ipost)) ->
  Forall2 (fun l q => heap s0 !! l = Some (CPart q)) ipre pre ->
  Forall (fun q => is_label_part q = false) pre ->
  heap s0 !! il = Some (CPart p) -> is_label_part p = true ->
  extractLabelTag c s0
  = Some (tt, set_heap (fun h =>
                <[c := CComment s b m (Some (part_text p)) sp di]>
                  (<[s := CArray (ipre ++ ipost)]> h)) s0).
Proof.
  intros Hc Hs Hpre Hno Hil Hp. unfold extractLabelTag.
  rewrite (bind_eq _ _ _ _ _ (load_eq _ _ _ Hc)).
  rewrite (bind_eq _ _ _ _ _ (load_array_eq _ _ _ Hs)).
  unfold get_heap at 1. unfold bind at 1.
  rewrite (findIndex_label _ _ _ _ _ _ Hpre Hno Hil Hp).
  rewrite index_found, Nat2Z.id, list_lookup_middle by done.
  unfold store at 1. unfold bind at 1.
  assert (Hne : s <> il) by (intros ->; congruence).
  erewrite (bind_eq (load il)); last first.
  { apply load_eq. cbn. rewrite lookup_insert_ne by done. exact Hil. }
  unfold store. do 2 f_equal. unfold set_heap. cbn. f_equal.
  by rewrite delete_middle.
Qed.

Lemma extractLabelTag_absent s0 c s b m l0 sp di items ps :
  heap s0 !! c = Some (CComment s b m l0 sp di) ->
  heap s0 !! s = Some (CArray items) ->
  Forall2 (fun l q => heap s0 !! l = Some (CPart q)) items ps ->
  Forall (fun q => is_label_part q = false) ps ->
  extractLabelTag c s0 = Some (tt, s0).
Proof.
  intros Hc Hs Hps Hno. unfold extractLabelTag.
  rewrite (bind_eq _ _ _ _ _ (load_eq _ _ _ Hc)).
  rewrite (bind_eq _ _ _ _ _ (load_array_eq _ _ _ Hs)).
  unfold get_heap at 1. unfold bind at 1.
  by rewrite (findIndex_no_label _ _ _ Hps Hno).
Qed.

(** C3, as amended.  The constructor takes the first [@label] inline tag
    out of the summary and sets [label] to its text; the other parts stay,
    in order.  When the summary has one [@label] tag, none is left. *)
Theorem constructor_extracts_first_label
    (s0 : state) (s b m : loc) (pre post : list CommentDisplayPart)
    (text : jsstring) (target : option InlineTarget) (ts : option jsstring) :
  view_parts (heap s0) s
  = Some (pre ++ InlineTag (lit "@label") text target ts :: post) ->
  Forall (fun q => is_label_part q = false) pre ->
  exists c s1,
    new_Comment s b m s0 = Some (c, s1) /\
    heap s1 !! c = Some (CComment s b m (Some text) None None) /\
    view_parts (heap s1) s = Some (pre ++ post) /\
    (Forall (fun q => is_label_part q = false) post ->
     forall q, q ∈ pre ++ post -> is_label_part q = false).
Proof.
  intros Hv Hno.
  apply view_parts_Some in Hv as (items & Hs & Hitems).
  apply Forall2_app_inv_r in Hitems as (ipre & irest & Hpre & Hrest & ->).
  apply Forall2_cons_inv_r in Hrest as (il & ipost & Hil & Hpost & ->).
  set (c := fresh (dom (heap s0))).
  set (s0' := set_heap (insert c (CComment s b m None None None)) s0).
  assert (Hsub : heap s0 ⊆ heap s0') by apply alloc_subseteq.
  assert (Hx : extractLabelTag c s0' = Some (tt, set_heap (fun h =>
                <[c := CComment s b m (Some text) None None]>
                  (<[s := CArray (ipre ++ ipost)]> h)) s0')).
  { apply (extractLabelTag_found s0' c s b m None None None ipre il ipost pre
             (InlineTag (lit "@label") text target ts)).
    - apply lookup_insert_eq.
    - by eapply lookup_weaken.
    - eapply Forall2_impl; [exact Hpre|]. intros l q Hl.
      exact (lookup_weaken _ _ _ _ Hl Hsub).
    - done.
    - by eapply lookup_weaken.
    - done. }
  eexists c, _. split.
  { unfold new_Comment, alloc. unfold bind at 1. fold c. fold s0'.
    unfold bind. rewrite Hx. reflexivity. }
  cbn. split; [apply lookup_insert_eq|].
  assert (Hcs : c <> s).
  { intros E. pose proof (fresh_None (heap s0)) as Hf. fold c in Hf.
    rewrite E in Hf. congruence. }
  split.
  - eapply view_parts_intro.
    + rewrite lookup_insert_ne by done. apply lookup_insert_eq.
    + apply Forall2_app; eapply Forall2_impl; try eassumption.
      all: intros l q Hl; rewrite !lookup_insert_ne; [done|..].
      all: intros E; subst l; try congruence.
      all: pose proof (fresh_None (heap s0)) as Hf; fold c in Hf; congruence.
  - intros Hpost' q Hq. apply elem_of_app in Hq as [Hq|Hq].
    + rewrite Forall_forall in Hno. by apply Hno.
    + rewrite Forall_forall in Hpost'. by apply Hpost'.
Qed.

End Constructor.


(** ** Deserialization: what [deserializeDisplayParts] builds *)

Section Deserialize.
Context `{Collaborators}.
Import Store.

Lemma deserializeDisplayPart_eq links part s :
  deserializeDisplayPart links part s
  = let l := fresh (dom (heap s)) in
    Some ((l, links ++ links_of [l] [part]),
          set_heap (insert l (initial_cell part)) s).
Proof.
  destruct part as [t | t | tag text [[n | str | o]|] ts | text [n | id]];
    cbn; unfold bind, alloc, ret; cbn; rewrite ?app_nil_r; done.
Qed.

Lemma links_of_cons l items part parts :
  links_of (l :: items) (part :: parts)
  = links_of [l] [part] ++ links_of items parts.
Proof. cbn. by destruct (link_id part). Qed.

Lemma links_of_targets items parts id l :
  (id, l) ∈ links_of items parts ->
  exists i part,
    items !! i = Some l /\ parts !! i = Some part /\ link_id part = Some id.
Proof.
  revert parts. induction items as [|l0 items IH]; intros [|part parts] Hin;
    try by apply elem_of_nil in Hin.
  cbn in Hin. destruct (link_id part) as [id0|] eqn:Hid.
  - apply elem_of_cons in Hin as [[= -> ->] | Hin].
    + by exists 0%nat, part.
    + destruct (IH _ Hin) as (i & part' & ? & ? & ?). by exists (S i), part'.
  - destruct (IH _ Hin) as (i & part' & ? & ? & ?). by exists (S i), part'.
Qed.

Lemma links_of_elem items parts i l part id :
  items !! i = Some l -> parts !! i = Some part -> link_id part = Some id ->
  (id, l) ∈ links_of items parts.
Proof.
  revert parts i. induction items as [|l0 items IH]; intros [|p0 parts] [|i];
    try done; cbn.
  - intros [= ->] [= ->] ->. apply elem_of_cons. by left.
  - intros Hl Hp Hid. destruct (link_id p0).
    + apply elem_of_cons. right. by eapply IH.
    + by eapply IH.
Qed.

Lemma links_of_snd_sublist items parts :
  sublist (links_of items parts).*2 items.
Proof.
  revert parts. induction items as [|l items IH]; intros [|part parts]; cbn;
    try apply sublist_nil_l.
  destruct (link_id part); cbn.
  - by apply sublist_skip.
  - by apply sublist_cons.
Qed.

Lemma links_of_NoDup items parts :
  NoDup items -> NoDup (links_of items parts).*2.
Proof. intros Hnd. eapply sublist_NoDup; [done | apply links_of_snd_sublist]. Qed.

Lemma initial_cell_linkable part id :
  link_id part = Some id -> linkable (initial_cell part).
Proof.
  destruct part as [| | tag text [[]|] ts | text []]; try done;
    intros _; unfold linkable; cbn; eauto.
Qed.

(** The loop of [parts.map]: one new object for each part, in order. *)
Lemma deserialize_map_spec parts links s :
  exists items s',
    deserialize_map links parts s
    = Some ((items, links ++ links_of items parts), s') /\
    heap s ⊆ heap s' /\
    deferred s' = deferred s /\ warnings s' = warnings s /\
    Forall2 (fun l part => heap s' !! l = Some (initial_cell part)) items parts /\
    Forall (fun l => l ∉ dom (heap s)) items /\
    NoDup items.
Proof.
  revert links s. induction parts as [|part parts IH]; intros links s.
  - exists [], s. cbn. rewrite app_nil_r. repeat split; try done; constructor.
  - cbn [deserialize_map].
    set (l := fresh (dom (heap s))).
    set (s1 := set_heap (insert l (initial_cell part)) s).
    destruct (IH (links ++ links_of [l] [part]) s1)
      as (items & s' & Hmap & Hsub & Hdef & Hwarn & Hcells & Hfresh & Hnd).
    assert (Hsub1 : heap s ⊆ heap s1) by apply alloc_subseteq.
    assert (Hl1 : heap s1 !! l = Some (initial_cell part))
      by apply lookup_insert_eq.
    exists (l :: items), s'. split; [|repeat split].
    + unfold bind at 1. rewrite deserializeDisplayPart_eq. cbv zeta.
      fold l. fold s1. unfold bind at 1. rewrite Hmap. unfold ret.
      by rewrite (links_of_cons l items part parts), app_assoc.
    + by etrans.
    + done.
    + done.
    + constructor; [|done]. by eapply lookup_weaken.
    + constructor; [apply is_fresh|].
      eapply Forall_impl; [exact Hfresh|]. intros l' Hl' Hin. apply Hl'.
      by eapply subseteq_dom.
    + constructor; [|done]. intros Hin.
      rewrite Forall_forall in Hfresh. apply (Hfresh _ Hin).
      by eapply elem_of_dom_2.
Qed.

Lemma concat_queue_of links : concat (queue_of links) = links.
Proof. destruct links; cbn; by rewrite ?app_nil_r. Qed.

(** [deserializeDisplayParts]: a new array of new objects, and at most one
    new callback. *)
Lemma deserializeDisplayParts_spec parts s :
  exists arr items s',
    deserializeDisplayParts parts s = Some (arr, s') /\
    heap s ⊆ heap s' /\
    deferred s' = deferred s ++ queue_of (links_of items parts) /\
    warnings s' = warnings s /\
    heap s' !! arr = Some (CArray items) /\
    (arr ∉ dom (heap s)) /\
    Forall2 (fun l part => heap s' !! l = Some (initial_cell part)) items parts /\
    Forall (fun l => l ∉ dom (heap s)) items /\
    NoDup items.
Proof.
  destruct (deserialize_map_spec parts [] s)
    as (items & s1 & Hmap & Hsub & Hdef & Hwarn & Hcells & Hfresh & Hnd).
  rewrite app_nil_l in Hmap.
  set (arr := fresh (dom (heap s1))).
  set (s2 := set_heap (insert arr (CArray items)) s1).
  assert (Hsub2 : heap s1 ⊆ heap s2) by apply alloc_subseteq.
  set (links := links_of items parts) in *.
  set (s3 := {| heap := heap s2; deferred := deferred s2 ++ queue_of links;
                warnings := warnings s2 |}).
  exists arr, items, s3. split; [|repeat split].
  - unfold deserializeDisplayParts. unfold bind at 1. rewrite Hmap.
    unfold bind at 1, alloc at 1. fold arr. fold s2.
    unfold bind. destruct links as [|link links'] eqn:Hlinks.
    + cbn. unfold ret. do 2 f_equal. subst s3. destruct s2; cbn.
      by rewrite app_nil_r.
    + cbn [length]. rewrite Nat2Z.inj_succ.
      destruct (Z.ltb_spec 0 (Z.succ (Z.of_nat (length links')))); [|lia].
      reflexivity.
  - cbn. by etrans.
  - cbn. by rewrite Hdef.
  - done.
  - apply lookup_insert_eq.
  - intros Hin. apply (is_fresh (dom (heap s1))). by eapply subseteq_dom.
  - eapply Forall2_impl; [exact Hcells|]. intros l part Hl.
    exact (lookup_weaken _ _ _ _ Hl Hsub2).
  - done.
  - done.
Qed.

End Deserialize.

(** ** Deferred resolution *)

Section Resolution.
Context `{Collaborators}.
Import Store.
Context (project : gmap Z Reflection) (oldIdToNewId : gmap Z Z).

Lemma set_target_linkable c r :
  linkable c -> exists c', set_target c r = Some c' /\ linkable c'.
Proof.
  unfold linkable.
  destruct c as [[| | tag text tg ts | text tg] | text n | | | | | |];
    cbn; intros [? ?]; try done;
    destruct r; eexists; (split; [reflexivity|]); cbn; eauto.
Qed.

Lemma warn_target_eq (r : option Reflection) oldId s :
  r = resolve_id project oldIdToNewId oldId ->
  match r with
  | None =>
      warn (serialized_project_referenced_0_not_part_of_project
              (Number_toString oldId))
  | Some _ => ret tt
  end s
  = Some (tt, {| heap := heap s; deferred := deferred s;
                 warnings := warnings s
                             ++ warning_for project oldIdToNewId oldId |}).
Proof.
  intros ->. unfold warning_for.
  destruct (resolve_id project oldIdToNewId oldId); cbn; [|done].
  unfold ret. rewrite app_nil_r. by destruct s.
Qed.

(** The loop of one callback: every link is assigned, the other objects are
    left alone, and each unresolved link gives one warning. *)
Lemma resolve_links_spec links s :
  NoDup (links.*2) ->
  (forall id l, (id, l) ∈ links -> exists c, heap s !! l = Some c /\ linkable c) ->
  exists s',
    resolve_links project oldIdToNewId links s = Some (tt, s') /\
    deferred s' = deferred s /\
    warnings s' = warnings s ++ warnings_of project oldIdToNewId links /\
    (forall l, l ∉ links.*2 -> heap s' !! l = heap s !! l) /\
    (forall id l c, (id, l) ∈ links -> heap s !! l = Some c ->
                    heap s' !! l
                    = set_target c (resolve_id project oldIdToNewId id)).
Proof.
  revert s. induction links as [|[oldId part] links IH]; intros s Hnd Hok.
  - exists s. cbn. rewrite app_nil_r. repeat split; try done.
    intros id l c Hin. by apply elem_of_nil in Hin.
  - cbn in Hnd. apply NoDup_cons in Hnd as [Hpart Hnd].
    destruct (Hok oldId part) as (c & Hc & Hlink); [by left|].
    destruct (set_target_linkable c (resolve_id project oldIdToNewId oldId) Hlink)
      as (c' & Hc' & Hlink').
    set (s1 := {| heap := <[part := c']> (heap s); deferred := deferred s;
                  warnings := warnings s
                              ++ warning_for project oldIdToNewId oldId |}).
    destruct (IH s1 Hnd) as (s' & Hrun & Hdef & Hwarn & Hout & Hin).
    { intros id l Hl. destruct (Hok id l) as (d & Hd & Hdl); [by right|].
      exists d. split; [|done]. cbn. rewrite lookup_insert_ne; [done|].
      intros ->. apply Hpart. apply list_elem_of_fmap. by exists (id, l). }
    exists s'. split; [|repeat split].
    + cbn [resolve_links]. rewrite (bind_eq _ _ _ _ _ (load_eq _ _ _ Hc)).
      fold (resolve_id project oldIdToNewId oldId). rewrite Hc'.
      unfold store at 1. unfold bind at 1.
      unfold bind at 1. rewrite warn_target_eq by done. exact Hrun.
    + done.
    + rewrite Hwarn. cbn. by rewrite app_assoc.
    + intros l Hl. rewrite Hout.
      * cbn. rewrite lookup_insert_ne; [done|]. intros ->. apply Hl.
        cbn. by left.
      * intros Hl'. apply Hl. cbn. by right.
    + intros id l d Hl Hd. apply elem_of_cons in Hl as [[= -> ->] | Hl].
      * rewrite Hout by done. cbn. rewrite lookup_insert_eq. congruence.
      * assert (l <> part).
        { intros ->. apply Hpart. apply list_elem_of_fmap. by exists (id, part). }
        apply Hin; [done|]. cbn. by rewrite lookup_insert_ne.
Qed.

Lemma run_callbacks_spec cbs s :
  NoDup ((concat cbs).*2) ->
  (forall id l, (id, l) ∈ concat cbs ->
                exists c, heap s !! l = Some c /\ linkable c) ->
  exists s',
    run_callbacks project oldIdToNewId cbs s = Some (tt, s') /\
    deferred s' = deferred s /\
    warnings s' = warnings s ++ warnings_of project oldIdToNewId (concat cbs) /\
    (forall l, l ∉ (concat cbs).*2 -> heap s' !! l = heap s !! l) /\
    (forall id l c, (id, l) ∈ concat cbs -> heap s !! l = Some c ->
                    heap s' !! l
                    = set_target c (resolve_id project oldIdToNewId id)).
Proof.
  revert s. induction cbs as [|cb cbs IH]; intros s Hnd Hok.
  - exists s. cbn. rewrite app_nil_r. repeat split; try done.
    intros id l c Hin. by apply elem_of_nil in Hin.
  - cbn [concat] in *. rewrite fmap_app in Hnd.
    apply NoDup_app in Hnd as (Hnd1 & Hdisj & Hnd2).
    destruct (resolve_links_spec cb s Hnd1)
      as (s1 & Hrun1 & Hdef1 & Hwarn1 & Hout1 & Hin1).
    { intros id l Hl. apply (Hok id). apply elem_of_app. by left. }
    destruct (IH s1 Hnd2) as (s' & Hrun & Hdef & Hwarn & Hout & Hin).
    { intros id l Hl. destruct (Hok id l) as (c & Hc & Hlink).
      { apply elem_of_app. by right. }
      exists c. split; [|done]. rewrite Hout1; [done|].
      intros Hl1. apply (Hdisj l Hl1). apply list_elem_of_fmap.
      by exists (id, l). }
    exists s'. split; [|repeat split].
    + cbn [run_callbacks]. by rewrite (bind_eq _ _ _ _ _ Hrun1).
    + congruence.
    + rewrite Hwarn, Hwarn1. unfold warnings_of.
      by rewrite flat_map_app, app_assoc.
    + intros l Hl. rewrite fmap_app in Hl. rewrite Hout, Hout1; [done|..].
      * intros Hl'. apply Hl, elem_of_app. by left.
      * intros Hl'. apply Hl, elem_of_app. by right.
    + intros id l c Hl Hc. apply elem_of_app in Hl as [Hl | Hl].
      * rewrite Hout; [by apply Hin1|].
        intros Hl2. apply (Hdisj l); [|done]. apply list_elem_of_fmap.
        by exists (id, l).
      * apply Hin; [done|]. rewrite Hout1; [done|].
        intros Hl1. apply (Hdisj l Hl1). apply list_elem_of_fmap.
        by exists (id, l).
Qed.

(** The resolution engine on a session whose queued links point to distinct
    part objects. *)
Lemma runDeferred_spec s :
  links_inv s ->
  exists s',
    runDeferred project oldIdToNewId s = Some (tt, s') /\
    deferred s' = [] /\
    warnings s' = warnings s ++ warnings_of project oldIdToNewId (pending s) /\
    (forall l, l ∉ (pending s).*2 -> heap s' !! l = heap s !! l) /\
    (forall id l c, (id, l) ∈ pending s -> heap s !! l = Some c ->
                    heap s' !! l
                    = set_target c (resolve_id project oldIdToNewId id)).
Proof.
  intros [Hnd Hok]. unfold runDeferred.
  destruct (run_callbacks_spec (deferred s)
              {| heap := heap s; deferred := []; warnings := warnings s |}
              Hnd Hok) as (s' & Hrun & Hdef & Hwarn & Hout & Hin).
  by exists s'.
Qed.

(** An object that is not a display part is not touched by the callbacks. *)
Lemma not_linkable_not_pending s l c :
  links_inv s -> heap s !! l = Some c -> ~ linkable c -> l ∉ (pending s).*2.
Proof.
  intros [_ Hok] Hc Hnl Hin. apply list_elem_of_fmap in Hin as ([id l'] & -> & Hin).
  destruct (Hok _ _ Hin) as (c' & Hc' & Hlink). cbn in Hc. congruence.
Qed.

Lemma staged_final s s' l part :
  links_inv s -> staged s l part ->
  runDeferred project oldIdToNewId s = Some (tt, s') ->
  heap s' !! l = final_cell project oldIdToNewId part.
Proof.
  intros Hinv [Hcell Hq] Hrun.
  destruct (runDeferred_spec s Hinv) as (s'' & Hrun' & _ & _ & Hout & Hin).
  rewrite Hrun in Hrun'. injection Hrun' as <-.
  unfold final_cell. destruct (link_id part) as [id|] eqn:Hid.
  - apply (Hin id l); [|done]. by apply Hq.
  - rewrite Hout; [done|]. intros Hl.
    apply list_elem_of_fmap in Hl as ([id l'] & -> & Hl). cbn in Hq.
    apply Hq in Hl. done.
Qed.

End Resolution.

Section DanglingReference.
Context `{Collaborators}.
Import Store.
Context (project : gmap Z Reflection) (oldIdToNewId : gmap Z Z).

Lemma warnings_of_links_of items parts :
  length items = length parts ->
  warnings_of project oldIdToNewId (links_of items parts)
  = dangling_warnings project oldIdToNewId parts.
Proof.
  revert parts. induction items as [|l items IH]; intros [|part parts] Hlen;
    try done.
  cbn in Hlen. injection Hlen as Hlen. specialize (IH parts Hlen).
  unfold warnings_of, dangling_warnings in *. cbn [links_of flat_map].
  destruct (link_id part); cbn [flat_map fst]; by rewrite IH.
Qed.

(** C2.  Deserializing a list of parts and running the deferred callbacks
    never throws; every relative link whose remapped identifier has no node
    is left without target, and the warnings emitted are one for each part
    whose identifier does not resolve, naming that identifier. *)
Theorem dangling_reference (s : state) (parts : list JSONDisplayPart) :
  deferred s = [] ->
  exists arr items s1 s2,
    deserializeDisplayParts parts s = Some (arr, s1) /\
    runDeferred project oldIdToNewId s1 = Some (tt, s2) /\
    heap s2 !! arr = Some (CArray items) /\
    length items = length parts /\
    warnings s2 = warnings s ++ dangling_warnings project oldIdToNewId parts /\
    forall (i : nat) text id,
      parts !! i = Some (JRelativeLink text (JReflection id)) ->
      resolve_id project oldIdToNewId id = None ->
      warning_for project oldIdToNewId id
      = [serialized_project_referenced_0_not_part_of_project (Number_toString id)]
      /\
      exists l,
        items !! i = Some l /\
        heap s2 !! l = Some (CPlaceholder text JsUndefined).
Proof.
  intros Hempty.
  destruct (deserializeDisplayParts_spec parts s)
    as (arr & items & s1 & Hde & Hsub & Hdef & Hwarn & Harr & Hfresh & Hcells
        & Hitems & Hnd).
  assert (Hpending : pending s1 = links_of items parts).
  { unfold pending. by rewrite Hdef, Hempty, app_nil_l, concat_queue_of. }
  assert (Hinv : links_inv s1).
  { split; rewrite Hpending; [by apply links_of_NoDup|].
    intros id l Hl.
    destruct (links_of_targets _ _ _ _ Hl) as (i & part & Hi & Hp & Hid).
    exists (initial_cell part). split; [|by eapply initial_cell_linkable].
    by eapply (Forall2_lookup_lr _ _ _ _ _ _ Hcells). }
  destruct (runDeferred_spec project oldIdToNewId s1 Hinv)
    as (s2 & Hrun & _ & Hwarn2 & Hout & Hin).
  pose proof (Forall2_length _ _ _ Hcells) as Hlen.
  exists arr, items, s1, s2.
  split; [done|]. split; [done|]. split; [|split; [done|split]].
  - rewrite Hout; [done|].
    eapply not_linkable_not_pending; [done | exact Harr |].
    by intros [? ?].
  - by rewrite Hwarn2, Hwarn, Hpending, warnings_of_links_of.
  - intros i text id Hi Hres. split.
    { unfold warning_for. by rewrite Hres. }
    destruct (lookup_lt_is_Some_2 items i) as [l Hl].
    { rewrite Hlen. by eapply lookup_lt_Some. }
    exists l. split; [done|].
    pose proof (Forall2_lookup_lr _ _ _ _ _ _ Hcells Hl Hi) as Hcell.
    assert (Hpl : (id, l) ∈ pending s1).
    { rewrite Hpending. by eapply links_of_elem. }
    rewrite (Hin id l _ Hpl Hcell). cbn. by rewrite Hres.
Qed.

End DanglingReference.

(** ** Growth of the store during deserialization *)

Section Growth.
Context `{Collaborators}.
Import Store.

Lemma grows_refl s : grows s s.
Proof.
  split; [done|]. split; [done|]. exists []. rewrite app_nil_r.
  split; [done|]. split; [constructor|].
  intros id l Hin. by apply elem_of_nil in Hin.
Qed.

Lemma grows_trans s1 s2 s3 : grows s1 s2 -> grows s2 s3 -> grows s1 s3.
Proof.
  intros (Hsub1 & Hw1 & new1 & Hd1 & Hnd1 & Hnew1)
         (Hsub2 & Hw2 & new2 & Hd2 & Hnd2 & Hnew2).
  split; [by etrans|]. split; [congruence|].
  exists (new1 ++ new2). split; [by rewrite Hd2, Hd1, app_assoc|].
  rewrite concat_app, fmap_app. split.
  - apply NoDup_app. split; [done|]. split; [|done].
    intros l Hl1 Hl2.
    apply list_elem_of_fmap in Hl1 as ([id1 l1] & -> & Hl1).
    apply list_elem_of_fmap in Hl2 as ([id2 l2] & Heq & Hl2).
    cbn in Heq. subst l2.
    destruct (Hnew1 _ _ Hl1) as (_ & c & Hc & _).
    destruct (Hnew2 _ _ Hl2) as (Hfresh & _).
    apply Hfresh. by eapply elem_of_dom_2.
  - intros id l Hl. apply elem_of_app in Hl as [Hl | Hl].
    + destruct (Hnew1 _ _ Hl) as (Hfresh & c & Hc & Hlink).
      split; [done|]. exists c. split; [|done]. by eapply lookup_weaken.
    + destruct (Hnew2 _ _ Hl) as (Hfresh & c & Hc & Hlink).
      split; [|by exists c]. intros Hin. apply Hfresh.
      by eapply subseteq_dom.
Qed.

Lemma grows_pending s s' :
  grows s s' ->
  exists new,
    pending s' = pending s ++ new /\
    forall id l, (id, l) ∈ new -> l ∉ dom (heap s).
Proof.
  intros (_ & _ & new & Hd & _ & Hnew). exists (concat new).
  unfold pending. rewrite Hd, concat_app. split; [done|].
  intros id l Hl. by destruct (Hnew _ _ Hl).
Qed.

Lemma links_inv_grows s s' : links_inv s -> grows s s' -> links_inv s'.
Proof.
  intros [Hnd Hok] (Hsub & _ & new & Hd & Hndnew & Hnew).
  unfold links_inv, pending. rewrite Hd, concat_app, fmap_app. split.
  - apply NoDup_app. split; [done|]. split; [|done].
    intros l Hl1 Hl2.
    apply list_elem_of_fmap in Hl1 as ([id1 l1] & -> & Hl1).
    apply list_elem_of_fmap in Hl2 as ([id2 l2] & Heq & Hl2).
    cbn in Heq. subst l2.
    destruct (Hok _ _ Hl1) as (c & Hc & _).
    destruct (Hnew _ _ Hl2) as (Hfresh & _).
    apply Hfresh. by eapply elem_of_dom_2.
  - intros id l Hl. apply elem_of_app in Hl as [Hl | Hl].
    + destruct (Hok _ _ Hl) as (c & Hc & Hlink). exists c.
      split; [|done]. by eapply lookup_weaken.
    + by destruct (Hnew _ _ Hl) as (_ & Hc).
Qed.

Lemma staged_grows s s' l part : staged s l part -> grows s s' -> staged s' l part.
Proof.
  intros [Hcell Hq] Hg. pose proof Hg as (Hsub & _).
  destruct (grows_pending _ _ Hg) as (new & Hp & Hnew).
  split; [by eapply lookup_weaken|].
  intros id. rewrite Hp, elem_of_app, <- Hq. split; [|by left].
  intros [Hl | Hl]; [done|]. exfalso. apply (Hnew _ _ Hl).
  by eapply elem_of_dom_2.
Qed.

(** Assigning a field of an object that is not a display part. *)
Lemma staged_store s l part l0 c :
  staged s l part -> l <> l0 -> staged (set_heap (insert l0 c) s) l part.
Proof.
  intros [Hcell Hq] Hne. split; [|done]. cbn. by rewrite lookup_insert_ne.
Qed.

Lemma links_inv_store s l0 c0 c :
  links_inv s -> heap s !! l0 = Some c0 -> ~ linkable c0 ->
  links_inv (set_heap (insert l0 c) s).
Proof.
  intros Hinv Hc0 Hnl. pose proof Hinv as [Hnd Hok]. split; [done|].
  intros id l Hl. destruct (Hok _ _ Hl) as (d & Hd & Hlink). exists d.
  split; [|done]. cbn. rewrite lookup_insert_ne; [done|]. intros ->.
  congruence.
Qed.

(** [deserializeDisplayParts] in a session: the new objects are staged. *)
Lemma deserializeDisplayParts_staged parts s :
  links_inv s ->
  exists arr items s',
    deserializeDisplayParts parts s = Some (arr, s') /\
    grows s s' /\
    heap s' !! arr = Some (CArray items) /\
    (arr ∉ dom (heap s)) /\
    Forall2 (staged s') items parts /\
    Forall (fun l => l ∉ dom (heap s)) items /\
    (forall Q, part_ids_in Q parts -> pending_ids_in Q s -> pending_ids_in Q s').
Proof.
  intros [Hnd Hok].
  destruct (deserializeDisplayParts_spec parts s)
    as (arr & items & s' & Hde & Hsub & Hdef & Hwarn & Harr & Hfresh & Hcells
        & Hitems & Hnditems).
  assert (Hnew : forall id l, (id, l) ∈ links_of items parts ->
                   (l ∉ dom (heap s)) /\
                   exists c, heap s' !! l = Some c /\ linkable c).
  { intros id l Hl.
    destruct (links_of_targets _ _ _ _ Hl) as (i & part & Hi & Hp & Hid).
    split.
    - rewrite Forall_forall in Hitems. apply Hitems.
      by eapply list_elem_of_lookup_2.
    - exists (initial_cell part). split; [|by eapply initial_cell_linkable].
      by eapply (Forall2_lookup_lr _ _ _ _ _ _ Hcells). }
  exists arr, items, s'.
  split; [done|]. split; [|split; [done|split; [done|split; [|split; [done|]]]]].
  3:{ intros Q Hparts Hpend id l. unfold pending.
      rewrite Hdef, concat_app, concat_queue_of, elem_of_app.
      intros [Hin | Hin]; [by eapply Hpend|].
      destruct (links_of_targets _ _ _ _ Hin) as (i & part & Hi & Hp & Hid).
      eapply Hparts; [|done]. by eapply list_elem_of_lookup_2. }
  - split; [done|]. split; [done|]. exists (queue_of (links_of items parts)).
    rewrite concat_queue_of. split; [done|]. split; [by apply links_of_NoDup|done].
  - apply Forall2_same_length_lookup_2; [by eapply Forall2_length|].
    intros i l part Hl Hp. split.
    + by eapply (Forall2_lookup_lr _ _ _ _ _ _ Hcells).
    + intros id. unfold pending. rewrite Hdef, concat_app, concat_queue_of.
      rewrite elem_of_app. split.
      * intros [Hin | Hin].
        -- exfalso. destruct (Hok _ _ Hin) as (c & Hc & _).
           rewrite Forall_forall in Hitems.
           apply (Hitems l); [by eapply list_elem_of_lookup_2|].
           by eapply elem_of_dom_2.
        -- destruct (links_of_targets _ _ _ _ Hin) as (i' & part' & Hi' & Hp' & Hid).
           assert (i' = i) by (by eapply NoDup_lookup). subst i'. congruence.
      * intros Hid. right. by eapply links_of_elem.
Qed.

End Growth.

(** ** [fromObject] *)

Section FromObject.
Context `{Collaborators}.
Import Store.

Lemma initial_cell_is_part part : is_part_cell (initial_cell part).
Proof. by destruct part as [| | ? ? [[]|] ? | ? []]. Qed.

Lemma linkable_is_part c : linkable c -> is_part_cell c.
Proof. destruct c; try done; by intros [? ?]. Qed.

Lemma staged_ne s l part l0 c0 :
  staged s l part -> heap s !! l0 = Some c0 -> ~ is_part_cell c0 -> l <> l0.
Proof.
  intros [Hcell _] Hc0 Hnp ->. rewrite Hcell in Hc0. injection Hc0 as <-.
  apply Hnp, initial_cell_is_part.
Qed.

Lemma grows_alloc s c :
  grows s (set_heap (insert (fresh (dom (heap s))) c) s).
Proof.
  split; [apply alloc_subseteq|]. split; [done|]. exists [].
  cbn. rewrite app_nil_r. split; [done|]. split; [constructor|].
  intros id l Hin. by apply elem_of_nil in Hin.
Qed.

(** Assigning a field of an object created since [s]. *)
Lemma grows_store s s' l0 c0 c :
  grows s s' -> l0 ∉ dom (heap s) ->
  heap s' !! l0 = Some c0 -> ~ is_part_cell c0 ->
  grows s (set_heap (insert l0 c) s').
Proof.
  intros (Hsub & Hw & new & Hd & Hnd & Hnew) Hl0 Hc0 Hnp.
  split.
  { cbn. apply insert_subseteq_r; [by apply not_elem_of_dom|done]. }
  split; [done|]. exists new. split; [done|]. split; [done|].
  intros id l Hl. destruct (Hnew _ _ Hl) as (Hfresh & d & Hd' & Hlink).
  split; [done|]. exists d. split; [|done]. cbn.
  rewrite lookup_insert_ne; [done|]. intros ->.
  rewrite Hc0 in Hd'. injection Hd' as <-. by apply Hnp, linkable_is_part.
Qed.

Lemma staged_tag_grows s s' t jt :
  staged_tag s t jt -> grows s s' -> staged_tag s' t jt.
Proof.
  intros (content & citems & Ht & Hcontent & Hparts) Hg.
  pose proof Hg as (Hsub & _).
  exists content, citems. split; [by eapply lookup_weaken|].
  split; [by eapply lookup_weaken|].
  eapply Forall2_impl; [exact Hparts|]. intros l part Hst.
  by eapply staged_grows.
Qed.

Lemma staged_tag_store s t jt l0 c0 c :
  staged_tag s t jt -> heap s !! l0 = Some c0 ->
  (forall tag name content, c0 <> CTag tag name content) ->
  (forall items, c0 <> CArray items) ->
  ~ is_part_cell c0 ->
  staged_tag (set_heap (insert l0 c) s) t jt.
Proof.
  intros (content & citems & Ht & Hcontent & Hparts) Hc0 Hnt Hna Hnp.
  exists content, citems. cbn.
  split; [rewrite lookup_insert_ne; [done|]; intros ->; naive_solver|].
  split; [rewrite lookup_insert_ne; [done|]; intros ->; naive_solver|].
  eapply Forall2_impl; [exact Hparts|]. intros l part Hst.
  apply staged_store; [done|]. by eapply staged_ne.
Qed.

Lemma fromObject_tag_spec tagObj s :
  links_inv s ->
  exists tag s',
    fromObject_tag tagObj s = Some (tag, s') /\
    grows s s' /\
    (tag ∉ dom (heap s)) /\
    staged_tag s' tag tagObj /\
    (forall Q, part_ids_in Q (j_content tagObj) ->
               pending_ids_in Q s -> pending_ids_in Q s').
Proof.
  intros Hinv.
  set (e := fresh (dom (heap s))).
  set (s1 := set_heap (insert e (CArray [])) s).
  set (t := fresh (dom (heap s1))).
  set (s2 := set_heap (insert t (CTag (j_tag tagObj) None e)) s1).
  assert (Hg1 : grows s s1) by apply grows_alloc.
  assert (Hg2 : grows s1 s2) by apply grows_alloc.
  assert (Hg02 : grows s s2) by (by eapply grows_trans).
  assert (Hinv2 : links_inv s2) by (by eapply links_inv_grows).
  destruct (deserializeDisplayParts_staged (j_content tagObj) s2 Hinv2)
    as (content & citems & s3 & Hde & Hg3 & Hcontent & Hfresh & Hst & Hitems
        & Hids).
  assert (Ht2 : heap s2 !! t = Some (CTag (j_tag tagObj) None e))
    by apply lookup_insert_eq.
  assert (Ht3 : heap s3 !! t = Some (CTag (j_tag tagObj) None e)).
  { destruct Hg3 as (Hsub & _). by eapply lookup_weaken. }
  assert (Htfresh : t ∉ dom (heap s)).
  { intros Hin. apply (is_fresh (dom (heap s1))).
    destruct Hg1 as (Hsub & _). by eapply subseteq_dom. }
  set (s4 := set_heap (insert t (CTag (j_tag tagObj) (j_name tagObj) content)) s3).
  exists t, s4. split; [|split; [|split; [done|split]]].
  4:{ intros Q Hparts Hpend. by apply (Hids Q Hparts). }
  - unfold fromObject_tag. unfold bind at 1, alloc at 1. fold e. fold s1.
    unfold bind at 1, alloc at 1. fold t. fold s2.
    unfold bind at 1, de_fromObject, CommentTag_fromObject.
    rewrite (bind_eq _ _ _ _ _ (load_eq _ _ _ Ht2)).
    by rewrite (bind_eq _ _ _ _ _ Hde).
  - eapply grows_store; [by eapply grows_trans | done | exact Ht3 | by intros []].
  - exists content, citems. cbn. split; [apply lookup_insert_eq|].
    assert (content <> t).
    { intros ->. apply Hfresh. by eapply elem_of_dom_2. }
    split; [by rewrite lookup_insert_ne|].
    eapply Forall2_impl; [exact Hst|]. intros l part Hl.
    apply staged_store; [done|]. eapply staged_ne; [done | exact Ht3 | by intros []].
Qed.

Lemma mapM_fromObject_tag_spec tagObjs s :
  links_inv s ->
  exists tags s',
    mapM fromObject_tag tagObjs s = Some (tags, s') /\
    grows s s' /\
    Forall2 (staged_tag s') tags tagObjs /\
    Forall (fun t => t ∉ dom (heap s)) tags /\
    (forall Q, (forall jt, jt ∈ tagObjs -> part_ids_in Q (j_content jt)) ->
               pending_ids_in Q s -> pending_ids_in Q s').
Proof.
  revert s. induction tagObjs as [|tagObj tagObjs IH]; intros s Hinv.
  - exists [], s. split; [done|]. split; [apply grows_refl|].
    split; [constructor|]. split; [constructor|done].
  - destruct (fromObject_tag_spec tagObj s Hinv)
      as (tag & s1 & Htag & Hg1 & Hfresh & Hst & Hids1).
    destruct (IH s1 (links_inv_grows _ _ Hinv Hg1))
      as (tags & s' & Hmap & Hg & Hsts & Hfreshs & Hids).
    exists (tag :: tags), s'. split; [|split; [|split; [|split]]].
    5:{ intros Q Hparts Hpend. apply Hids.
        - intros jt Hjt. apply Hparts. by right.
        - apply Hids1; [|done]. apply Hparts. by left. }
    + cbn [mapM]. rewrite (bind_eq _ _ _ _ _ Htag).
      by rewrite (bind_eq _ _ _ _ _ Hmap).
    + by eapply grows_trans.
    + constructor; [by eapply staged_tag_grows|done].
    + constructor; [done|]. eapply Forall_impl; [exact Hfreshs|].
      intros t Ht Hin. apply Ht. destruct Hg1 as (Hsub & _).
      by eapply subseteq_dom.
Qed.

(** [Comment.fromObject] on an existing comment, in a session. *)
Lemma Comment_fromObject_spec this obj s s0 b0 m0 l0 sp di :
  links_inv s ->
  heap s !! this = Some (CComment s0 b0 m0 l0 sp di) ->
  exists s',
    Comment_fromObject this obj s = Some (tt, s') /\
    links_inv s' /\
    warnings s' = warnings s /\
    staged_comment s' this obj sp di /\
    (forall Q, part_ids_in Q (j_summary obj) ->
               (forall jt, jt ∈ default [] (j_blockTags obj) ->
                           part_ids_in Q (j_content jt)) ->
               pending_ids_in Q s -> pending_ids_in Q s').
Proof.
  intros Hinv Hthis.
  destruct (deserializeDisplayParts_staged (j_summary obj) s Hinv)
    as (sm & sitems & s1 & Hde & Hg1 & Hsm & Hsmfresh & Hst & Hitems & Hids1).
  pose proof (links_inv_grows _ _ Hinv Hg1) as Hinv1.
  destruct (mapM_fromObject_tag_spec (default [] (j_blockTags obj)) s1 Hinv1)
    as (tags & s2 & Hmap & Hg2 & Htags & Htagsfresh & Hids2).
  set (b := fresh (dom (heap s2))).
  set (s3 := set_heap (insert b (CArray tags)) s2).
  set (m := fresh (dom (heap s3))).
  set (s4 := set_heap (insert m (CSet (Set_new (default [] (j_modifierTags obj))))) s3).
  assert (Hg3 : grows s2 s3) by apply grows_alloc.
  assert (Hg4 : grows s3 s4) by apply grows_alloc.
  assert (Hg24 : grows s2 s4) by (by eapply grows_trans).
  assert (Hg14 : grows s1 s4) by (by eapply grows_trans).
  assert (Hg04 : grows s s4) by (by eapply grows_trans).
  pose proof (links_inv_grows _ _ Hinv Hg04) as Hinv4.
  assert (Hthis4 : heap s4 !! this = Some (CComment s0 b0 m0 l0 sp di)).
  { destruct Hg04 as (Hsub & _). by eapply lookup_weaken. }
  set (s5 := set_heap (insert this (CComment sm b m (j_label obj) sp di)) s4).
  exists s5. split; [|split; [|split; [|split]]].
  5:{ intros Q Hsum Htagparts Hpend. apply (Hids2 Q Htagparts).
      by apply Hids1. }
  - unfold Comment_fromObject. rewrite (bind_eq _ _ _ _ _ Hde).
    rewrite (bind_eq _ _ _ _ _ Hmap).
    unfold bind at 1, alloc at 1. fold b. fold s3.
    unfold bind at 1, alloc at 1. fold m. fold s4.
    by rewrite (bind_eq _ _ _ _ _ (load_eq _ _ _ Hthis4)).
  - eapply links_inv_store; [done | exact Hthis4 | by intros [? ?]].
  - cbn. destruct Hg04 as (_ & Hw & _). exact Hw.
  - assert (Hb4 : heap s4 !! b = Some (CArray tags)).
    { destruct Hg4 as (Hsub & _). eapply lookup_weaken; [|exact Hsub].
      apply lookup_insert_eq. }
    assert (Hm4 : heap s4 !! m
                  = Some (CSet (Set_new (default [] (j_modifierTags obj)))))
      by apply lookup_insert_eq.
    assert (Hsm4 : heap s4 !! sm = Some (CArray sitems)).
    { destruct Hg14 as (Hsub & _). by eapply lookup_weaken. }
    exists sm, b, m, sitems, tags. cbn.
    split; [apply lookup_insert_eq|].
    split; [rewrite lookup_insert_ne; [done|]; intros ->; congruence|].
    split.
    { eapply Forall2_impl; [exact Hst|]. intros l part Hl.
      apply staged_store; [by eapply staged_grows|].
      eapply staged_ne; [by eapply staged_grows | exact Hthis4 | by intros []]. }
    split; [rewrite lookup_insert_ne; [done|]; intros ->; congruence|].
    split; [|rewrite lookup_insert_ne; [done|]; intros ->; congruence].
    eapply Forall2_impl; [exact Htags|]. intros t jt Ht.
    eapply staged_tag_store;
      [by eapply staged_tag_grows | exact Hthis4 | done | done | by intros []].
Qed.

End FromObject.

(** ** Round trip *)

Section RoundTrip.
Context `{Collaborators}.
Import Store.
Context (project : gmap Z Reflection) (oldIdToNewId : gmap Z Z).

Lemma links_inv_empty s : deferred s = [] -> links_inv s.
Proof.
  intros Hd. unfold links_inv, pending. rewrite Hd. cbn.
  split; [constructor|]. intros id l Hin. by apply elem_of_nil in Hin.
Qed.

Lemma new_Comment_default_spec s :
  exists c s1 a b m,
    new_Comment_default s = Some (c, s1) /\
    grows s s1 /\
    deferred s1 = deferred s /\
    (c ∉ dom (heap s)) /\
    heap s1 !! c = Some (CComment a b m None None None).
Proof.
  set (a := fresh (dom (heap s))).
  set (s1 := set_heap (insert a (CArray [])) s).
  set (b := fresh (dom (heap s1))).
  set (s2 := set_heap (insert b (CArray [])) s1).
  set (m := fresh (dom (heap s2))).
  set (s3 := set_heap (insert m (CSet [])) s2).
  set (c := fresh (dom (heap s3))).
  set (s4 := set_heap (insert c (CComment a b m None None None)) s3).
  assert (Hg1 : grows s s1) by apply grows_alloc.
  assert (Hg2 : grows s1 s2) by apply grows_alloc.
  assert (Hg3 : grows s2 s3) by apply grows_alloc.
  assert (Hg4 : grows s3 s4) by apply grows_alloc.
  assert (Hg03 : grows s s3) by (eapply grows_trans; [|done]; by eapply grows_trans).
  assert (Hc : heap s4 !! c = Some (CComment a b m None None None))
    by apply lookup_insert_eq.
  assert (Ha : heap s4 !! a = Some (CArray [])).
  { assert (grows s1 s4) as (Hsub & _).
    { eapply grows_trans; [|done]. by eapply grows_trans. }
    eapply lookup_weaken; [|exact Hsub]. apply lookup_insert_eq. }
  exists c, s4, a, b, m. split; [|split; [|split; [done|split; [|done]]]].
  - unfold new_Comment_default.
    unfold bind at 1, alloc at 1. fold a. fold s1.
    unfold bind at 1, alloc at 1. fold b. fold s2.
    unfold bind at 1, alloc at 1. fold m. fold s3.
    unfold new_Comment. unfold bind at 1, alloc at 1. fold c. fold s4.
    by rewrite (bind_eq _ _ _ _ _
                  (extractLabelTag_absent s4 c a b m None None None [] []
                     Hc Ha ltac:(constructor) ltac:(constructor))).
  - by eapply grows_trans.
  - intros Hin. apply (is_fresh (dom (heap s3))). destruct Hg03 as (Hsub & _).
    by eapply subseteq_dom.
Qed.

Lemma final_cell_serialize p :
  symbol_ids_round_trip -> live_part project oldIdToNewId p ->
  final_cell project oldIdToNewId (serializeDisplayPart p) = Some (CPart p).
Proof.
  intros Hsym Hlive.
  destruct p as [t | t | tag text [[r | str | sid]|] ts | text [r | n]];
    cbn in *; try done.
  - unfold final_cell. cbn. unfold live_node in Hlive. by rewrite Hlive.
  - unfold final_cell. cbn. by rewrite Hsym.
  - unfold final_cell. cbn. unfold live_node in Hlive. by rewrite Hlive.
Qed.

Lemma serialized_ids_live ps :
  Forall (live_part project oldIdToNewId) ps ->
  part_ids_in (fun id => is_Some (resolve_id project oldIdToNewId id))
    (serializeDisplayPart <$> ps).
Proof.
  intros Hlive part id Hpart Hid.
  apply list_elem_of_fmap in Hpart as (p & -> & Hp).
  rewrite Forall_forall in Hlive. specialize (Hlive p Hp).
  destruct p as [t | t | tag text [[r | str | sid]|] ts | text [r | n]];
    cbn in *; simplify_eq; unfold live_node in Hlive; by rewrite Hlive.
Qed.

Lemma warnings_of_resolved links :
  (forall id l, (id, l) ∈ links ->
                is_Some (resolve_id project oldIdToNewId id)) ->
  warnings_of project oldIdToNewId links = [].
Proof.
  induction links as [|[id l] links IH]; intros Hall; [done|].
  unfold warnings_of in *. cbn [flat_map fst]. rewrite IH.
  - unfold warning_for. destruct (Hall id l) as [r ->]; [by left|done].
  - intros id' l' Hin. apply (Hall id' l'). by right.
Qed.

Lemma default_toObjectsOptional tags :
  default [] (toObjectsOptional tags) = CommentTag_toObject <$> tags.
Proof. by destruct tags. Qed.

Lemma Set_add_fresh x xs : x ∉ xs -> Set_add x xs = xs ++ [x].
Proof. intros Hx. unfold Set_add. by rewrite bool_decide_eq_false_2. Qed.

Lemma Set_new_foldl acc xs :
  NoDup (acc ++ xs) ->
  foldl (fun s x => Set_add x s) acc xs = acc ++ xs.
Proof.
  revert acc. induction xs as [|x xs IH]; intros acc Hnd; cbn.
  - by rewrite app_nil_r.
  - rewrite Set_add_fresh.
    + rewrite IH; rewrite <- app_assoc; done.
    + apply NoDup_app in Hnd as (_ & Hdisj & _). intros Hin.
      apply (Hdisj x Hin). by left.
Qed.

(** [new Set(Array.from(set))] has the elements of [set], in its order. *)
Lemma Set_new_NoDup xs : NoDup xs -> Set_new xs = xs.
Proof. intros Hnd. unfold Set_new. by rewrite Set_new_foldl. Qed.

Lemma modifierTags_round_trip xs :
  NoDup xs ->
  Set_new (default []
             (if 0 <? Z.of_nat (length xs) then Some (Array_from xs) else None))
  = xs.
Proof.
  intros Hnd. destruct xs as [|x xs]; [done|].
  cbn [length]. rewrite Nat2Z.inj_succ.
  destruct (Z.ltb_spec 0 (Z.succ (Z.of_nat (length xs)))); [|lia].
  by apply Set_new_NoDup.
Qed.

(** The parts of a staged array once the callbacks have run. *)
Lemma staged_parts_view s s' arr items ps :
  symbol_ids_round_trip ->
  links_inv s ->
  runDeferred project oldIdToNewId s = Some (tt, s') ->
  heap s !! arr = Some (CArray items) ->
  Forall2 (staged s) items (serializeDisplayPart <$> ps) ->
  Forall (live_part project oldIdToNewId) ps ->
  view_parts (heap s') arr = Some ps.
Proof.
  intros Hsym Hinv Hrun Harr Hst Hlive.
  destruct (runDeferred_spec project oldIdToNewId s Hinv)
    as (s'' & Hrun' & _ & _ & Hout & _).
  rewrite Hrun in Hrun'. injection Hrun' as <-.
  eapply view_parts_intro.
  - rewrite Hout; [done|].
    eapply not_linkable_not_pending; [done | exact Harr | by intros [? ?]].
  - rewrite Forall2_fmap_r in Hst.
    apply Forall2_same_length_lookup_2; [by eapply Forall2_length|].
    intros i l p Hl Hp.
    pose proof (Forall2_lookup_lr _ _ _ _ _ _ Hst Hl Hp) as Hlp.
    rewrite (staged_final project oldIdToNewId s s' l _ Hinv Hlp Hrun).
    apply final_cell_serialize; [done|].
    rewrite Forall_forall in Hlive. apply Hlive.
    by eapply list_elem_of_lookup_2.
Qed.

Lemma staged_tag_view s s' t tag :
  symbol_ids_round_trip ->
  links_inv s ->
  runDeferred project oldIdToNewId s = Some (tt, s') ->
  staged_tag s t (CommentTag_toObject tag) ->
  Forall (live_part project oldIdToNewId) (tag_content tag) ->
  view_tag (heap s') t = Some tag.
Proof.
  intros Hsym Hinv Hrun (content & citems & Ht & Hcontent & Hst) Hlive.
  destruct (runDeferred_spec project oldIdToNewId s Hinv)
    as (s'' & Hrun' & _ & _ & Hout & _).
  rewrite Hrun in Hrun'. injection Hrun' as <-.
  unfold view_tag. rewrite Hout.
  2:{ eapply not_linkable_not_pending; [done | exact Ht | by intros [? ?]]. }
  rewrite Ht. cbn in *.
  rewrite (staged_parts_view s s' content citems (tag_content tag)); try done.
  by destruct tag.
Qed.

(** C1.  Serializing a comment and deserializing the result on a new
    [Comment], the deferred callbacks run with a remapping that sends the
    identifier of every linked node to itself, gives a comment with the same
    summary, block tags, modifier tags and label, and without source path
    and discovery identifier. *)
Theorem comment_round_trip (s : state) (C : Comment) :
  deferred s = [] ->
  NoDup (modifierTags C) ->
  live_comment project oldIdToNewId C ->
  symbol_ids_round_trip ->
  exists c s',
    deserialize_Comment project oldIdToNewId (Comment_toObject C) s
    = Some (c, s') /\
    view_comment (heap s') c = Some (serialized_fields C) /\
    warnings s' = warnings s.
Proof.
  intros Hempty Hnd [Hlive_s Hlive_t] Hsym.
  pose proof (links_inv_empty s Hempty) as Hinv.
  destruct (new_Comment_default_spec s)
    as (c & s1 & a0 & b0 & m0 & Hnew & Hg1 & Hd1 & Hcfresh & Hc1).
  pose proof (links_inv_grows _ _ Hinv Hg1) as Hinv1.
  destruct (Comment_fromObject_spec c (Comment_toObject C) s1 a0 b0 m0 None
              None None Hinv1 Hc1)
    as (s2 & Hfrom & Hinv2 & Hw2 & Hst & Hids).
  destruct (runDeferred_spec project oldIdToNewId s2 Hinv2)
    as (s3 & Hrun & _ & Hw3 & Hout & _).
  destruct Hst as (sm & b & m & sitems & tags & Hc & Hsm & Hsitems & Hb & Htags & Hm).
  cbn [Comment_toObject j_summary j_blockTags j_modifierTags j_label] in *.
  rewrite default_toObjectsOptional in Htags.
  rewrite (modifierTags_round_trip _ Hnd) in Hm.
  assert (Hwarn : warnings_of project oldIdToNewId (pending s2) = []).
  { apply warnings_of_resolved.
    apply (Hids (fun id => is_Some (resolve_id project oldIdToNewId id))).
    - by apply serialized_ids_live.
    - intros jt Hjt. rewrite default_toObjectsOptional in Hjt.
      apply list_elem_of_fmap in Hjt as (tag & -> & Htag).
      apply serialized_ids_live. rewrite Forall_forall in Hlive_t.
      by apply Hlive_t.
    - intros id l Hin. unfold pending in Hin. rewrite Hd1, Hempty in Hin.
      by apply elem_of_nil in Hin. }
  exists c, s3. split; [|split].
  - unfold deserialize_Comment. rewrite (bind_eq _ _ _ _ _ Hnew).
    rewrite (bind_eq _ _ _ _ _ Hfrom). by rewrite (bind_eq _ _ _ _ _ Hrun).
  - unfold view_comment.
    rewrite (Hout c), Hc.
    2:{ eapply not_linkable_not_pending; [done | exact Hc | by intros [? ?]]. }
    rewrite (staged_parts_view s2 s3 sm sitems (summary C)) by done.
    rewrite (Hout b), Hb.
    2:{ eapply not_linkable_not_pending; [done | exact Hb | by intros [? ?]]. }
    rewrite (Hout m), Hm.
    2:{ eapply not_linkable_not_pending; [done | exact Hm | by intros [? ?]]. }
    assert (Hview : view_list (view_tag (heap s3)) tags = Some (blockTags C)).
    { apply view_list_Forall2. rewrite Forall2_fmap_r in Htags.
      apply Forall2_same_length_lookup_2; [by eapply Forall2_length|].
      intros i t tag Ht Htag.
      eapply staged_tag_view; try done.
      - exact (Forall2_lookup_lr _ _ _ _ _ _ Htags Ht Htag).
      - rewrite Forall_forall in Hlive_t. apply Hlive_t.
        by eapply list_elem_of_lookup_2. }
    by rewrite Hview.
  - rewrite Hw3, Hwarn, app_nil_r, Hw2. by destruct Hg1 as (_ & Hw & _).
Qed.

End RoundTrip.

Section LabelOnRead.
Context `{Collaborators}.
Import Store.
Context (project : gmap Z Reflection) (oldIdToNewId : gmap Z Z).

Lemma final_cell_label text target ts :
  exists t2,
    final_cell project oldIdToNewId (JInlineTag (lit "@label") text target ts)
    = Some (CPart (InlineTag (lit "@label") text t2 ts)).
Proof. destruct target as [[n | str | o]|]; cbn; eauto. Qed.

(** C10.  [Comment.fromObject] does not extract labels: every [@label]
    inline tag of the serialized summary is a part of the rebuilt summary, at
    the same index, before and after the deferred callbacks, and the label
    of the comment is the [label] field of the serialized object. *)
Theorem fromObject_keeps_label_tag
    (s : state) (this : loc) (obj : JSONComment)
    (s0 b0 m0 : loc) (l0 sp : option jsstring) (di : option Z) :
  links_inv s ->
  heap s !! this = Some (CComment s0 b0 m0 l0 sp di) ->
  exists s1 s2 sm b m sitems,
    Comment_fromObject this obj s = Some (tt, s1) /\
    runDeferred project oldIdToNewId s1 = Some (tt, s2) /\
    heap s1 !! this = Some (CComment sm b m (j_label obj) sp di) /\
    heap s2 !! this = Some (CComment sm b m (j_label obj) sp di) /\
    heap s1 !! sm = Some (CArray sitems) /\
    heap s2 !! sm = Some (CArray sitems) /\
    length sitems = length (j_summary obj) /\
    forall (i : nat) text target ts,
      j_summary obj !! i = Some (JInlineTag (lit "@label") text target ts) ->
      exists l t1 t2,
        sitems !! i = Some l /\
        heap s1 !! l = Some (CPart (InlineTag (lit "@label") text t1 ts)) /\
        heap s2 !! l = Some (CPart (InlineTag (lit "@label") text t2 ts)).
Proof.
  intros Hinv Hthis.
  destruct (Comment_fromObject_spec this obj s s0 b0 m0 l0 sp di Hinv Hthis)
    as (s1 & Hfrom & Hinv1 & _ & Hst & _).
  destruct (runDeferred_spec project oldIdToNewId s1 Hinv1)
    as (s2 & Hrun & _ & _ & Hout & _).
  destruct Hst as (sm & b & m & sitems & tags & Hc & Hsm & Hsitems & _).
  pose proof (Forall2_length _ _ _ Hsitems) as Hlen.
  exists s1, s2, sm, b, m, sitems.
  split; [done|]. split; [done|]. split; [done|]. split.
  { rewrite Hout; [done|].
    eapply not_linkable_not_pending; [done | exact Hc | by intros [? ?]]. }
  split; [done|]. split.
  { rewrite Hout; [done|].
    eapply not_linkable_not_pending; [done | exact Hsm | by intros [? ?]]. }
  split; [done|].
  intros i text target ts Hi.
  destruct (lookup_lt_is_Some_2 sitems i) as [l Hl].
  { rewrite Hlen. by eapply lookup_lt_Some. }
  pose proof (Forall2_lookup_lr _ _ _ _ _ _ Hsitems Hl Hi) as Hstaged.
  destruct (final_cell_label text target ts) as [t2 Ht2].
  eexists l, _, t2. split; [done|]. split.
  - destruct Hstaged as [Hcell _]. exact Hcell.
  - by rewrite (staged_final project oldIdToNewId s1 s2 l _ Hinv1 Hstaged Hrun).
Qed.

End LabelOnRead.

(** ** Reachability and views *)

Section Reach.
Context `{Collaborators}.
Import Store.

Lemma new_closed_refl h : new_closed h h.
Proof.
  split; [done|]. intros a b Ha [c [Hc _]]. exfalso. apply Ha.
  by eapply elem_of_dom_2.
Qed.

Lemma new_closed_write h0 h l c :
  new_closed h0 h -> l ∉ dom h0 ->
  Forall (fun b => b ∉ dom h0) (fields c) ->
  new_closed h0 (<[l := c]> h).
Proof.
  intros [Hsub Hcl] Hl Hc. split.
  - apply insert_subseteq_r; [by apply not_elem_of_dom|done].
  - intros a b Ha (d & Hd & Hb).
    destruct (decide (a = l)) as [->|Hne].
    + rewrite lookup_insert_eq in Hd. injection Hd as <-.
      rewrite Forall_forall in Hc. by apply Hc.
    + rewrite lookup_insert_ne in Hd by done. apply (Hcl a b Ha).
      by exists d.
Qed.

Lemma new_closed_alloc h0 h c :
  new_closed h0 h ->
  Forall (fun b => b ∉ dom h0) (fields c) ->
  new_closed h0 (<[fresh (dom h) := c]> h).
Proof.
  intros Hn Hc. apply new_closed_write; [done| |done].
  intros Hin. apply (is_fresh (dom h)). destruct Hn as [Hsub _].
  by eapply subseteq_dom.
Qed.

Lemma new_closed_dom h0 h l : new_closed h0 h -> l ∉ dom h -> l ∉ dom h0.
Proof.
  intros [Hsub _] Hl Hin. apply Hl. by eapply subseteq_dom.
Qed.

(** Everything reachable from a new object is new. *)
Lemma reach_new h0 h y a :
  new_closed h0 h -> y ∉ dom h0 -> reach h y a -> a ∉ dom h0.
Proof.
  intros [_ Hcl] Hy Hr. induction Hr as [|y b a Hyb _ IH]; [done|].
  apply IH. by apply (Hcl y b).
Qed.

(** Objects that were complete in an earlier store reach the same objects
    in a later one. *)
Lemma reach_sub h0 h x a :
  h0 ⊆ h ->
  (forall b, reach h0 x b -> b ∈ dom h0) ->
  reach h x a -> reach h0 x a.
Proof.
  intros Hsub Hcl Hr. induction Hr as [|x y a Hxy _ IH]; [constructor|].
  assert (Hx : x ∈ dom h0) by (apply Hcl; constructor).
  apply elem_of_dom in Hx as [c Hc].
  destruct Hxy as (c' & Hc' & Hy).
  rewrite (lookup_weaken _ _ _ _ Hc Hsub) in Hc'. injection Hc' as <-.
  assert (Hxy0 : points_to h0 x y) by (by exists c).
  eapply rtc_l; [exact Hxy0|]. apply IH.
  intros b Hb. apply Hcl. by eapply rtc_l.
Qed.

Lemma view_parts_agree (h h2 : gmap loc cell) l :
  (forall a, reach h l a -> h2 !! a = h !! a) ->
  view_parts h2 l = view_parts h l.
Proof.
  intros Hag. unfold view_parts. rewrite (Hag l) by constructor.
  destruct (h !! l) as [[| | items | | | | |]|] eqn:Hl; try done.
  apply view_list_ext, Forall_forall. intros i Hi. apply view_part_agree, Hag.
  apply rtc_once. by exists (CArray items).
Qed.

Lemma view_tag_agree (h h2 : gmap loc cell) t :
  (forall a, reach h t a -> h2 !! a = h !! a) ->
  view_tag h2 t = view_tag h t.
Proof.
  intros Hag. unfold view_tag. rewrite (Hag t) by constructor.
  destruct (h !! t) as [[| | | | tag name content | | |]|] eqn:Ht; try done.
  rewrite (view_parts_agree h h2 content); [done|].
  intros a Ha. apply Hag. eapply rtc_l; [|exact Ha].
  exists (CTag tag name content). split; [done|]. by left.
Qed.

Lemma view_comment_agree (h h2 : gmap loc cell) x :
  (forall a, reach h x a -> h2 !! a = h !! a) ->
  view_comment h2 x = view_comment h x.
Proof.
  intros Hag. unfold view_comment. rewrite (Hag x) by constructor.
  destruct (h !! x) as [[| | | | | sm b m lbl sp di | |]|] eqn:Hx; try done.
  assert (Hf : forall f, f ∈ [sm; b; m] -> points_to h x f).
  { intros f Hf. by exists (CComment sm b m lbl sp di). }
  rewrite (view_parts_agree h h2 sm).
  2:{ intros a Ha. apply Hag. eapply rtc_l; [|exact Ha]. apply Hf. set_solver. }
  rewrite (Hag b), (Hag m).
  2:{ apply rtc_once, Hf. set_solver. }
  2:{ apply rtc_once, Hf. set_solver. }
  destruct (view_parts h sm); [|done].
  destruct (h !! b) as [[| | tags | | | | |]|] eqn:Hb; try done.
  destruct (h !! m) as [[| | | mods | | | |]|] eqn:Hm; try done.
  rewrite (view_list_ext (view_tag h2) (view_tag h) tags); [done|].
  apply Forall_forall. intros t Ht. apply view_tag_agree.
  intros a Ha. apply Hag. apply (rtc_l _ _ b); [apply Hf; set_solver|].
  eapply rtc_l; [|exact Ha]. by exists (CArray tags).
Qed.

(** The objects reachable from a viewed array, tag or comment exist. *)
Lemma reach_parts_dom h l ps a :
  view_parts h l = Some ps -> reach h l a -> a ∈ dom h.
Proof.
  intros Hv Hr. apply view_parts_Some in Hv as (items & Hl & Hitems).
  apply rtc_inv in Hr as [<- | (i & (c & Hc & Hi) & Hr)];
    [by eapply elem_of_dom_2|].
  rewrite Hl in Hc. injection Hc as <-. cbn in Hi.
  apply list_elem_of_lookup in Hi as [k Hk].
  destruct (Forall2_lookup_l _ _ _ _ _ Hitems Hk) as (p & _ & Hp).
  apply rtc_inv in Hr as [<- | (j & (c & Hc & Hj) & _)];
    [by eapply elem_of_dom_2|].
  rewrite Hp in Hc. injection Hc as <-. by apply elem_of_nil in Hj.
Qed.

Lemma reach_tag_dom h t tg a :
  view_tag h t = Some tg -> reach h t a -> a ∈ dom h.
Proof.
  unfold view_tag. intros Hv Hr.
  destruct (h !! t) as [[| | | | tag name content | | |]|] eqn:Ht; try done.
  destruct (view_parts h content) as [ps|] eqn:Hc; [|done].
  apply rtc_inv in Hr as [<- | (i & (c & Hc' & Hi) & Hr)];
    [by eapply elem_of_dom_2|].
  rewrite Ht in Hc'. injection Hc' as <-. cbn in Hi.
  apply list_elem_of_singleton in Hi as ->. by eapply reach_parts_dom.
Qed.

Lemma reach_comment_dom h x C a :
  view_comment h x = Some C -> reach h x a -> a ∈ dom h.
Proof.
  unfold view_comment. intros Hv Hr.
  destruct (h !! x) as [[| | | | | sm b m lbl sp di | |]|] eqn:Hx; try done.
  destruct (view_parts h sm) as [ps|] eqn:Hsm; [|done].
  destruct (h !! b) as [[| | tags | | | | |]|] eqn:Hb; try done.
  destruct (h !! m) as [[| | | mods | | | |]|] eqn:Hm; try done.
  destruct (view_list (view_tag h) tags) as [ts|] eqn:Hts; [|done].
  apply rtc_inv in Hr as [<- | (i & (c & Hc' & Hi) & Hr)];
    [by eapply elem_of_dom_2|].
  rewrite Hx in Hc'. injection Hc' as <-. cbn in Hi.
  apply elem_of_cons in Hi as [-> | Hi]; [by eapply reach_parts_dom|].
  apply elem_of_cons in Hi as [-> | Hi].
  - apply rtc_inv in Hr as [<- | (t & (c & Hc' & Ht) & Hr)];
      [by eapply elem_of_dom_2|].
    rewrite Hb in Hc'. injection Hc' as <-. cbn in Ht.
    apply list_elem_of_lookup in Ht as [k Hk].
    apply view_list_Forall2 in Hts.
    destruct (Forall2_lookup_l _ _ _ _ _ Hts Hk) as (tg & _ & Htg).
    by eapply reach_tag_dom.
  - apply list_elem_of_singleton in Hi as ->.
    apply rtc_inv in Hr as [<- | (t & (c & Hc' & Ht) & Hr)];
      [by eapply elem_of_dom_2|].
    rewrite Hm in Hc'. injection Hc' as <-. by apply elem_of_nil in Ht.
Qed.

(** A write outside the objects reachable from a comment leaves it as it
    is. *)
Lemma view_comment_insert h x C a c :
  view_comment h x = Some C -> ~ reach h x a ->
  view_comment (<[a := c]> h) x = Some C.
Proof.
  intros Hv Hna. rewrite <- Hv. apply view_comment_agree.
  intros b Hb. apply lookup_insert_ne. by intros ->.
Qed.

Lemma view_comment_weaken h h' x C :
  h ⊆ h' -> view_comment h x = Some C -> view_comment h' x = Some C.
Proof.
  intros Hsub Hv. rewrite <- Hv. apply view_comment_agree.
  intros b Hb. pose proof (reach_comment_dom _ _ _ _ Hv Hb) as Hd.
  apply elem_of_dom in Hd as [d Hd]. rewrite Hd.
  by eapply lookup_weaken.
Qed.

Lemma view_tag_weaken h h' t tg :
  h ⊆ h' -> view_tag h t = Some tg -> view_tag h' t = Some tg.
Proof.
  intros Hsub Hv. rewrite <- Hv. apply view_tag_agree.
  intros b Hb. pose proof (reach_tag_dom _ _ _ _ Hv Hb) as Hd.
  apply elem_of_dom in Hd as [d Hd]. rewrite Hd.
  by eapply lookup_weaken.
Qed.

End Reach.

(** ** Clone *)

Section Clone.
Context `{Collaborators}.
Import Store.

Lemma spread_part_eq s l p :
  heap s !! l = Some (CPart p) ->
  spread_part l s
  = Some (fresh (dom (heap s)),
          set_heap (insert (fresh (dom (heap s))) (CPart p)) s).
Proof.
  intros Hl. unfold spread_part. by rewrite (bind_eq _ _ _ _ _ (load_eq _ _ _ Hl)).
Qed.

Lemma mapM_spread_part_spec items ps s :
  Forall2 (fun l p => heap s !! l = Some (CPart p)) items ps ->
  exists items' s',
    mapM spread_part items s = Some (items', s') /\
    heap s ⊆ heap s' /\
    (forall h0, new_closed h0 (heap s) -> new_closed h0 (heap s')) /\
    Forall2 (fun l p => heap s' !! l = Some (CPart p)) items' ps /\
    Forall (fun l => l ∉ dom (heap s)) items'.
Proof.
  intros Hitems. revert ps s Hitems.
  induction items as [|l items IH]; intros ps s Hitems.
  - inversion Hitems; subst. exists [], s.
    split; [done|]. split; [done|]. split; [done|]. split; constructor.
  - inversion Hitems as [|? p ? ps' Hl Hrest]; subst.
    set (l' := fresh (dom (heap s))).
    set (s1 := set_heap (insert l' (CPart p)) s).
    assert (Hsub1 : heap s ⊆ heap s1) by apply alloc_subseteq.
    destruct (IH ps' s1) as (items' & s' & Hmap & Hsub & Hcl & Hcells & Hfresh).
    { eapply Forall2_impl; [exact Hrest|]. intros i q Hi.
      exact (lookup_weaken _ _ _ _ Hi Hsub1). }
    exists (l' :: items'), s'. split; [|split; [|split; [|split]]].
    + cbn [mapM]. rewrite (bind_eq _ _ _ _ _ (spread_part_eq _ _ _ Hl)).
      fold l'. fold s1. by rewrite (bind_eq _ _ _ _ _ Hmap).
    + by etrans.
    + intros h0 Hn. apply Hcl. by apply new_closed_alloc.
    + constructor; [|done]. eapply lookup_weaken; [|exact Hsub].
      apply lookup_insert_eq.
    + constructor; [apply is_fresh|]. eapply Forall_impl; [exact Hfresh|].
      intros i Hi Hin. apply Hi. by eapply subseteq_dom.
Qed.

Lemma fresh_not_in_base (h0 h : gmap loc cell) ls :
  h0 ⊆ h -> Forall (fun l => l ∉ dom h) ls -> Forall (fun l => l ∉ dom h0) ls.
Proof.
  intros Hsub Hls. eapply Forall_impl; [exact Hls|]. intros l Hl Hin.
  apply Hl. by eapply subseteq_dom.
Qed.

Lemma cloneDisplayParts_spec arr ps s :
  view_parts (heap s) arr = Some ps ->
  exists arr' items' s',
    cloneDisplayParts arr s = Some (arr', s') /\
    heap s ⊆ heap s' /\
    (forall h0, new_closed h0 (heap s) -> new_closed h0 (heap s')) /\
    (arr' ∉ dom (heap s)) /\
    heap s' !! arr' = Some (CArray items') /\
    Forall2 (fun l p => heap s' !! l = Some (CPart p)) items' ps /\
    Forall (fun l => l ∉ dom (heap s)) items'.
Proof.
  intros Hv. apply view_parts_Some in Hv as (items & Harr & Hitems).
  destruct (mapM_spread_part_spec items ps s Hitems)
    as (items' & s1 & Hmap & Hsub & Hcl & Hcells & Hfresh).
  set (arr' := fresh (dom (heap s1))).
  set (s2 := set_heap (insert arr' (CArray items')) s1).
  assert (Hsub2 : heap s1 ⊆ heap s2) by apply alloc_subseteq.
  exists arr', items', s2. split; [|split; [|split; [|split; [|split; [|split]]]]].
  - unfold cloneDisplayParts.
    rewrite (bind_eq _ _ _ _ _ (load_array_eq _ _ _ Harr)).
    by rewrite (bind_eq _ _ _ _ _ Hmap).
  - by etrans.
  - intros h0 Hn. apply new_closed_alloc; [by apply Hcl|].
    eapply fresh_not_in_base; [|exact Hfresh]. by destruct Hn.
  - intros Hin. apply (is_fresh (dom (heap s1))). by eapply subseteq_dom.
  - apply lookup_insert_eq.
  - eapply Forall2_impl; [exact Hcells|]. intros l p Hl.
    exact (lookup_weaken _ _ _ _ Hl Hsub2).
  - done.
Qed.

Lemma CommentTag_clone_spec t tg s :
  view_tag (heap s) t = Some tg ->
  exists t' s',
    CommentTag_clone t s = Some (t', s') /\
    heap s ⊆ heap s' /\
    (forall h0, new_closed h0 (heap s) -> new_closed h0 (heap s')) /\
    (t' ∉ dom (heap s)) /\
    view_tag (heap s') t' = Some (cloned_tag tg).
Proof.
  unfold view_tag. intros Hv.
  destruct (heap s !! t) as [[| | | | tag name content | | |]|] eqn:Ht; try done.
  destruct (view_parts (heap s) content) as [ps|] eqn:Hc; [|done].
  injection Hv as <-.
  destruct (cloneDisplayParts_spec content ps s Hc)
    as (content' & items' & s1 & Hclone & Hsub & Hcl & Hfresh & Harr & Hcells
        & Hitems).
  set (t' := fresh (dom (heap s1))).
  set (name' := if name_truthy name then name else None).
  set (s2 := set_heap (insert t' (CTag tag name' content')) s1).
  assert (Hsub2 : heap s1 ⊆ heap s2) by apply alloc_subseteq.
  exists t', s2. split; [|split; [|split; [|split]]].
  - unfold CommentTag_clone. rewrite (bind_eq _ _ _ _ _ (load_eq _ _ _ Ht)).
    rewrite (bind_eq _ _ _ _ _ Hclone).
    unfold bind at 1, alloc at 1. fold t'. subst s2 name'.
    destruct (name_truthy name).
    + unfold bind, store, ret. cbn. do 2 f_equal. unfold set_heap. cbn.
      by rewrite insert_insert_eq.
    + done.
  - by etrans.
  - intros h0 Hn. apply new_closed_alloc; [by apply Hcl|].
    cbn. constructor; [|constructor]. intros Hin. apply Hfresh.
    destruct Hn as [Hn _]. by eapply subseteq_dom.
  - intros Hin. apply (is_fresh (dom (heap s1))). by eapply subseteq_dom.
  - unfold view_tag. cbn. rewrite lookup_insert_eq.
    rewrite (view_parts_intro _ content' items' ps); [done| |].
    + exact (lookup_weaken _ _ _ _ Harr Hsub2).
    + eapply Forall2_impl; [exact Hcells|]. intros l p Hl.
      exact (lookup_weaken _ _ _ _ Hl Hsub2).
Qed.

Lemma mapM_CommentTag_clone_spec tags tgs s :
  Forall2 (fun t tg => view_tag (heap s) t = Some tg) tags tgs ->
  exists tags' s',
    mapM CommentTag_clone tags s = Some (tags', s') /\
    heap s ⊆ heap s' /\
    (forall h0, new_closed h0 (heap s) -> new_closed h0 (heap s')) /\
    Forall2 (fun t tg => view_tag (heap s') t = Some (cloned_tag tg)) tags' tgs /\
    Forall (fun t => t ∉ dom (heap s)) tags'.
Proof.
  intros Htags. revert tgs s Htags.
  induction tags as [|t tags IH]; intros tgs s Htags.
  - inversion Htags; subst. exists [], s.
    split; [done|]. split; [done|]. split; [done|]. split; constructor.
  - inversion Htags as [|? tg ? tgs' Ht Hrest]; subst.
    destruct (CommentTag_clone_spec t tg s Ht)
      as (t' & s1 & Hclone & Hsub1 & Hcl1 & Hfresh1 & Hview1).
    destruct (IH tgs' s1) as (tags' & s' & Hmap & Hsub & Hcl & Hviews & Hfresh).
    { eapply Forall2_impl; [exact Hrest|]. intros i q Hi.
      by eapply view_tag_weaken. }
    exists (t' :: tags'), s'. split; [|split; [|split; [|split]]].
    + cbn [mapM]. rewrite (bind_eq _ _ _ _ _ Hclone).
      by rewrite (bind_eq _ _ _ _ _ Hmap).
    + by etrans.
    + intros h0 Hn. by apply Hcl, Hcl1.
    + constructor; [|done]. by eapply view_tag_weaken.
    + constructor; [done|]. eapply Forall_impl; [exact Hfresh|].
      intros i Hi Hin. apply Hi. by eapply subseteq_dom.
Qed.

Lemma heap_set_heap f s : heap (set_heap f s) = f (heap s).
Proof. done. Qed.

Lemma label_split (ps : list CommentDisplayPart) :
  Forall (fun q => is_label_part q = false) ps \/
  exists pre p post,
    ps = pre ++ p :: post /\
    Forall (fun q => is_label_part q = false) pre /\ is_label_part p = true.
Proof.
  destruct (findIndex_spec is_label_part ps) as [[_ Hall] | Hex]; [by left|].
  by right.
Qed.

(** The constructor on a summary array of its own: it writes the new
    comment and, when it finds a label, the summary array, and nothing
    else. *)
Lemma new_Comment_spec s sm b m items ps :
  heap s !! sm = Some (CArray items) ->
  Forall2 (fun l p => heap s !! l = Some (CPart p)) items ps ->
  exists c s' items' ps' lbl,
    new_Comment sm b m s = Some (c, s') /\
    (c ∉ dom (heap s)) /\
    heap s' !! c = Some (CComment sm b m lbl None None) /\
    heap s' !! sm = Some (CArray items') /\
    Forall2 (fun l p => heap s' !! l = Some (CPart p)) items' ps' /\
    (forall a, a <> c -> a <> sm -> heap s' !! a = heap s !! a) /\
    (forall h0, new_closed h0 (heap s) ->
                Forall (fun l => l ∉ dom h0) (sm :: b :: m :: items) ->
                new_closed h0 (heap s')).
Proof.
  intros Hsm Hitems.
  set (c := fresh (dom (heap s))).
  set (s1 := set_heap (insert c (CComment sm b m None None None)) s).
  assert (Hsub : heap s ⊆ heap s1) by apply alloc_subseteq.
  assert (Hc1 : heap s1 !! c = Some (CComment sm b m None None None))
    by apply lookup_insert_eq.
  assert (Hcfresh : c ∉ dom (heap s)) by apply is_fresh.
  assert (Hcsm : c <> sm).
  { intros ->. apply Hcfresh. by eapply elem_of_dom_2. }
  assert (Hitems1 : Forall2 (fun l p => heap s1 !! l = Some (CPart p)) items ps).
  { eapply Forall2_impl; [exact Hitems|]. intros l p Hl.
    exact (lookup_weaken _ _ _ _ Hl Hsub). }
  assert (Hn1 : forall h0, new_closed h0 (heap s) ->
                  Forall (fun l => l ∉ dom h0) (sm :: b :: m :: items) ->
                  new_closed h0 (heap s1)).
  { intros h0 Hn Hf. apply new_closed_alloc; [done|]. cbn.
    inversion Hf as [|? ? ? Hf1]; subst. inversion Hf1 as [|? ? ? Hf2]; subst.
    inversion Hf2; subst. by repeat constructor. }
  destruct (label_split ps) as [Hno | (pre & p & post & -> & Hno & Hp)].
  - exists c, s1, items, ps, None.
    split; [|split; [done|split; [done|split; [|split; [done|split; [|done]]]]]].
    + unfold new_Comment. unfold bind at 1, alloc at 1. fold c. fold s1.
      by rewrite (bind_eq _ _ _ _ _
                    (extractLabelTag_absent s1 c sm b m None None None items ps
                       Hc1 (lookup_weaken _ _ _ _ Hsm Hsub) Hitems1 Hno)).
    + exact (lookup_weaken _ _ _ _ Hsm Hsub).
    + intros a Hac _. cbn. by rewrite lookup_insert_ne.
  - apply Forall2_app_inv_r in Hitems1 as (ipre & irest & Hpre & Hrest & ->).
    apply Forall2_cons_inv_r in Hrest as (il & ipost & Hil & Hpost & ->).
    set (s2 := set_heap (fun h =>
                 <[c := CComment sm b m (Some (part_text p)) None None]>
                   (<[sm := CArray (ipre ++ ipost)]> h)) s1).
    exists c, s2, (ipre ++ ipost), (pre ++ post), (Some (part_text p)).
    split; [|split; [done|split; [|split; [|split; [|split]]]]].
    + unfold new_Comment. unfold bind at 1, alloc at 1. fold c. fold s1.
      by rewrite (bind_eq _ _ _ _ _
                    (extractLabelTag_found s1 c sm b m None None None ipre il
                       ipost pre p Hc1 (lookup_weaken _ _ _ _ Hsm Hsub) Hpre
                       Hno Hil Hp)).
    + apply lookup_insert_eq.
    + cbn. rewrite lookup_insert_ne by done. apply lookup_insert_eq.
    + pose proof (lookup_weaken _ _ _ _ Hsm Hsub) as Hsm1.
      apply Forall2_app; (eapply Forall2_impl; [eassumption|]);
        intros l q Hl; cbv beta in Hl;
        assert (c <> l) by (intros E; rewrite E in Hc1; congruence);
        assert (sm <> l) by (intros E; rewrite E in Hsm1; congruence);
        subst s2; rewrite heap_set_heap, !lookup_insert_ne by done;
        exact Hl.
    + intros a Hac Hasm. cbn. by rewrite !lookup_insert_ne.
    + intros h0 Hn Hf. pose proof (Hn1 h0 Hn Hf) as Hn1'.
      inversion Hf as [|? ? Hsm0 Hf1]; subst.
      inversion Hf1 as [|? ? Hb0 Hf2]; subst.
      inversion Hf2 as [|? ? Hm0 Hf3]; subst.
      apply new_closed_write; [apply new_closed_write; [done|done|]| |].
      * cbn. rewrite Forall_app in Hf3. destruct Hf3 as [Hf3 Hf4].
        inversion Hf4; subst. by apply Forall_app.
      * eapply new_closed_dom; [exact Hn|done].
      * by repeat constructor.
Qed.

Lemma repr_type_weaken h h' l t :
  h ⊆ h' -> repr_type h l t -> repr_type h' l t.
Proof.
  intros Hsub Hr. induction Hr as [l v Hl | l o i to ti Hl _ IHo _ IHi].
  - apply repr_other. exact (lookup_weaken _ _ _ _ Hl Hsub).
  - eapply repr_indexed; [exact (lookup_weaken _ _ _ _ Hl Hsub) | done | done].
Qed.

Lemma repr_type_agree h h2 l t :
  repr_type h l t -> (forall a, reach h l a -> h2 !! a = h !! a) ->
  repr_type h2 l t.
Proof.
  intros Hr. induction Hr as [l v Hl | l o i to ti Hl _ IHo _ IHi]; intros Hag.
  - apply repr_other. rewrite Hag; [done|constructor].
  - assert (Hf : forall f, f ∈ [o; i] -> points_to h l f).
    { intros f Hf. by exists (CIndexedAccess o i). }
    eapply repr_indexed.
    + rewrite Hag; [done|constructor].
    + apply IHo. intros a Ha. apply Hag. eapply rtc_l; [|exact Ha].
      apply Hf. set_solver.
    + apply IHi. intros a Ha. apply Hag. eapply rtc_l; [|exact Ha].
      apply Hf. set_solver.
Qed.

Lemma reach_type_dom h l t a : repr_type h l t -> reach h l a -> a ∈ dom h.
Proof.
  intros Hr. induction Hr as [l v Hl | l o i to ti Hl _ IHo _ IHi]; intros Hreach.
  - apply rtc_inv in Hreach as [<- | (f & (c & Hc & Hf) & _)];
      [by eapply elem_of_dom_2|].
    rewrite Hl in Hc. injection Hc as <-. by apply elem_of_nil in Hf.
  - apply rtc_inv in Hreach as [<- | (f & (c & Hc & Hf) & Hreach)];
      [by eapply elem_of_dom_2|].
    rewrite Hl in Hc. injection Hc as <-. cbn in Hf.
    apply elem_of_cons in Hf as [-> | Hf]; [by apply IHo|].
    apply list_elem_of_singleton in Hf as ->. by apply IHi.
Qed.

(** With enough fuel [clone] returns a new tree of new objects. *)
Lemma Type_clone_spec t l s fuel :
  repr_type (heap s) l t -> (depth t <= fuel)%nat ->
  exists l' s',
    Type_clone fuel l s = Some (l', s') /\
    heap s ⊆ heap s' /\
    (forall h0, new_closed h0 (heap s) -> new_closed h0 (heap s')) /\
    (l' ∉ dom (heap s)) /\
    repr_type (heap s') l' t.
Proof.
  revert l s fuel. induction t as [v | to IHo ti IHi]; intros l s fuel Hr Hfuel.
  - inversion Hr as [? ? Hl|]; subst. destruct fuel as [|fuel]; [cbn in Hfuel; lia|].
    exists (fresh (dom (heap s))), (set_heap (insert (fresh (dom (heap s))) (COtherType v)) s).
    split; [|split; [|split; [|split]]].
    + cbn [Type_clone]. by rewrite (bind_eq _ _ _ _ _ (load_eq _ _ _ Hl)).
    + apply alloc_subseteq.
    + intros h0 Hn. by apply new_closed_alloc.
    + apply is_fresh.
    + apply repr_other. apply lookup_insert_eq.
  - inversion Hr as [|? o i ? ? Hl Hro Hri]; subst.
    destruct fuel as [|fuel]; [cbn in Hfuel; lia|]. cbn in Hfuel.
    destruct (IHo o s fuel Hro ltac:(lia))
      as (o' & s1 & Hco & Hsub1 & Hcl1 & Hfo & Hro').
    destruct (IHi i s1 fuel (repr_type_weaken _ _ _ _ Hsub1 Hri) ltac:(lia))
      as (i' & s2 & Hci & Hsub2 & Hcl2 & Hfi & Hri').
    set (l' := fresh (dom (heap s2))).
    set (s3 := set_heap (insert l' (CIndexedAccess o' i')) s2).
    assert (Hsub3 : heap s2 ⊆ heap s3) by apply alloc_subseteq.
    exists l', s3. split; [|split; [|split; [|split]]].
    + cbn [Type_clone]. rewrite (bind_eq _ _ _ _ _ (load_eq _ _ _ Hl)).
      rewrite (bind_eq _ _ _ _ _ Hco). by rewrite (bind_eq _ _ _ _ _ Hci).
    + etrans; [done|]. by etrans.
    + intros h0 Hn. apply new_closed_alloc; [by apply Hcl2, Hcl1|].
      cbn. destruct Hn as [Hn _]. constructor; [|constructor; [|constructor]].
      * intros Hin. apply Hfo. by eapply subseteq_dom.
      * intros Hin. apply Hfi. eapply subseteq_dom; [|exact Hin]. by etrans.
    + intros Hin. apply (is_fresh (dom (heap s2))).
      eapply subseteq_dom; [|exact Hin]. by etrans.
    + eapply repr_indexed; [apply lookup_insert_eq| |].
      * eapply repr_type_weaken; [|exact Hro']. by etrans.
      * by eapply repr_type_weaken.
Qed.

Lemma lookup_old (h h' : gmap loc cell) a :
  h ⊆ h' -> a ∈ dom h -> h' !! a = h !! a.
Proof.
  intros Hsub Ha. apply elem_of_dom in Ha as [c Hc]. rewrite Hc.
  by eapply lookup_weaken.
Qed.

(** [Comment.clone] returns a new comment made of new objects, and leaves
    the store it started from as it was. *)
Lemma Comment_clone_spec s x C :
  view_comment (heap s) x = Some C ->
  exists y s' C',
    Comment_clone x s = Some (y, s') /\
    new_closed (heap s) (heap s') /\
    (y ∉ dom (heap s)) /\
    view_comment (heap s') y = Some C'.
Proof.
  unfold view_comment at 1. intros Hv.
  destruct (heap s !! x) as [[| | | | | ts tb tm lbl sp di | |]|] eqn:Hx; try done.
  destruct (view_parts (heap s) ts) as [ps|] eqn:Hts; [|done].
  destruct (heap s !! tb) as [[| | tags | | | | |]|] eqn:Htb; try done.
  destruct (heap s !! tm) as [[| | | mods | | | |]|] eqn:Htm; try done.
  destruct (view_list (view_tag (heap s)) tags) as [tgs|] eqn:Htags; [|done].
  clear Hv. apply view_list_Forall2 in Htags.
  destruct (cloneDisplayParts_spec ts ps s Hts)
    as (sm & sitems & s1 & Hclone & Hsub1 & Hcl1 & Hsmfresh & Hsm1 & Hcells1
        & Hsitems).
  destruct (mapM_CommentTag_clone_spec tags tgs s1)
    as (tags' & s2 & Hmap & Hsub2 & Hcl2 & Hviews2 & Htagsfresh).
  { eapply Forall2_impl; [exact Htags|]. intros t tg Ht.
    by eapply view_tag_weaken. }
  set (b := fresh (dom (heap s2))).
  set (s3 := set_heap (insert b (CArray tags')) s2).
  set (m := fresh (dom (heap s3))).
  set (s4 := set_heap (insert m (CSet (Set_new mods))) s3).
  assert (Hsub3 : heap s2 ⊆ heap s3) by apply alloc_subseteq.
  assert (Hsub4 : heap s3 ⊆ heap s4) by apply alloc_subseteq.
  assert (Hsub24 : heap s2 ⊆ heap s4) by (by etrans).
  assert (Hsub14 : heap s1 ⊆ heap s4) by (by etrans).
  assert (Hsub04 : heap s ⊆ heap s4) by (by etrans).
  assert (Hb4 : heap s4 !! b = Some (CArray tags')).
  { eapply lookup_weaken; [|exact Hsub4]. apply lookup_insert_eq. }
  assert (Hm4 : heap s4 !! m = Some (CSet (Set_new mods)))
    by apply lookup_insert_eq.
  destruct (new_Comment_spec s4 sm b m sitems ps)
    as (c & s5 & items' & ps' & lbl' & Hnew & Hcfresh & Hc5 & Hsm5 & Hcells5
        & Hsame5 & Hcl5).
  { exact (lookup_weaken _ _ _ _ Hsm1 Hsub14). }
  { eapply Forall2_impl; [exact Hcells1|]. intros l p Hl.
    exact (lookup_weaken _ _ _ _ Hl Hsub14). }
  set (s6 := set_heap (insert c (CComment sm b m lbl' sp di)) s5).
  (* which objects are old, which are new *)
  assert (Hsm_dom1 : sm ∈ dom (heap s1)) by (by eapply elem_of_dom_2).
  assert (Hb_fresh2 : b ∉ dom (heap s2)) by apply is_fresh.
  assert (Hm_fresh3 : m ∉ dom (heap s3)) by apply is_fresh.
  assert (Hb_dom4 : b ∈ dom (heap s4)) by (by eapply elem_of_dom_2).
  assert (Hm_dom4 : m ∈ dom (heap s4)) by (by eapply elem_of_dom_2).
  assert (Hbsm : b <> sm).
  { intros E. apply Hb_fresh2. rewrite E. by eapply subseteq_dom. }
  assert (Hmsm : m <> sm).
  { intros E. apply Hm_fresh3. rewrite E.
    eapply subseteq_dom; [|exact Hsm_dom1].
    etrans; [exact Hsub2 | exact Hsub3]. }
  assert (Hbc : b <> c) by (intros E; apply Hcfresh; by rewrite <- E).
  assert (Hmc : m <> c) by (intros E; apply Hcfresh; by rewrite <- E).
  assert (Hsmc : sm <> c).
  { intros E. apply Hcfresh. rewrite <- E.
    eapply subseteq_dom; [exact Hsub14 | exact Hsm_dom1]. }
  assert (Hbase : new_closed (heap s) (heap s4)).
  { apply new_closed_alloc; [apply new_closed_alloc|].
    - apply Hcl2, Hcl1, new_closed_refl.
    - cbn. eapply fresh_not_in_base; [exact Hsub1|done].
    - done. }
  assert (Hnew_base : Forall (fun l => l ∉ dom (heap s)) (sm :: b :: m :: sitems)).
  { constructor; [done|]. constructor.
    { intros Hin. apply Hb_fresh2. eapply subseteq_dom; [|exact Hin].
      etrans; [exact Hsub1 | exact Hsub2]. }
    constructor; [|done].
    intros Hin. apply Hm_fresh3. eapply subseteq_dom; [|exact Hin].
    etrans; [exact Hsub1|]. etrans; [exact Hsub2 | exact Hsub3]. }
  assert (Hc_base : c ∉ dom (heap s)).
  { intros Hin. apply Hcfresh. eapply subseteq_dom; [exact Hsub04 | exact Hin]. }
  exists c, s6,
    {| summary := ps'; blockTags := cloned_tag <$> tgs;
       modifierTags := Set_new mods; label := lbl';
       sourcePath := sp; discoveryId := di |}.
  split; [|split; [|split; [done|]]].
  - unfold Comment_clone. rewrite (bind_eq _ _ _ _ _ (load_eq _ _ _ Hx)).
    rewrite (bind_eq _ _ _ _ _ Hclone).
    rewrite (bind_eq _ _ _ _ _
               (load_array_eq _ _ _ (lookup_weaken _ _ _ _ Htb Hsub1))).
    rewrite (bind_eq _ _ _ _ _ Hmap).
    unfold bind at 1, alloc at 1. fold b. fold s3.
    assert (Htm3 : heap s3 !! tm = Some (CSet mods)).
    { eapply lookup_weaken; [exact Htm|]. etrans; [exact Hsub1|].
      etrans; [exact Hsub2 | exact Hsub3]. }
    rewrite (bind_eq _ _ _ _ _ (load_set_eq _ _ _ Htm3)).
    unfold bind at 1, alloc at 1. fold m. fold s4.
    rewrite (bind_eq _ _ _ _ _ Hnew).
    by rewrite (bind_eq _ _ _ _ _ (load_eq _ _ _ Hc5)).
  - subst s6. rewrite heap_set_heap. apply new_closed_write.
    + by apply Hcl5.
    + done.
    + cbn. inversion Hnew_base as [|? ? ? Hf1]; subst.
      inversion Hf1 as [|? ? ? Hf2]; subst. inversion Hf2; subst.
      by repeat constructor.
  - unfold view_comment. subst s6. rewrite heap_set_heap, lookup_insert_eq.
    rewrite (view_parts_intro _ sm items' ps').
    2:{ by rewrite lookup_insert_ne. }
    2:{ eapply Forall2_impl; [exact Hcells5|]. intros l p Hl.
        rewrite lookup_insert_ne; [done|]. intros <-. congruence. }
    rewrite !lookup_insert_ne by done.
    rewrite (Hsame5 b), Hb4 by done. rewrite (Hsame5 m), Hm4 by done.
    assert (Hview : view_list
                      (view_tag (<[c := CComment sm b m lbl' sp di]> (heap s5)))
                      tags'
                    = Some (cloned_tag <$> tgs)).
    { apply view_list_Forall2. apply Forall2_fmap_r.
      apply Forall2_same_length_lookup_2; [by eapply Forall2_length|].
      intros k t tg Ht Htg.
      pose proof (Forall2_lookup_lr _ _ _ _ _ _ Hviews2 Ht Htg) as Hview2.
      cbv beta in Hview2. unfold compose. rewrite <- Hview2.
      apply view_tag_agree.
      intros a Ha.
      pose proof (reach_tag_dom _ _ _ _ Hview2 Ha) as Ha2.
      assert (Ha1 : a ∉ dom (heap s1)).
      { eapply (reach_new (heap s1) (heap s2) t);
          [apply Hcl2, new_closed_refl | | done].
        rewrite Forall_forall in Htagsfresh. apply Htagsfresh.
        by eapply list_elem_of_lookup_2. }
      assert (a <> sm) by (intros E; apply Ha1; by rewrite E).
      assert (a <> c).
      { intros E. apply Hcfresh. rewrite <- E.
        eapply subseteq_dom; [exact Hsub24 | exact Ha2]. }
      rewrite lookup_insert_ne by done. rewrite Hsame5 by done.
      by apply lookup_old. }
    by rewrite Hview.
Qed.

Lemma IndexedAccessType_clone_eq fuel x s o i :
  heap s !! x = Some (CIndexedAccess o i) ->
  IndexedAccessType_clone fuel x s = Type_clone (S fuel) x s.
Proof.
  intros Hx. unfold IndexedAccessType_clone. cbn [Type_clone].
  by rewrite !(bind_eq _ _ _ _ _ (load_eq _ _ _ Hx)).
Qed.

(** What is reachable from a new object is not reachable from an object
    that was complete before. *)
Lemma reach_disjoint h h' x y a :
  new_closed h h' -> y ∉ dom h ->
  (forall b, reach h x b -> b ∈ dom h) ->
  reach h' y a -> reach h' x a -> False.
Proof.
  intros Hn Hy Hcl Hya Hxa.
  apply (reach_new h h' y a Hn Hy Hya). apply Hcl.
  destruct Hn as [Hsub _]. by eapply reach_sub.
Qed.

(** C8.  [clone] of a comment and of an indexed access type returns an
    object other than its source, and no object is reachable from both; the
    source reads the same after the clone, and after any write to an object
    reachable from the clone; the clone reads the same after any write to an
    object reachable from the source. *)
Theorem clone_independence :
  (forall (s : state) (x : loc) (C : Comment),
      view_comment (heap s) x = Some C ->
      exists y s' C',
        Comment_clone x s = Some (y, s') /\
        y <> x /\
        view_comment (heap s') x = Some C /\
        view_comment (heap s') y = Some C' /\
        (forall a, reach (heap s') y a -> ~ reach (heap s') x a) /\
        (forall a c, reach (heap s') y a ->
                     view_comment (<[a := c]> (heap s')) x = Some C) /\
        (forall a c, reach (heap s') x a ->
                     view_comment (<[a := c]> (heap s')) y = Some C')) /\
  (forall (s : state) (x : loc) (O I : SomeType) (fuel : nat),
      repr_type (heap s) x (IndexedAccessType O I) ->
      (Nat.max (depth O) (depth I) <= fuel)%nat ->
      exists y s',
        IndexedAccessType_clone fuel x s = Some (y, s') /\
        y <> x /\
        repr_type (heap s') x (IndexedAccessType O I) /\
        repr_type (heap s') y (IndexedAccessType O I) /\
        (forall a, reach (heap s') y a -> ~ reach (heap s') x a) /\
        (forall a c, reach (heap s') y a ->
                     repr_type (<[a := c]> (heap s')) x (IndexedAccessType O I)) /\
        (forall a c, reach (heap s') x a ->
                     repr_type (<[a := c]> (heap s')) y (IndexedAccessType O I))).
Proof.
  split.
  - intros s x C Hv.
    destruct (Comment_clone_spec s x C Hv) as (y & s' & C' & Hclone & Hn & Hy & Hv').
    pose proof Hn as [Hsub _].
    assert (Hx' : view_comment (heap s') x = Some C)
      by (by eapply view_comment_weaken).
    assert (Hcl : forall b, reach (heap s) x b -> b ∈ dom (heap s))
      by (intros b; by eapply reach_comment_dom).
    exists y, s', C'. split; [done|]. split.
    { intros ->. apply Hy. apply Hcl. constructor. }
    split; [done|]. split; [done|]. split.
    { intros a Hya Hxa. by eapply (reach_disjoint (heap s) (heap s') x y a). }
    split.
    + intros a c Ha. apply view_comment_insert; [done|].
      intros Hxa. by eapply (reach_disjoint (heap s) (heap s') x y a).
    + intros a c Ha. apply view_comment_insert; [done|].
      intros Hya. by eapply (reach_disjoint (heap s) (heap s') x y a).
  - intros s x O I fuel Hr Hfuel.
    assert (Hx : exists o i, heap s !! x = Some (CIndexedAccess o i)).
    { inversion Hr; subst. eauto. }
    destruct Hx as (o & i & Hx).
    destruct (Type_clone_spec (IndexedAccessType O I) x s (S fuel) Hr)
      as (y & s' & Hclone & Hsub & Hcl & Hy & Hr').
    { cbn. lia. }
    pose proof (Hcl (heap s) (new_closed_refl _)) as Hn.
    assert (Hrx : repr_type (heap s') x (IndexedAccessType O I))
      by (by eapply repr_type_weaken).
    assert (Hdom : forall b, reach (heap s) x b -> b ∈ dom (heap s))
      by (intros b; by eapply reach_type_dom).
    exists y, s'. split; [by rewrite (IndexedAccessType_clone_eq _ _ _ o i)|].
    split.
    { intros ->. apply Hy. apply Hdom. constructor. }
    split; [done|]. split; [done|]. split.
    { intros a Hya Hxa. by eapply (reach_disjoint (heap s) (heap s') x y a). }
    split.
    + intros a c Ha. eapply repr_type_agree; [exact Hrx|].
      intros b Hb. apply lookup_insert_ne. intros E. rewrite <- E in Hb.
      by eapply (reach_disjoint (heap s) (heap s') x y a).
    + intros a c Ha. eapply repr_type_agree; [exact Hr'|].
      intros b Hb. apply lookup_insert_ne. intros E. rewrite <- E in Hb.
      by eapply (reach_disjoint (heap s) (heap s') x y a).
Qed.

End Clone.

(** * Further properties *)

(** ** Combining and rendering *)

Section Rendering.
Context `{Collaborators}.

Lemma combineDisplayParts_cons p parts :
  combineDisplayParts (p :: parts) = combine_item p ++ combineDisplayParts parts.
Proof. unfold combineDisplayParts at 1. cbn [foldl]. by rewrite combine_foldl. Qed.

Lemma combineDisplayParts_concat parts :
  combineDisplayParts parts = concat (combine_item <$> parts).
Proof.
  induction parts as [|p parts IH]; [done|].
  by rewrite combineDisplayParts_cons, IH.
Qed.

(** X1.  [combineDisplayParts] of two lists one after the other is the
    text of the first followed by the text of the second. *)
Theorem combineDisplayParts_append (l1 l2 : list CommentDisplayPart) :
  combineDisplayParts (l1 ++ l2)
  = combineDisplayParts l1 ++ combineDisplayParts l2.
Proof. by rewrite !combineDisplayParts_concat, fmap_app, concat_app. Qed.

(** X2.  [displayPartsToMarkdown] renders a list piece by piece: the
    output for two lists one after the other is the output of the first
    followed by the output of the second. *)
Theorem displayPartsToMarkdown_append
    (l1 l2 : list CommentDisplayPart) (urlTo : Reflection -> jsstring)
    (useHtml : bool) :
  displayPartsToMarkdown (l1 ++ l2) urlTo useHtml
  = displayPartsToMarkdown l1 urlTo useHtml
    ++ displayPartsToMarkdown l2 urlTo useHtml.
Proof. by rewrite !displayPartsToMarkdown_concat, fmap_app, concat_app. Qed.

(** X3.  On a list of text and code parts only, [displayPartsToMarkdown]
    and [combineDisplayParts] give the same string, in both modes. *)
Theorem displayPartsToMarkdown_literal
    (parts : list CommentDisplayPart) (urlTo : Reflection -> jsstring)
    (useHtml : bool) :
  Forall (fun p => is_literal p = true) parts ->
  displayPartsToMarkdown parts urlTo useHtml = combineDisplayParts parts.
Proof.
  intros Hall. rewrite displayPartsToMarkdown_concat, combineDisplayParts_concat.
  f_equal. apply Forall_fmap_ext_1. eapply Forall_impl; [exact Hall|].
  intros p Hp. by destruct p.
Qed.

(** X4.  Relative-link parts are never rendered by
    [displayPartsToMarkdown]: the output is the output for the list without
    them. *)
Theorem displayPartsToMarkdown_relative_links
    (parts : list CommentDisplayPart) (urlTo : Reflection -> jsstring)
    (useHtml : bool) :
  displayPartsToMarkdown parts urlTo useHtml
  = displayPartsToMarkdown
      (List.filter (fun p => negb (is_relative_link p)) parts) urlTo useHtml.
Proof.
  rewrite !displayPartsToMarkdown_concat.
  induction parts as [|p parts IH]; [done|]. cbn [List.filter].
  destruct (is_relative_link p) eqn:Hp; cbn [negb].
  - rewrite fmap_cons. cbn [concat]. rewrite IH. by destruct p.
  - rewrite !fmap_cons. cbn [concat]. by rewrite IH.
Qed.

(** X5.  A [@linkcode] tag whose target is present but gives no URL (a
    symbol identifier, or a node whose URL is the empty string) is rendered
    as its bare text in HTML mode, and as its text between backquotes
    otherwise. *)
Theorem displayPartsToMarkdown_linkcode_without_url
    (urlTo : Reflection -> jsstring) (text : jsstring) (tg : InlineTarget)
    (ts : option jsstring) :
  target_truthy (Some tg) = true ->
  link_url urlTo tg = None \/ link_url urlTo tg = Some [] ->
  displayPartsToMarkdown [InlineTag (lit "@linkcode") text (Some tg) ts]
    urlTo true = text /\
  displayPartsToMarkdown [InlineTag (lit "@linkcode") text (Some tg) ts]
    urlTo false = lit "`" ++ text ++ lit "`".
Proof.
  intros Htt Hurl. rewrite !displayPartsToMarkdown_concat. cbn [fmap list_fmap concat].
  rewrite !app_nil_r. unfold rendered, markdown_part.
  replace (str_eqb (lit "@linkcode") (lit "@label")) with false by done.
  replace (str_eqb (lit "@linkcode") (lit "@inheritdoc")) with false by done.
  replace (str_eqb (lit "@linkcode") (lit "@link")) with false by done.
  replace (str_eqb (lit "@linkcode") (lit "@linkcode")) with true by done.
  cbn [orb]. rewrite Htt. cbn [default]. unfold markdown_link.
  replace (str_eqb (lit "@linkcode") (lit "@linkcode")) with true by done.
  destruct tg as [r | str | sid]; cbn in Hurl |- *.
  - destruct Hurl as [Hurl | Hurl]; [done|]. injection Hurl as ->. done.
  - destruct Hurl as [Hurl | Hurl]; [done|]. injection Hurl as ->. done.
  - done.
Qed.

End Rendering.

(** ** More on header and body *)

Section SplitMore.
Context `{Collaborators}.

Lemma includes_nl_false_iff s : includes_nl s = false <-> NL ∉ s.
Proof.
  induction s as [|c s IH]; [split; [intros _; apply not_elem_of_nil | done]|].
  rewrite includes_nl_cons, orb_false_iff, IH, not_elem_of_cons.
  destruct (N.eqb_spec c NL) as [->|Hne]; split.
  - by intros [Hc _].
  - intros [Hc _]. by destruct Hc.
  - intros [_ Hs]. split; [by intros <-|done].
  - intros [_ Hs]. by split.
Qed.

Lemma includes_nl_app a b :
  includes_nl (a ++ b) = includes_nl a || includes_nl b.
Proof. unfold includes_nl. apply existsb_app. Qed.

Lemma trimStart_elem_of s c : c ∈ trimStart s -> c ∈ s.
Proof.
  induction s as [|d s IH]; [done|]. cbn.
  destruct (is_ws d); [|done]. intros Hc. right. by apply IH.
Qed.

Lemma includes_nl_trim s : includes_nl s = false -> includes_nl (trim s) = false.
Proof.
  rewrite !includes_nl_false_iff. intros Hs Hin. apply Hs.
  unfold trim, trimEnd in Hin. rewrite elem_of_reverse in Hin.
  apply trimStart_elem_of in Hin. rewrite elem_of_reverse in Hin.
  by apply trimStart_elem_of.
Qed.

Lemma literal_no_newline p :
  is_literal p = true -> has_newline p = false ->
  includes_nl (part_text p) = false /\ combine_item p = part_text p.
Proof. by destruct p. Qed.

Lemma combine_literal_no_newline parts :
  Forall (fun p => is_literal p = true) parts ->
  Forall (fun p => has_newline p = false) parts ->
  includes_nl (combineDisplayParts parts) = false.
Proof.
  induction 1 as [|p parts Hp _ IH]; intros Hnl; [done|].
  inversion Hnl; subst.
  rewrite combineDisplayParts_cons, includes_nl_app, IH by done.
  destruct (literal_no_newline p Hp) as [Hn ->]; [done|]. by rewrite Hn.
Qed.

(** X6.  [splitPartsToHeaderAndBody] always returns: no list of parts makes
    it read a property of [undefined]. *)
Theorem split_returns (parts : list CommentDisplayPart) :
  exists header body, splitPartsToHeaderAndBody parts = Some (header, body).
Proof. destruct (split_total parts) as [[header body] Hs]. eauto. Qed.

(** X7.  The body is a tail of the given list, or a tail of it whose first
    part has its text cut to an end piece of that text: no part after the
    split point is dropped, added or reordered. *)
Theorem split_body_is_tail (parts : list CommentDisplayPart) :
  exists header body (k : nat),
    splitPartsToHeaderAndBody parts = Some (header, body) /\
    (body = drop k parts \/
     exists b rest t,
       drop k parts = b :: rest /\
       t `suffix_of` part_text b /\
       body = set_text t b :: rest).
Proof.
  destruct (findIndex_spec has_newline parts)
    as [[_ Hall] | (pre & x & post & -> & Hpre & Hx)].
  { exists (combineDisplayParts parts), [], (length parts).
    split; [by apply split_without_newline|]. left. by rewrite drop_all. }
  destruct x as [t | t | |]; try discriminate Hx.
  - destruct (includes_nl_split t Hx) as (a & b & -> & Ha).
    rewrite (split_at_text _ _ _ _ Hpre Ha). destruct b as [|c b]; cbn [truthy].
    + eexists _, _, (S (length pre)). split; [done|]. left.
      rewrite (drop_app_ge pre) by lia.
      by replace (S (length pre) - length pre)%nat with 1%nat by lia.
    + eexists _, _, (length pre). split; [done|]. right.
      exists (Text (a ++ NL :: c :: b)), post, (c :: b).
      rewrite drop_app_length. split; [done|]. split; [|done].
      cbn. apply suffix_app_r. by apply suffix_cons_r.
  - destruct pre as [|q pre _] using rev_ind.
    + rewrite app_nil_l, (split_code_first _ _ Hx).
      eexists _, _, 0%nat. split; [done|]. by left.
    + rewrite (split_before_code _ _ _ _ Hpre Hx). cbv zeta.
      assert (Hd1 : drop (length pre) ((pre ++ [q]) ++ Code t :: post)
                    = q :: Code t :: post).
      { rewrite <- app_assoc. apply drop_app_length. }
      assert (Hd2 : drop (length (pre ++ [q])) ((pre ++ [q]) ++ Code t :: post)
                    = Code t :: post) by apply drop_app_length.
      destruct (indexOf_nl (part_text q) =? -1).
      * eexists _, _, (length (pre ++ [q])). split; [done|]. by left.
      * destruct (truthy _) eqn:Htr.
        -- eexists _, _, (length pre). split; [done|]. right.
           exists q, (Code t :: post),
             (substring_from (indexOf_nl (part_text q) + 1) (part_text q)).
           split; [done|]. split; [|done].
           unfold substring_from. apply suffix_drop.
        -- eexists _, _, (length (pre ++ [q])). split; [done|]. by left.
Qed.

(** X8.  On a list of text and code parts only, the header has no line
    feed: it is one line. *)
Theorem split_header_one_line (parts : list CommentDisplayPart) :
  Forall (fun p => is_literal p = true) parts ->
  exists header body,
    splitPartsToHeaderAndBody parts = Some (header, body) /\
    includes_nl header = false.
Proof.
  intros Hlit.
  destruct (findIndex_spec has_newline parts)
    as [[_ Hall] | (pre & x & post & -> & Hpre & Hx)].
  { eexists _, _. split; [by apply split_without_newline|].
    by apply combine_literal_no_newline. }
  apply Forall_app in Hlit as [Hlit_pre Hlit_x].
  destruct x as [t | t | |]; try discriminate Hx.
  - destruct (includes_nl_split t Hx) as (a & b & -> & Ha).
    rewrite (split_at_text _ _ _ _ Hpre Ha). eexists _, _. split; [done|].
    apply includes_nl_trim. rewrite includes_nl_app, Ha.
    by rewrite combine_literal_no_newline.
  - destruct pre as [|q pre _] using rev_ind.
    + rewrite app_nil_l, (split_code_first _ _ Hx). by eexists _, _.
    + rewrite (split_before_code _ _ _ _ Hpre Hx). cbv zeta.
      apply Forall_app in Hpre as [Hpre Hq].
      apply Forall_app in Hlit_pre as [Hlit_pre Hlit_q].
      rewrite Forall_singleton in Hq. rewrite Forall_singleton in Hlit_q.
      destruct (literal_no_newline q Hlit_q Hq) as [Hn _].
      rewrite (indexOf_nl_none _ Hn). cbn [Z.eqb].
      eexists _, _. split; [done|].
      apply includes_nl_trim. rewrite includes_nl_app, Hn.
      by rewrite combine_literal_no_newline.
Qed.

End SplitMore.

(** ** The reading methods of [Comment] *)

Section MethodFacts.
Context `{Collaborators}.

Lemma visible_part_false x : visible_part x = false <-> x = Text [].
Proof.
  unfold visible_part, str_eqb. split.
  - destruct x as [t | | |]; cbn; try done.
    case_bool_decide; [by subst|done].
  - by intros ->.
Qed.

Lemma hasVisibleComponent_false this :
  hasVisibleComponent this = false
  <-> Forall (fun x => x = Text []) (summary this) /\ blockTags this = [].
Proof.
  unfold hasVisibleComponent. rewrite orb_false_iff. split.
  - intros [Hs Hb]. split.
    + apply Forall_forall. intros x Hx. apply visible_part_false.
      destruct (visible_part x) eqn:Hv; [|done].
      assert (existsb visible_part (summary this) = true); [|congruence].
      apply existsb_exists. exists x. split; [|done]. by apply list_elem_of_In.
    + destruct (blockTags this); [done|].
      apply Z.ltb_ge in Hb. cbn [length] in Hb. lia.
  - intros [Hs Hb]. split.
    + destruct (existsb visible_part (summary this)) eqn:He; [|done].
      apply existsb_exists in He as (x & Hx & Hv).
      apply list_elem_of_In in Hx. rewrite Forall_forall in Hs.
      rewrite (Hs x Hx) in Hv. done.
    + by rewrite Hb.
Qed.

(** X9.  [isEmpty] holds exactly of the comments whose summary is made of
    empty text parts, and which have no block tag and no modifier.  A code
    part, an inline tag or a relative link makes the comment non-empty
    whatever its text. *)
Theorem isEmpty_iff (this : Comment) :
  isEmpty this = true
  <-> Forall (fun x => x = Text []) (summary this)
      /\ blockTags this = [] /\ modifierTags this = [].
Proof.
  unfold isEmpty. rewrite andb_true_iff, negb_true_iff, hasVisibleComponent_false.
  split.
  - intros [[Hs Hb] Hm]. split; [done|]. split; [done|].
    destruct (modifierTags this); [done|].
    apply Z.eqb_eq in Hm. cbn [length] in Hm. lia.
  - intros (Hs & Hb & Hm). by rewrite Hm.
Qed.

(** X10.  A comment without a visible component shows nothing: its summary
    combines and renders to the empty string, and splits into an empty
    header and an empty body. *)
Theorem invisible_renders_empty
    (this : Comment) (urlTo : Reflection -> jsstring) (useHtml : bool) :
  hasVisibleComponent this = false ->
  combineDisplayParts (summary this) = [] /\
  displayPartsToMarkdown (summary this) urlTo useHtml = [] /\
  splitPartsToHeaderAndBody (summary this) = Some ([], []).
Proof.
  intros [Hs _]%hasVisibleComponent_false.
  assert (Hc : combineDisplayParts (summary this) = []).
  { rewrite combineDisplayParts_concat.
    induction Hs as [|x l -> _ IH]; [done|]. by rewrite fmap_cons. }
  assert (Hnl : Forall (fun p => has_newline p = false) (summary this)).
  { eapply Forall_impl; [exact Hs|]. by intros x ->. }
  split; [done|]. split.
  - rewrite displayPartsToMarkdown_concat.
    induction Hs as [|x l -> _ IH]; [done|].
    rewrite fmap_cons. cbn [concat]. inversion Hnl; subst.
    rewrite combineDisplayParts_cons in Hc. apply app_eq_nil in Hc as [_ Hc].
    by rewrite IH.
  - rewrite split_without_newline by done. by rewrite Hc.
Qed.

Lemma find_filter_head {A} (f : A -> bool) (l : list A) :
  List.find f l = head (List.filter f l).
Proof. induction l as [|x l IH]; [done|]. cbn. by destruct (f x). Qed.

Lemma find_andb {A} (f g : A -> bool) (l : list A) :
  List.find (fun x => f x && g x) l = List.find g (List.filter f l).
Proof.
  induction l as [|x l IH]; [done|]. cbn.
  destruct (f x); cbn; [|done]. by destruct (g x).
Qed.

(** X11.  [getTag] is the first element of [getTags], and absent exactly
    when [getTags] is empty. *)
Theorem getTag_head_getTags (tagName : jsstring) (this : Comment) :
  getTag tagName this = head (getTags tagName this) /\
  (getTag tagName this = None <-> getTags tagName this = []).
Proof.
  unfold getTag, getTags. rewrite find_filter_head. split; [done|].
  by destruct (List.filter _ _).
Qed.

(** [getTags] returns the block tags of that name and no other, in the
    order of [blockTags]. *)
Lemma getTags_spec (tagName : jsstring) (this : Comment) :
  sublist (getTags tagName this) (blockTags this) /\
  forall tag, tag ∈ getTags tagName this
              <-> tag ∈ blockTags this /\ tag_tag tag = tagName.
Proof.
  unfold getTags. split.
  - induction (blockTags this) as [|x l IH]; [done|]. cbn.
    destruct (str_eqb _ _); by constructor.
  - intros tag. rewrite !list_elem_of_In, filter_In. unfold str_eqb.
    by rewrite bool_decide_eq_true.
Qed.

(** X12.  [getIdentifiedTag] is the first tag of [getTags] whose name is
    the identifier; a tag it returns is a block tag with that tag name and
    that name. *)
Theorem getIdentifiedTag_spec (identifier tagName : jsstring) (this : Comment) :
  getIdentifiedTag identifier tagName this
  = List.find (name_is identifier) (getTags tagName this) /\
  forall tag, getIdentifiedTag identifier tagName this = Some tag ->
              tag ∈ blockTags this /\ tag_tag tag = tagName /\
              tag_name tag = Some identifier.
Proof.
  unfold getIdentifiedTag, getTags. split; [apply find_andb|].
  intros tag [Hin Hf]%find_some. apply list_elem_of_In in Hin.
  apply andb_true_iff in Hf as [Ht Hn]. unfold str_eqb in Ht.
  apply bool_decide_eq_true in Ht. unfold name_is in Hn.
  destruct (tag_name tag) as [n|]; [|done]. unfold str_eqb in Hn.
  apply bool_decide_eq_true in Hn. by subst.
Qed.

Lemma elem_of_Set_delete x y s : x ∈ Set_delete y s <-> x ∈ s /\ x <> y.
Proof.
  unfold Set_delete. rewrite !list_elem_of_In, filter_In. unfold str_eqb.
  rewrite negb_true_iff, bool_decide_eq_false. done.
Qed.

(** X13.  After [removeModifier] the comment no longer has that modifier,
    the other modifiers are as before, and nothing else of the comment
    changes. *)
Theorem removeModifier_spec (tagName : jsstring) (this : Comment) :
  hasModifier tagName (removeModifier tagName this) = false /\
  (forall other, other <> tagName ->
     hasModifier other (removeModifier tagName this) = hasModifier other this) /\
  sublist (modifierTags (removeModifier tagName this)) (modifierTags this) /\
  (hasModifier tagName this = false -> removeModifier tagName this = this).
Proof.
  unfold hasModifier, Set_has. cbn [removeModifier modifierTags].
  split; [|split; [|split]].
  - apply bool_decide_eq_false. rewrite elem_of_Set_delete. by intros [_ ?].
  - intros other Hne. apply bool_decide_ext. rewrite elem_of_Set_delete. tauto.
  - unfold Set_delete. induction (modifierTags this) as [|x l IH]; [done|]. cbn.
    destruct (negb _); by constructor.
  - intros Hno%bool_decide_eq_false. destruct this as [sm b m l sp di].
    unfold removeModifier. cbn in *. f_equal.
    unfold Set_delete. induction m as [|x m IH]; [done|]. cbn.
    apply not_elem_of_cons in Hno as [Hne Hno].
    replace (str_eqb x tagName) with false
      by (symmetry; by apply bool_decide_eq_false_2).
    cbn. by rewrite IH.
Qed.

Section LinkedFacts.
Context (isLinkedReferenceType : SomeType -> bool).

(** X14.  [hasAnyLinkedReferenceType] holds exactly when some level of the
    hierarchy that is not the target level has a linked reference type;
    an absent hierarchy has none. *)
Theorem hasAnyLinkedReferenceType_iff (h : DeclarationHierarchy) :
  hasAnyLinkedReferenceType isLinkedReferenceType None = false /\
  (hasAnyLinkedReferenceType isLinkedReferenceType (Some h) = true
   <-> exists types isTarget type,
         (types, isTarget) ∈ levels h /\ isTarget <> Some true /\
         type ∈ types /\ isLinkedReferenceType type = true).
Proof.
  split; [done|]. cbn [hasAnyLinkedReferenceType].
  assert (Hlevel : forall types isTarget,
    not_target isTarget && existsb isLinkedReferenceType types = true
    <-> isTarget <> Some true /\
        exists type, type ∈ types /\ isLinkedReferenceType type = true).
  { intros types isTarget. rewrite andb_true_iff, existsb_exists.
    setoid_rewrite list_elem_of_In.
    assert (not_target isTarget = true <-> isTarget <> Some true) as ->; [|done].
    by destruct isTarget as [[]|]. }
  induction h as [types isTarget | types isTarget next IH];
    cbn [hasAnyLinkedReferenceType_at levels].
  - destruct (not_target isTarget && existsb _ types) eqn:E.
    + apply Hlevel in E as [Ht (type & Hin & Hl)]. split; [|done]. intros _.
      exists types, isTarget, type. by rewrite list_elem_of_singleton.
    + split; [done|]. intros (types' & isTarget' & type & Hin & Ht & Hty & Hl).
      apply list_elem_of_singleton in Hin. injection Hin as -> ->.
      assert (not_target isTarget && existsb isLinkedReferenceType types = true);
        [|congruence].
      apply Hlevel. eauto.
  - destruct (not_target isTarget && existsb _ types) eqn:E.
    + apply Hlevel in E as [Ht (type & Hin & Hl)]. split; [|done]. intros _.
      exists types, isTarget, type. split; [left|done].
    + rewrite IH. split.
      * intros (types' & isTarget' & type & Hin & Hrest).
        exists types', isTarget', type. split; [by right|done].
      * intros (types' & isTarget' & type & Hin & Ht & Hty & Hl).
        apply elem_of_cons in Hin as [Heq | Hin].
        -- injection Heq as -> ->.
           assert (not_target isTarget && existsb isLinkedReferenceType types = true);
             [|congruence].
           apply Hlevel. eauto.
        -- exists types', isTarget', type. done.
Qed.

End LinkedFacts.

End MethodFacts.

(** ** The value of a clone *)

Section CloneValue.
Context `{Collaborators}.
Import Store.

Lemma remove_label_none (ps : list CommentDisplayPart) :
  Forall (fun q => is_label_part q = false) ps ->
  remove_label ps = ps /\ first_label ps = None.
Proof.
  unfold first_label. induction 1 as [|p ps Hp _ [IH1 IH2]]; [done|].
  cbn. rewrite Hp, IH1. split; [done|].
  by destruct (List.find is_label_part ps).
Qed.

Lemma remove_label_found (pre post : list CommentDisplayPart) p :
  Forall (fun q => is_label_part q = false) pre -> is_label_part p = true ->
  remove_label (pre ++ p :: post) = pre ++ post /\
  first_label (pre ++ p :: post) = Some (part_text p).
Proof.
  unfold first_label. intros Hpre Hp.
  induction Hpre as [|q pre Hq _ [IH1 IH2]]; cbn.
  - by rewrite Hp.
  - by rewrite Hq, IH1.
Qed.

Lemma view_parts_weaken h h' l ps :
  h ⊆ h' -> view_parts h l = Some ps -> view_parts h' l = Some ps.
Proof.
  intros Hsub (items & Harr & Hitems)%view_parts_Some.
  apply (view_parts_intro _ _ items); [by eapply lookup_weaken|].
  eapply Forall2_impl; [exact Hitems|]. intros a p Ha.
  exact (lookup_weaken _ _ _ _ Ha Hsub).
Qed.

(** The constructor on a summary array of its own, with the summary and
    the label it leaves. *)
Lemma new_Comment_exact s sm b m items ps :
  heap s !! sm = Some (CArray items) ->
  Forall2 (fun l p => heap s !! l = Some (CPart p)) items ps ->
  exists c s' items',
    new_Comment sm b m s = Some (c, s') /\
    (c ∉ dom (heap s)) /\
    heap s' !! c = Some (CComment sm b m (first_label ps) None None) /\
    heap s' !! sm = Some (CArray items') /\
    Forall2 (fun l p => heap s' !! l = Some (CPart p)) items' (remove_label ps) /\
    (forall a, a <> c -> a <> sm -> heap s' !! a = heap s !! a).
Proof.
  intros Hsm Hitems.
  set (c := fresh (dom (heap s))).
  set (s1 := set_heap (insert c (CComment sm b m None None None)) s).
  assert (Hsub : heap s ⊆ heap s1) by apply alloc_subseteq.
  assert (Hc1 : heap s1 !! c = Some (CComment sm b m None None None))
    by apply lookup_insert_eq.
  assert (Hcfresh : c ∉ dom (heap s)) by apply is_fresh.
  assert (Hcsm : c <> sm).
  { intros ->. apply Hcfresh. by eapply elem_of_dom_2. }
  assert (Hitems1 : Forall2 (fun l p => heap s1 !! l = Some (CPart p)) items ps).
  { eapply Forall2_impl; [exact Hitems|]. intros l p Hl.
    exact (lookup_weaken _ _ _ _ Hl Hsub). }
  destruct (label_split ps) as [Hno | (pre & p & post & -> & Hno & Hp)].
  - destruct (remove_label_none ps Hno) as [-> ->].
    exists c, s1, items.
    split; [|split; [done|split; [done|split; [|split; [done|]]]]].
    + unfold new_Comment. unfold bind at 1, alloc at 1. fold c. fold s1.
      by rewrite (bind_eq _ _ _ _ _
                    (extractLabelTag_absent s1 c sm b m None None None items ps
                       Hc1 (lookup_weaken _ _ _ _ Hsm Hsub) Hitems1 Hno)).
    + exact (lookup_weaken _ _ _ _ Hsm Hsub).
    + intros a Hac _. cbn. by rewrite lookup_insert_ne.
  - destruct (remove_label_found pre post p Hno Hp) as [-> ->].
    apply Forall2_app_inv_r in Hitems1 as (ipre & irest & Hpre & Hrest & ->).
    apply Forall2_cons_inv_r in Hrest as (il & ipost & Hil & Hpost & ->).
    set (s2 := set_heap (fun h =>
                 <[c := CComment sm b m (Some (part_text p)) None None]>
                   (<[sm := CArray (ipre ++ ipost)]> h)) s1).
    exists c, s2, (ipre ++ ipost).
    split; [|split; [done|split; [|split; [|split]]]].
    + unfold new_Comment. unfold bind at 1, alloc at 1. fold c. fold s1.
      by rewrite (bind_eq _ _ _ _ _
                    (extractLabelTag_found s1 c sm b m None None None ipre il
                       ipost pre p Hc1 (lookup_weaken _ _ _ _ Hsm Hsub) Hpre
                       Hno Hil Hp)).
    + apply lookup_insert_eq.
    + cbn. rewrite lookup_insert_ne by done. apply lookup_insert_eq.
    + pose proof (lookup_weaken _ _ _ _ Hsm Hsub) as Hsm1.
      apply Forall2_app; (eapply Forall2_impl; [eassumption|]);
        intros l q Hl; cbv beta in Hl;
        assert (c <> l) by (intros E; rewrite E in Hc1; congruence);
        assert (sm <> l) by (intros E; rewrite E in Hsm1; congruence);
        subst s2; rewrite heap_set_heap, !lookup_insert_ne by done;
        exact Hl.
    + intros a Hac Hasm. cbn. by rewrite !lookup_insert_ne.
Qed.

(** X15.  [cloneDisplayParts] returns a new array of new part objects that
    reads as the same list of parts, and changes no existing object. *)
Theorem cloneDisplayParts_copy
    (s : state) (arr : loc) (ps : list CommentDisplayPart) :
  view_parts (heap s) arr = Some ps ->
  exists arr' items' s',
    cloneDisplayParts arr s = Some (arr', s') /\
    heap s ⊆ heap s' /\
    (arr' ∉ dom (heap s)) /\
    heap s' !! arr' = Some (CArray items') /\
    Forall (fun l => l ∉ dom (heap s)) items' /\
    view_parts (heap s') arr' = Some ps /\
    view_parts (heap s') arr = Some ps.
Proof.
  intros Hv.
  destruct (cloneDisplayParts_spec arr ps s Hv)
    as (arr' & items' & s' & Hrun & Hsub & _ & Hfresh & Harr & Hcells & Hitems).
  exists arr', items', s'. split; [done|]. split; [done|]. split; [done|].
  split; [done|]. split; [done|]. split.
  - by eapply view_parts_intro.
  - by eapply view_parts_weaken.
Qed.

(** X16.  [CommentTag.clone] returns a new tag with the same tag name and
    the same content; the name is copied unless it is the empty string, in
    which case the clone has no name. *)
Theorem CommentTag_clone_value (s : state) (t : loc) (tg : CommentTag) :
  view_tag (heap s) t = Some tg ->
  exists t' s' tg',
    CommentTag_clone t s = Some (t', s') /\
    (t' ∉ dom (heap s)) /\
    heap s ⊆ heap s' /\
    view_tag (heap s') t' = Some tg' /\
    tag_tag tg' = tag_tag tg /\
    tag_content tg' = tag_content tg /\
    tag_name tg' = (if bool_decide (tag_name tg = Some []) then None
                    else tag_name tg).
Proof.
  intros Hv.
  destruct (CommentTag_clone_spec t tg s Hv)
    as (t' & s' & Hrun & Hsub & _ & Hfresh & Hview).
  exists t', s', (cloned_tag tg). split; [done|]. split; [done|].
  split; [done|]. split; [done|]. split; [done|]. split; [done|].
  cbn. destruct (tag_name tg) as [[|c n]|]; done.
Qed.

(** X17.  [Comment.clone] does not copy [label]: the clone's label is the
    text of the first [@label] inline tag of the summary, which the
    constructor takes out of the cloned summary, and is undefined when the
    summary has none, whatever the label of the original.  Block tags are
    cloned one by one, the modifier tags, [sourcePath] and [discoveryId]
    are copied. *)
Theorem Comment_clone_value (s : state) (x : loc) (C : Comment) :
  view_comment (heap s) x = Some C ->
  exists y s',
    Comment_clone x s = Some (y, s') /\
    (y ∉ dom (heap s)) /\
    view_comment (heap s') y = Some (cloned_comment C) /\
    (Forall (fun q => is_label_part q = false) (summary C) ->
     summary (cloned_comment C) = summary C /\
     label (cloned_comment C) = None).
Proof.
  unfold view_comment at 1. intros Hv.
  destruct (heap s !! x) as [[| | | | | ts tb tm lbl sp di | |]|] eqn:Hx; try done.
  destruct (view_parts (heap s) ts) as [ps|] eqn:Hts; [|done].
  destruct (heap s !! tb) as [[| | tags | | | | |]|] eqn:Htb; try done.
  destruct (heap s !! tm) as [[| | | mods | | | |]|] eqn:Htm; try done.
  destruct (view_list (view_tag (heap s)) tags) as [tgs|] eqn:Htags; [|done].
  injection Hv as <-. apply view_list_Forall2 in Htags.
  destruct (cloneDisplayParts_spec ts ps s Hts)
    as (sm & sitems & s1 & Hclone & Hsub1 & Hcl1 & Hsmfresh & Hsm1 & Hcells1
        & Hsitems).
  destruct (mapM_CommentTag_clone_spec tags tgs s1)
    as (tags' & s2 & Hmap & Hsub2 & Hcl2 & Hviews2 & Htagsfresh).
  { eapply Forall2_impl; [exact Htags|]. intros t tg Ht.
    by eapply view_tag_weaken. }
  set (b := fresh (dom (heap s2))).
  set (s3 := set_heap (insert b (CArray tags')) s2).
  set (m := fresh (dom (heap s3))).
  set (s4 := set_heap (insert m (CSet (Set_new mods))) s3).
  assert (Hsub3 : heap s2 ⊆ heap s3) by apply alloc_subseteq.
  assert (Hsub4 : heap s3 ⊆ heap s4) by apply alloc_subseteq.
  assert (Hsub24 : heap s2 ⊆ heap s4) by (by etrans).
  assert (Hsub14 : heap s1 ⊆ heap s4) by (by etrans).
  assert (Hsub04 : heap s ⊆ heap s4) by (by etrans).
  assert (Hb4 : heap s4 !! b = Some (CArray tags')).
  { eapply lookup_weaken; [|exact Hsub4]. apply lookup_insert_eq. }
  assert (Hm4 : heap s4 !! m = Some (CSet (Set_new mods)))
    by apply lookup_insert_eq.
  destruct (new_Comment_exact s4 sm b m sitems ps)
    as (c & s5 & items' & Hnew & Hcfresh & Hc5 & Hsm5 & Hcells5 & Hsame5).
  { exact (lookup_weaken _ _ _ _ Hsm1 Hsub14). }
  { eapply Forall2_impl; [exact Hcells1|]. intros l p Hl.
    exact (lookup_weaken _ _ _ _ Hl Hsub14). }
  set (s6 := set_heap (insert c (CComment sm b m (first_label ps) sp di)) s5).
  assert (Hsm_dom1 : sm ∈ dom (heap s1)) by (by eapply elem_of_dom_2).
  assert (Hb_fresh2 : b ∉ dom (heap s2)) by apply is_fresh.
  assert (Hm_fresh3 : m ∉ dom (heap s3)) by apply is_fresh.
  assert (Hbsm : b <> sm).
  { intros E. apply Hb_fresh2. rewrite E. by eapply subseteq_dom. }
  assert (Hmsm : m <> sm).
  { intros E. apply Hm_fresh3. rewrite E.
    eapply subseteq_dom; [|exact Hsm_dom1].
    etrans; [exact Hsub2 | exact Hsub3]. }
  assert (Hb_dom4 : b ∈ dom (heap s4)) by (by eapply elem_of_dom_2).
  assert (Hm_dom4 : m ∈ dom (heap s4)) by (by eapply elem_of_dom_2).
  assert (Hbc : b <> c) by (intros E; apply Hcfresh; by rewrite <- E).
  assert (Hmc : m <> c) by (intros E; apply Hcfresh; by rewrite <- E).
  assert (Hsmc : sm <> c).
  { intros E. apply Hcfresh. rewrite <- E.
    eapply subseteq_dom; [exact Hsub14 | exact Hsm_dom1]. }
  exists c, s6. split; [|split; [|split]].
  - unfold Comment_clone. rewrite (bind_eq _ _ _ _ _ (load_eq _ _ _ Hx)).
    rewrite (bind_eq _ _ _ _ _ Hclone).
    rewrite (bind_eq _ _ _ _ _
               (load_array_eq _ _ _ (lookup_weaken _ _ _ _ Htb Hsub1))).
    rewrite (bind_eq _ _ _ _ _ Hmap).
    unfold bind at 1, alloc at 1. fold b. fold s3.
    assert (Htm3 : heap s3 !! tm = Some (CSet mods)).
    { eapply lookup_weaken; [exact Htm|]. etrans; [exact Hsub1|].
      etrans; [exact Hsub2 | exact Hsub3]. }
    rewrite (bind_eq _ _ _ _ _ (load_set_eq _ _ _ Htm3)).
    unfold bind at 1, alloc at 1. fold m. fold s4.
    rewrite (bind_eq _ _ _ _ _ Hnew).
    by rewrite (bind_eq _ _ _ _ _ (load_eq _ _ _ Hc5)).
  - intros Hin. apply Hcfresh. eapply subseteq_dom; [exact Hsub04 | exact Hin].
  - unfold view_comment, cloned_comment. cbn [summary blockTags modifierTags
      label sourcePath discoveryId].
    subst s6. rewrite heap_set_heap, lookup_insert_eq.
    rewrite (view_parts_intro _ sm items' (remove_label ps)).
    2:{ by rewrite lookup_insert_ne. }
    2:{ eapply Forall2_impl; [exact Hcells5|]. intros l p Hl.
        rewrite lookup_insert_ne; [done|]. intros <-. congruence. }
    rewrite !lookup_insert_ne by done.
    rewrite (Hsame5 b), Hb4 by done. rewrite (Hsame5 m), Hm4 by done.
    assert (Hview : view_list
                      (view_tag (<[c := CComment sm b m (first_label ps) sp di]>
                                   (heap s5)))
                      tags'
                    = Some (cloned_tag <$> tgs)).
    { apply view_list_Forall2. apply Forall2_fmap_r.
      apply Forall2_same_length_lookup_2; [by eapply Forall2_length|].
      intros k t tg Ht Htg.
      pose proof (Forall2_lookup_lr _ _ _ _ _ _ Hviews2 Ht Htg) as Hview2.
      cbv beta in Hview2. unfold compose. rewrite <- Hview2.
      apply view_tag_agree.
      intros a Ha.
      pose proof (reach_tag_dom _ _ _ _ Hview2 Ha) as Ha2.
      assert (Ha1 : a ∉ dom (heap s1)).
      { eapply (reach_new (heap s1) (heap s2) t);
          [apply Hcl2, new_closed_refl | | done].
        rewrite Forall_forall in Htagsfresh. apply Htagsfresh.
        by eapply list_elem_of_lookup_2. }
      assert (a <> sm) by (intros E; apply Ha1; by rewrite E).
      assert (a <> c).
      { intros E. apply Hcfresh. rewrite <- E.
        eapply subseteq_dom; [exact Hsub24 | exact Ha2]. }
      rewrite lookup_insert_ne by done. rewrite Hsame5 by done.
      by apply lookup_old. }
    by rewrite Hview.
  - cbn [cloned_comment summary label]. apply remove_label_none.
Qed.

(** X18.  On a summary without [@label] inline tag the constructor only
    creates the comment object, with an undefined label: the summary array
    and every other object stay as they are. *)
Theorem constructor_without_label
    (s0 : state) (s b m : loc) (ps : list CommentDisplayPart) :
  view_parts (heap s0) s = Some ps ->
  Forall (fun q => is_label_part q = false) ps ->
  exists c,
    (c ∉ dom (heap s0)) /\
    new_Comment s b m s0
    = Some (c, set_heap (insert c (CComment s b m None None None)) s0).
Proof.
  intros (items & Harr & Hitems)%view_parts_Some Hno.
  set (c := fresh (dom (heap s0))).
  set (s1 := set_heap (insert c (CComment s b m None None None)) s0).
  assert (Hsub : heap s0 ⊆ heap s1) by apply alloc_subseteq.
  exists c. split; [apply is_fresh|].
  unfold new_Comment. unfold bind at 1, alloc at 1. fold c. fold s1.
  rewrite (bind_eq _ _ _ _ _
             (extractLabelTag_absent s1 c s b m None None None items ps
                (lookup_insert_eq _ _ _) (lookup_weaken _ _ _ _ Harr Hsub)
                ltac:(eapply Forall2_impl; [exact Hitems|];
                      intros l p Hl; exact (lookup_weaken _ _ _ _ Hl Hsub))
                Hno)).
  done.
Qed.

End CloneValue.

(** ** More on deserialization *)

Section DeserializeMore.
Context `{Collaborators}.
Import Store.
Context (project : gmap Z Reflection) (oldIdToNewId : gmap Z Z).

Lemma links_of_ids items parts :
  length items = length parts ->
  (links_of items parts).*1 = omap link_id parts.
Proof.
  revert parts. induction items as [|l items IH]; intros [|part parts] Hlen;
    try done.
  cbn in Hlen. cbn [links_of omap list_omap].
  destruct (link_id part); cbn; rewrite IH by lia; done.
Qed.

(** X19.  [deserializeDisplayParts] never throws and never warns.  It
    queues no callback when no part refers to a graph node by number, and
    exactly one otherwise, for the identifiers of those parts in the order
    of the parts. *)
Theorem deserializeDisplayParts_defers
    (s : state) (parts : list JSONDisplayPart) :
  exists arr s',
    deserializeDisplayParts parts s = Some (arr, s') /\
    heap s ⊆ heap s' /\
    warnings s' = warnings s /\
    ((omap link_id parts = [] /\ deferred s' = deferred s) \/
     (exists cb, omap link_id parts <> [] /\
                 deferred s' = deferred s ++ [cb] /\
                 cb.*1 = omap link_id parts)).
Proof.
  destruct (deserializeDisplayParts_spec parts s)
    as (arr & items & s1 & Hde & Hsub & Hdef & Hwarn & Harr & Hfresh & Hcells
        & Hitems & Hnd).
  pose proof (links_of_ids items parts (Forall2_length _ _ _ Hcells)) as Hids.
  exists arr, s1. split; [done|]. split; [done|]. split; [done|].
  rewrite Hdef. destruct (links_of items parts) as [|link links] eqn:Hl.
  - left. rewrite <- Hids. cbn. by rewrite app_nil_r.
  - right. exists (link :: links). rewrite <- Hids. done.
Qed.

(** X20.  After [deserializeDisplayParts] and the deferred callbacks, a
    part that referred to a graph node by number holds the node the number
    resolves to; an inline tag whose number does not resolve has an
    undefined target; a part without such a number is as
    [deserializeDisplayParts] created it. *)
Theorem links_resolved (s : state) (parts : list JSONDisplayPart) :
  links_inv s ->
  exists arr items s1 s2,
    deserializeDisplayParts parts s = Some (arr, s1) /\
    runDeferred project oldIdToNewId s1 = Some (tt, s2) /\
    heap s2 !! arr = Some (CArray items) /\
    length items = length parts /\
    forall (i : nat) l, items !! i = Some l ->
      (forall tag text id ts r,
         parts !! i = Some (JInlineTag tag text (Some (JNumber id)) ts) ->
         resolve_id project oldIdToNewId id = Some r ->
         heap s2 !! l
         = Some (CPart (InlineTag tag text (Some (TReflection r)) ts))) /\
      (forall text id r,
         parts !! i = Some (JRelativeLink text (JReflection id)) ->
         resolve_id project oldIdToNewId id = Some r ->
         heap s2 !! l = Some (CPart (RelativeLink text (LReflection r)))) /\
      (forall tag text id ts,
         parts !! i = Some (JInlineTag tag text (Some (JNumber id)) ts) ->
         resolve_id project oldIdToNewId id = None ->
         heap s2 !! l = Some (CPart (InlineTag tag text None ts))) /\
      (forall part,
         parts !! i = Some part -> link_id part = None ->
         heap s2 !! l = Some (initial_cell part) /\
         heap s1 !! l = Some (initial_cell part)).
Proof.
  intros Hinv.
  destruct (deserializeDisplayParts_staged parts s Hinv)
    as (arr & items & s1 & Hde & Hgrows & Harr & Hfresh & Hstaged & Hitems & _).
  pose proof (links_inv_grows _ _ Hinv Hgrows) as Hinv1.
  destruct (runDeferred_spec project oldIdToNewId s1 Hinv1)
    as (s2 & Hrun & _ & _ & Hout & _).
  exists arr, items, s1, s2.
  split; [done|]. split; [done|]. split; [|split].
  - rewrite Hout; [done|].
    eapply not_linkable_not_pending; [done | exact Harr |]. by intros [? ?].
  - by eapply Forall2_length.
  - intros i l Hl.
    assert (Hfinal : forall part, parts !! i = Some part ->
              heap s2 !! l = final_cell project oldIdToNewId part).
    { intros part Hp.
      pose proof (Forall2_lookup_lr _ _ _ _ _ _ Hstaged Hl Hp) as Hst.
      by eapply staged_final. }
    split; [|split; [|split]].
    + intros tag text id ts r Hp Hres. rewrite (Hfinal _ Hp).
      unfold final_cell. cbn. by rewrite Hres.
    + intros text id r Hp Hres. rewrite (Hfinal _ Hp).
      unfold final_cell. cbn. by rewrite Hres.
    + intros tag text id ts Hp Hres. rewrite (Hfinal _ Hp).
      unfold final_cell. cbn. by rewrite Hres.
    + intros part Hp Hid. rewrite (Hfinal _ Hp). unfold final_cell.
      rewrite Hid. split; [done|].
      by destruct (Forall2_lookup_lr _ _ _ _ _ _ Hstaged Hl Hp) as [Hc _].
Qed.

End DeserializeMore.

Section FromObjectMore.
Context `{Collaborators}.
Import Store.

Lemma elem_of_Set_add x y s : x ∈ Set_add y s <-> x ∈ s \/ x = y.
Proof.
  unfold Set_add. case_bool_decide as Hy.
  - split; [by left|]. intros [Hx | ->]; done.
  - rewrite elem_of_app, list_elem_of_singleton. done.
Qed.

Lemma NoDup_Set_add y s : NoDup s -> NoDup (Set_add y s).
Proof.
  intros Hnd. unfold Set_add. case_bool_decide as Hy; [done|].
  apply NoDup_app. split; [done|]. split; [|apply NoDup_singleton].
  intros x Hx Hx'. apply list_elem_of_singleton in Hx'. by subst.
Qed.

Lemma Set_new_spec xs :
  NoDup (Set_new xs) /\ forall x, x ∈ Set_new xs <-> x ∈ xs.
Proof.
  unfold Set_new.
  assert (Hgen : forall acc,
    NoDup acc ->
    NoDup (foldl (fun s x => Set_add x s) acc xs) /\
    forall x, x ∈ foldl (fun s x => Set_add x s) acc xs <-> x ∈ acc \/ x ∈ xs).
  { induction xs as [|y xs IH]; intros acc Hacc; cbn [foldl].
    - split; [done|]. intros x. rewrite elem_of_nil. tauto.
    - destruct (IH (Set_add y acc) (NoDup_Set_add y acc Hacc)) as [Hnd Hin].
      split; [done|]. intros x. rewrite Hin, elem_of_Set_add, elem_of_cons.
      tauto. }
  destruct (Hgen [] (NoDup_nil_2)) as [Hnd Hin]. split; [done|].
  intros x. rewrite Hin, elem_of_nil. tauto.
Qed.

(** X21.  [CommentTag.fromObject] keeps the tag name of the receiver
    whatever [obj.tag] is, overwrites the name by [obj.name] even when that
    is undefined, and sets the content to a new array of new parts; no other
    existing object changes. *)
Theorem CommentTag_fromObject_keeps_tag
    (s : state) (this : loc) (obj : JSONCommentTag)
    (tag : jsstring) (name : option jsstring) (content : loc) :
  heap s !! this = Some (CTag tag name content) ->
  exists s' content' items,
    CommentTag_fromObject this obj s = Some (tt, s') /\
    heap s' !! this = Some (CTag tag (j_name obj) content') /\
    (content' ∉ dom (heap s)) /\
    heap s' !! content' = Some (CArray items) /\
    Forall2 (fun l part => heap s' !! l = Some (initial_cell part))
            items (j_content obj) /\
    (forall a, a ∈ dom (heap s) -> a <> this -> heap s' !! a = heap s !! a).
Proof.
  intros Hthis.
  destruct (deserializeDisplayParts_spec (j_content obj) s)
    as (arr & items & s1 & Hde & Hsub & Hdef & Hwarn & Harr & Hfresh & Hcells
        & Hitems & Hnd).
  assert (Hthis_dom : this ∈ dom (heap s)) by (by eapply elem_of_dom_2).
  exists (set_heap (insert this (CTag tag (j_name obj) arr)) s1), arr, items.
  split; [|split; [|split; [done|split; [|split]]]].
  - unfold CommentTag_fromObject.
    rewrite (bind_eq _ _ _ _ _ (load_eq _ _ _ Hthis)).
    by rewrite (bind_eq _ _ _ _ _ Hde).
  - rewrite heap_set_heap. apply lookup_insert_eq.
  - rewrite heap_set_heap, lookup_insert_ne; [done|]. by intros <-.
  - apply Forall2_same_length_lookup_2; [by eapply Forall2_length|].
    intros i l part Hl Hp.
    pose proof (Forall2_lookup_lr _ _ _ _ _ _ Hcells Hl Hp) as Hcell.
    rewrite heap_set_heap, lookup_insert_ne; [done|]. intros <-.
    rewrite Forall_forall in Hitems.
    apply (Hitems this); [by eapply list_elem_of_lookup_2|done].
  - intros a Ha Hne. rewrite heap_set_heap, lookup_insert_ne by done.
    by apply lookup_old.
Qed.

(** X22.  [Comment.fromObject] overwrites [label] by [obj.label] even when
    that is undefined and keeps [sourcePath] and [discoveryId].  The block
    tags are as many as [obj.blockTags] has, none when it is absent; the
    modifier tags are those of [obj.modifierTags] without repetition, none
    when it is absent.  No warning is written. *)
Theorem Comment_fromObject_fields
    (s : state) (this : loc) (obj : JSONComment)
    (s0 b0 m0 : loc) (l0 sp : option jsstring) (di : option Z) :
  links_inv s ->
  heap s !! this = Some (CComment s0 b0 m0 l0 sp di) ->
  exists s' sm b m tags mods,
    Comment_fromObject this obj s = Some (tt, s') /\
    heap s' !! this = Some (CComment sm b m (j_label obj) sp di) /\
    heap s' !! b = Some (CArray tags) /\
    length tags = length (default [] (j_blockTags obj)) /\
    heap s' !! m = Some (CSet mods) /\
    NoDup mods /\
    (forall x, x ∈ mods <-> x ∈ default [] (j_modifierTags obj)) /\
    warnings s' = warnings s.
Proof.
  intros Hinv Hthis.
  destruct (Comment_fromObject_spec this obj s s0 b0 m0 l0 sp di Hinv Hthis)
    as (s' & Hrun & _ & Hwarn & Hst & _).
  destruct Hst as (sm & b & m & sitems & tags & Hc & Hsm & Hsitems & Hb & Htags
                   & Hm).
  destruct (Set_new_spec (default [] (j_modifierTags obj))) as [Hnd Hin].
  exists s', sm, b, m, tags, (Set_new (default [] (j_modifierTags obj))).
  split; [done|]. split; [done|]. split; [done|].
  split; [by eapply Forall2_length|]. done.
Qed.

End FromObjectMore.

Section Examples.
#[local] Existing Instance sample_collaborators.

(** The statement of C7 at a [@linkcode] part with a URL target, between
    two text parts, rendered as HTML. *)
Lemma displayPartsToMarkdown_inline_tag_witness :
  displayPartsToMarkdown (H := sample_collaborators)
    ([Text (lit "see ")]
       ++ InlineTag (lit "@linkcode") (lit "f") (Some (TString (lit "u.html"))) None
       :: [Text (lit ".")])
    (fun _ => []) true
  = lit "see " ++
    (lit "<a href=" ++ [34%N] ++ lit "u.html" ++ [34%N] ++ [] ++ lit ">"
       ++ (lit "<code>" ++ lit "f" ++ lit "</code>") ++ lit "</a>")
    ++ lit ".".
Proof.
  exact (proj1 (proj1 (displayPartsToMarkdown_inline_tag
                         (H := sample_collaborators)
                         [Text (lit "see ")] [Text (lit ".")] (fun _ => []) true
                         (lit "@linkcode") (lit "f")
                         (Some (TString (lit "u.html"))) None)
                      (TString (lit "u.html")) (lit "u.html")
                      eq_refl eq_refl eq_refl) eq_refl).
Defined.

(** The example of C4: [[text "Intro"; code "a\nb"; text "more"]]. *)
Lemma split_code_fence_protection_witness :
  splitPartsToHeaderAndBody (H := sample_collaborators)
    ([Text (lit "Intro")] ++ Code (lit "a" ++ NL :: lit "b") :: [Text (lit "more")])
  = Some (lit "Intro", [Code (lit "a" ++ NL :: lit "b"); Text (lit "more")]).
Proof.
  refine (proj2 (split_code_fence_protection (H := sample_collaborators)
                   [Text (lit "Intro")] (lit "a" ++ NL :: lit "b")
                   [Text (lit "more")] _ _)
                [] (Text (lit "Intro")) eq_refl).
  - repeat constructor.
  - reflexivity.
Defined.

(** C6 at [[text "Only one line"]] and at [[text " a\nb"]]. *)
Lemma split_header_body_witness :
  splitPartsToHeaderAndBody (H := sample_collaborators)
    [Text (lit "Only one line")]
  = Some (combineDisplayParts (H := sample_collaborators)
            [Text (lit "Only one line")], []) /\
  exists header body,
    splitPartsToHeaderAndBody (H := sample_collaborators)
      [Text (lit " a" ++ NL :: lit "b")] = Some (header, body) /\
    trimmed header.
Proof.
  split.
  - apply (proj1 (proj2 (proj2 (split_header_body (H := sample_collaborators))))).
    repeat constructor.
  - apply (proj2 (proj2 (proj2 (split_header_body (H := sample_collaborators))))).
    constructor. reflexivity.
Defined.

(** C6 as stated fails: without line feed the header is not trimmed. *)
Lemma split_header_not_trimmed :
  splitPartsToHeaderAndBody (H := sample_collaborators)
    [Text (lit " Only one line ")]
  = Some (lit " Only one line ", []) /\
  ~ trimmed (lit " Only one line ").
Proof.
  split; [reflexivity|]. intros [Hh _]. by specialize (Hh 32%N eq_refl).
Qed.

(** C3 at a summary with two [@label] tags, [A] then [B]. *)
Lemma constructor_extracts_first_label_witness :
  exists c s1,
    Store.new_Comment 3%positive 4%positive 5%positive two_labels = Some (c, s1) /\
    Store.heap s1 !! c
    = Some (Store.CComment 3%positive 4%positive 5%positive (Some (lit "A"))
              None None) /\
    Store.view_parts (Store.heap s1) 3%positive
    = Some ([] ++ [InlineTag (lit "@label") (lit "B") None None]) /\
    (Forall (fun q => Store.is_label_part (H := sample_collaborators) q = false)
            [InlineTag (lit "@label") (lit "B") None None] ->
     forall q : CommentDisplayPart (H := sample_collaborators),
       q ∈ [] ++ [InlineTag (lit "@label") (lit "B") None None] ->
       Store.is_label_part q = false).
Proof.
  apply (constructor_extracts_first_label (H := sample_collaborators)
           two_labels 3%positive 4%positive 5%positive []
           [InlineTag (lit "@label") (lit "B") None None] (lit "A") None None).
  - reflexivity.
  - constructor.
Defined.

(** C3 as stated fails: of two [@label] tags the second stays in the
    summary, and the label is not its text. *)
Lemma constructor_keeps_second_label :
  exists c s1 C,
    Store.new_Comment 3%positive 4%positive 5%positive two_labels = Some (c, s1) /\
    Store.view_comment (Store.heap s1) c = Some C /\
    InlineTag (lit "@label") (lit "B") None None ∈ summary C /\
    label C <> Some (lit "B").
Proof.
  eexists _, _, _. split; [vm_compute; reflexivity|].
  split; [vm_compute; reflexivity|]. split.
  - cbn. apply list_elem_of_singleton. reflexivity.
  - cbn. discriminate.
Qed.

(** C2 at the list [[text "a"; relative link to node 999]], for a project
    without node. *)
Lemma dangling_reference_witness :
  exists arr items s1 s2,
    Store.deserializeDisplayParts (H := sample_collaborators)
      [JText (lit "a"); JRelativeLink (lit "x") (JReflection 999)] empty_store
    = Some (arr, s1) /\
    Store.runDeferred ∅ ∅ s1 = Some (tt, s2) /\
    Store.heap s2 !! arr = Some (Store.CArray items) /\
    length items
    = length [JText (H := sample_collaborators) (lit "a");
              JRelativeLink (lit "x") (JReflection 999)] /\
    Store.warnings s2
    = Store.warnings empty_store
      ++ dangling_warnings ∅ ∅
           [JText (lit "a"); JRelativeLink (lit "x") (JReflection 999)] /\
    forall (i : nat) text id,
      [JText (H := sample_collaborators) (lit "a");
       JRelativeLink (lit "x") (JReflection 999)] !! i
      = Some (JRelativeLink text (JReflection id)) ->
      resolve_id ∅ ∅ id = None ->
      warning_for ∅ ∅ id
      = [Store.serialized_project_referenced_0_not_part_of_project
           (Number_toString id)]
      /\
      exists l,
        items !! i = Some l /\
        Store.heap s2 !! l = Some (Store.CPlaceholder text Store.JsUndefined).
Proof.
  apply (dangling_reference (H := sample_collaborators) ∅ ∅ empty_store
           [JText (lit "a"); JRelativeLink (lit "x") (JReflection 999)]).
  reflexivity.
Defined.

(** C1 at [sample_comment]. *)
Lemma comment_round_trip_witness :
  exists c s',
    Store.deserialize_Comment sample_project sample_remap
      (Comment_toObject sample_comment) empty_store = Some (c, s') /\
    Store.view_comment (Store.heap s') c = Some (serialized_fields sample_comment) /\
    Store.warnings s' = Store.warnings empty_store.
Proof.
  apply (comment_round_trip sample_project sample_remap empty_store
           sample_comment).
  - reflexivity.
  - apply NoDup_singleton.
  - split; repeat constructor.
  - intros x. reflexivity.
Defined.

(** C10 at [labelled_object], read into a new comment. *)
Lemma fromObject_keeps_label_tag_witness :
  exists s1 s2 sm b m sitems,
    Store.Comment_fromObject 4%positive labelled_object new_comment_store
    = Some (tt, s1) /\
    Store.runDeferred sample_project sample_remap s1 = Some (tt, s2) /\
    Store.heap s1 !! 4%positive
    = Some (Store.CComment sm b m (j_label labelled_object) None None) /\
    Store.heap s2 !! 4%positive
    = Some (Store.CComment sm b m (j_label labelled_object) None None) /\
    Store.heap s1 !! sm = Some (Store.CArray sitems) /\
    Store.heap s2 !! sm = Some (Store.CArray sitems) /\
    length sitems = length (j_summary labelled_object) /\
    forall (i : nat) text target ts,
      j_summary labelled_object !! i
      = Some (JInlineTag (lit "@label") text target ts) ->
      exists l t1 t2,
        sitems !! i = Some l /\
        Store.heap s1 !! l
        = Some (Store.CPart (InlineTag (lit "@label") text t1 ts)) /\
        Store.heap s2 !! l
        = Some (Store.CPart (InlineTag (lit "@label") text t2 ts)).
Proof.
  apply (fromObject_keeps_label_tag sample_project sample_remap
           new_comment_store 4%positive labelled_object
           1%positive 2%positive 3%positive None None None).
  - apply links_inv_empty. reflexivity.
  - reflexivity.
Defined.

(** C8 at the comment and at the type [T[K]] of [clone_store]. *)
Lemma clone_independence_witness :
  (exists y s' C',
      Store.Comment_clone 6%positive clone_store = Some (y, s') /\
      y <> 6%positive /\
      Store.view_comment (Store.heap s') 6%positive = Some clone_store_comment /\
      Store.view_comment (Store.heap s') y = Some C' /\
      (forall a, Store.reach (Store.heap s') y a ->
                 ~ Store.reach (Store.heap s') 6%positive a) /\
      (forall a c, Store.reach (Store.heap s') y a ->
                   Store.view_comment (<[a := c]> (Store.heap s')) 6%positive
                   = Some clone_store_comment) /\
      (forall a c, Store.reach (Store.heap s') 6%positive a ->
                   Store.view_comment (<[a := c]> (Store.heap s')) y = Some C')) /\
  (exists y s',
      Store.IndexedAccessType_clone 1 9%positive clone_store = Some (y, s') /\
      y <> 9%positive /\
      Store.repr_type (Store.heap s') 9%positive
        T_of_K /\
      Store.repr_type (Store.heap s') y
        T_of_K /\
      (forall a, Store.reach (Store.heap s') y a ->
                 ~ Store.reach (Store.heap s') 9%positive a) /\
      (forall a c, Store.reach (Store.heap s') y a ->
                   Store.repr_type (<[a := c]> (Store.heap s')) 9%positive
                     T_of_K) /\
      (forall a c, Store.reach (Store.heap s') 9%positive a ->
                   Store.repr_type (<[a := c]> (Store.heap s')) y T_of_K)).
Proof.
  split.
  - apply (proj1 clone_independence clone_store 6%positive clone_store_comment).
    reflexivity.
  - apply (proj2 clone_independence clone_store 9%positive
             (Other (H := sample_collaborators) (lit "T"))
             (Other (H := sample_collaborators) (lit "K")) 1%nat).
    + eapply Store.repr_indexed; [reflexivity | |];
        apply Store.repr_other; reflexivity.
    + cbn. lia.
Defined.

(** X3 at a text part followed by a code part. *)
Lemma displayPartsToMarkdown_literal_witness :
  displayPartsToMarkdown [Text (lit "a "); Code (lit "`b`")] snd true
  = combineDisplayParts (H := sample_collaborators)
      [Text (lit "a "); Code (lit "`b`")].
Proof.
  apply (displayPartsToMarkdown_literal (H := sample_collaborators)
           [Text (lit "a "); Code (lit "`b`")] snd true).
  repeat constructor.
Defined.

(** X5 at a [@linkcode] tag whose target is a symbol identifier. *)
Lemma displayPartsToMarkdown_linkcode_without_url_witness :
  displayPartsToMarkdown (H := sample_collaborators)
    [InlineTag (lit "@linkcode") (lit "Foo")
       (Some (TSymbolId (H := sample_collaborators) (lit "sym"))) None]
    snd true = lit "Foo" /\
  displayPartsToMarkdown (H := sample_collaborators)
    [InlineTag (lit "@linkcode") (lit "Foo")
       (Some (TSymbolId (H := sample_collaborators) (lit "sym"))) None]
    snd false = lit "`" ++ lit "Foo" ++ lit "`".
Proof.
  apply (displayPartsToMarkdown_linkcode_without_url (H := sample_collaborators)
           snd (lit "Foo") (TSymbolId (H := sample_collaborators) (lit "sym"))
           None).
  - reflexivity.
  - left. reflexivity.
Defined.

(** X8 at a text part with a line feed after a text part. *)
Lemma split_header_one_line_witness :
  exists header body,
    splitPartsToHeaderAndBody (H := sample_collaborators)
      [Text (lit "a "); Text [98%N; NL; 99%N]] = Some (header, body) /\
    includes_nl header = false.
Proof.
  apply (split_header_one_line (H := sample_collaborators)
           [Text (lit "a "); Text [98%N; NL; 99%N]]).
  repeat constructor.
Defined.

(** X10 at [blank_comment]. *)
Lemma invisible_renders_empty_witness :
  combineDisplayParts (summary blank_comment) = [] /\
  displayPartsToMarkdown (summary blank_comment) snd false = [] /\
  splitPartsToHeaderAndBody (summary blank_comment) = Some ([], []).
Proof.
  apply (invisible_renders_empty (H := sample_collaborators) blank_comment
           snd false).
  reflexivity.
Defined.

(** X15 at the summary array of [clone_store]. *)
Lemma cloneDisplayParts_copy_witness :
  exists arr' items' s',
    Store.cloneDisplayParts 3%positive clone_store = Some (arr', s') /\
    Store.heap clone_store ⊆ Store.heap s' /\
    (arr' ∉ dom (Store.heap clone_store)) /\
    Store.heap s' !! arr' = Some (Store.CArray items') /\
    Forall (fun l => l ∉ dom (Store.heap clone_store)) items' /\
    Store.view_parts (Store.heap s') arr'
    = Some [Text (lit "a"); Code (lit "b")] /\
    Store.view_parts (Store.heap s') 3%positive
    = Some [Text (lit "a"); Code (lit "b")].
Proof.
  apply (cloneDisplayParts_copy (H := sample_collaborators) clone_store
           3%positive [Text (lit "a"); Code (lit "b")]).
  reflexivity.
Defined.

(** X16 at the tag of [tag_store], whose name is the empty string. *)
Lemma CommentTag_clone_value_witness :
  exists t' s' tg',
    Store.CommentTag_clone 3%positive tag_store = Some (t', s') /\
    (t' ∉ dom (Store.heap tag_store)) /\
    Store.heap tag_store ⊆ Store.heap s' /\
    Store.view_tag (Store.heap s') t' = Some tg' /\
    tag_tag tg' = tag_tag tag_store_tag /\
    tag_content tg' = tag_content tag_store_tag /\
    tag_name tg' = (if bool_decide (tag_name tag_store_tag = Some []) then None
                    else tag_name tag_store_tag).
Proof.
  apply (CommentTag_clone_value (H := sample_collaborators) tag_store
           3%positive tag_store_tag).
  reflexivity.
Defined.

(** X17 at the comment of [labelled_store], whose label is [L]. *)
Lemma Comment_clone_value_witness :
  exists y s',
    Store.Comment_clone 5%positive labelled_store = Some (y, s') /\
    (y ∉ dom (Store.heap labelled_store)) /\
    Store.view_comment (Store.heap s') y
    = Some (cloned_comment labelled_store_comment) /\
    (Forall (fun q => Store.is_label_part (H := sample_collaborators) q = false)
            (summary labelled_store_comment) ->
     summary (cloned_comment labelled_store_comment)
     = summary labelled_store_comment /\
     label (cloned_comment labelled_store_comment) = None).
Proof.
  apply (Comment_clone_value (H := sample_collaborators) labelled_store
           5%positive labelled_store_comment).
  reflexivity.
Defined.

(** X18 at the summary array of [clone_store]. *)
Lemma constructor_without_label_witness :
  exists c,
    (c ∉ dom (Store.heap clone_store)) /\
    Store.new_Comment 3%positive 4%positive 5%positive clone_store
    = Some (c, Store.set_heap
                 (insert c (Store.CComment 3%positive 4%positive 5%positive
                              None None None)) clone_store).
Proof.
  apply (constructor_without_label (H := sample_collaborators) clone_store
           3%positive 4%positive 5%positive [Text (lit "a"); Code (lit "b")]).
  - reflexivity.
  - repeat constructor.
Defined.

(** X20 at a text part and a link to node 3 of [sample_project]. *)
Lemma links_resolved_witness :
  exists arr items s1 s2,
    Store.deserializeDisplayParts (H := sample_collaborators)
      [JText (lit "a"); JInlineTag (lit "@link") (lit "Foo") (Some (JNumber 3)) None]
      empty_store
    = Some (arr, s1) /\
    Store.runDeferred sample_project sample_remap s1 = Some (tt, s2) /\
    Store.heap s2 !! arr = Some (Store.CArray items) /\
    length items
    = length [JText (H := sample_collaborators) (lit "a");
              JInlineTag (lit "@link") (lit "Foo") (Some (JNumber 3)) None] /\
    forall (i : nat) l, items !! i = Some l ->
      (forall tag text id ts r,
         [JText (H := sample_collaborators) (lit "a");
          JInlineTag (lit "@link") (lit "Foo") (Some (JNumber 3)) None] !! i
         = Some (JInlineTag tag text (Some (JNumber id)) ts) ->
         resolve_id sample_project sample_remap id = Some r ->
         Store.heap s2 !! l
         = Some (Store.CPart (InlineTag tag text (Some (TReflection r)) ts))) /\
      (forall text id r,
         [JText (H := sample_collaborators) (lit "a");
          JInlineTag (lit "@link") (lit "Foo") (Some (JNumber 3)) None] !! i
         = Some (JRelativeLink text (JReflection id)) ->
         resolve_id sample_project sample_remap id = Some r ->
         Store.heap s2 !! l
         = Some (Store.CPart (RelativeLink text (LReflection r)))) /\
      (forall tag text id ts,
         [JText (H := sample_collaborators) (lit "a");
          JInlineTag (lit "@link") (lit "Foo") (Some (JNumber 3)) None] !! i
         = Some (JInlineTag tag text (Some (JNumber id)) ts) ->
         resolve_id sample_project sample_remap id = None ->
         Store.heap s2 !! l = Some (Store.CPart (InlineTag tag text None ts))) /\
      (forall part,
         [JText (H := sample_collaborators) (lit "a");
          JInlineTag (lit "@link") (lit "Foo") (Some (JNumber 3)) None] !! i
         = Some part ->
         link_id part = None ->
         Store.heap s2 !! l = Some (initial_cell part) /\
         Store.heap s1 !! l = Some (initial_cell part)).
Proof.
  apply (links_resolved (H := sample_collaborators) sample_project sample_remap
           empty_store
           [JText (lit "a");
            JInlineTag (lit "@link") (lit "Foo") (Some (JNumber 3)) None]).
  apply links_inv_empty. reflexivity.
Defined.

(** X21 at the tag of [tag_store] and a serialized tag of another name. *)
Lemma CommentTag_fromObject_keeps_tag_witness :
  exists s' content' items,
    Store.CommentTag_fromObject 3%positive returns_object tag_store
    = Some (tt, s') /\
    Store.heap s' !! 3%positive
    = Some (Store.CTag (lit "@param") (j_name returns_object) content') /\
    (content' ∉ dom (Store.heap tag_store)) /\
    Store.heap s' !! content' = Some (Store.CArray items) /\
    Forall2 (fun l part => Store.heap s' !! l = Some (initial_cell part))
            items (j_content returns_object) /\
    (forall a, a ∈ dom (Store.heap tag_store) -> a <> 3%positive ->
               Store.heap s' !! a = Store.heap tag_store !! a).
Proof.
  apply (CommentTag_fromObject_keeps_tag (H := sample_collaborators) tag_store
           3%positive returns_object (lit "@param") (Some []) 2%positive).
  reflexivity.
Defined.

(** X22 at [labelled_object], read into the comment of [labelled_store]. *)
Lemma Comment_fromObject_fields_witness :
  exists s' sm b m tags mods,
    Store.Comment_fromObject 5%positive labelled_object labelled_store
    = Some (tt, s') /\
    Store.heap s' !! 5%positive
    = Some (Store.CComment sm b m (j_label labelled_object) None (Some 7)) /\
    Store.heap s' !! b = Some (Store.CArray tags) /\
    length tags = length (default [] (j_blockTags labelled_object)) /\
    Store.heap s' !! m = Some (Store.CSet mods) /\
    NoDup mods /\
    (forall x, x ∈ mods <-> x ∈ default [] (j_modifierTags labelled_object)) /\
    Store.warnings s' = Store.warnings labelled_store.
Proof.
  apply (Comment_fromObject_fields (H := sample_collaborators) labelled_store
           5%positive labelled_object 2%positive 3%positive 4%positive
           (Some (lit "L")) None (Some 7)).
  - apply links_inv_empty. reflexivity.
  - reflexivity.
Defined.

End Examples.
